(** * prepare_epub: a shallow embedding of the EPUB clean-up pipeline

    The development follows [prepare_epub.py] function by function.
    Python [str] values are modelled as [string] (one [ascii] per code
    point, so the model covers the code points 0..255); the text
    algorithms work on the underlying [list ascii].  Parsed documents
    (BeautifulSoup trees) are rose trees whose tags carry an object
    identity, because the source iterates over tag objects while it
    rearranges the tree. *)

From Stdlib Require Import String Ascii ZArith Lia Bool Arith List.
From Stdlib Require Import DecimalString DecimalNat Permutation.
From stdpp Require gmap strings.
Import ListNotations.

(** ** Characters and text primitives *)

Module Text.

Definition str := list ascii.

Definition lit (s : string) : str := list_ascii_of_string s.

Definition char_eqb (a b : ascii) : bool := Ascii.eqb a b.

Global Arguments char_eqb : simpl never.

(** [str.lower] on one code point.  Below 256 the cased code points are
    A-Z and U+00C0..U+00DE without the multiplication sign U+00D7. *)
Definition lower_char (c : ascii) : ascii :=
  let n := nat_of_ascii c in
  if ((65 <=? n) && (n <=? 90)) ||
     ((192 <=? n) && (n <=? 222) && negb (n =? 215))
  then ascii_of_nat (n + 32) else c.

Definition lower (s : str) : str := map lower_char s.

(** [s.replace(' ', '-')], a one-character replacement. *)
Definition replace_char (a b : ascii) (s : str) : str :=
  map (fun c => if char_eqb c a then b else c) s.

Fixpoint starts_with (p s : str) : bool :=
  match p, s with
  | [], _ => true
  | _ :: _, [] => false
  | a :: p', b :: s' => char_eqb a b && starts_with p' s'
  end.

(** [s.rfind(c)] for a one-character needle: the last index, or -1. *)
Fixpoint rfind_from (c : ascii) (s : str) (i last : Z) : Z :=
  match s with
  | [] => last
  | x :: r => rfind_from c r (i + 1)%Z (if char_eqb x c then i else last)
  end.

Definition rfind (c : ascii) (s : str) : Z := rfind_from c s 0%Z (-1)%Z.

(** Slices [s[:i]] and [s[i:]] for an index [0 <= i]. *)
Definition slice_to (i : Z) (s : str) : str := firstn (Z.to_nat i) s.
Definition slice_from (i : Z) (s : str) : str := skipn (Z.to_nat i) s.

(** [s.rstrip('-')]. *)
Fixpoint rstrip (c : ascii) (s : str) : str :=
  match s with
  | [] => []
  | x :: r =>
      match rstrip c r with
      | [] => if char_eqb x c then [] else [x]
      | r' => x :: r'
      end
  end.

End Text.

(** ** Filename Normalizer *)

Module Filename.
Import Text.

(** [os.path.splitext] (posixpath, separator '/', extension separator
    '.'): split at the last dot when it lies in the last path component
    and some character of that component before it is not a dot. *)
Definition splitext (p : str) : str * str :=
  let sepIndex := rfind "/"%char p in
  let dotIndex := rfind "."%char p in
  if (sepIndex <? dotIndex)%Z then
    let leading := slice_to (dotIndex - (sepIndex + 1)) (slice_from (sepIndex + 1) p) in
    if existsb (fun c => negb (char_eqb c "."%char)) leading
    then (slice_to dotIndex p, slice_from dotIndex p)
    else (p, [])
  else (p, []).

(** Where the pattern [$] can match: at the end of the text or just
    before a newline that ends it. *)
Definition at_dollar (s : str) : bool :=
  match s with
  | [] => true
  | [c] => char_eqb c "010"%char
  | _ => false
  end.

(** A match of [final$] at the head of [s]; what follows the match. *)
Definition match_final (s : str) : option str :=
  if starts_with (lit "final") s
  then let r := skipn 5 s in if at_dollar r then Some r else None
  else None.

(** A match of [[-_]?final$] at the head of [s]: the optional separator
    is tried first, then the empty alternative. *)
Definition match_sep_final (s : str) : option str :=
  match s with
  | c :: t =>
      if char_eqb c "-"%char || char_eqb c "_"%char then
        match match_final t with
        | Some r => Some r
        | None => match_final s
        end
      else match_final s
  | [] => match_final s
  end.

(** [re.sub(r'[-_]?final$', '', s)]: the leftmost match is deleted.  What
    follows a match is empty or one newline, where no further match
    can start, so it is copied as it is. *)
Fixpoint strip_final (s : str) : str :=
  match match_sep_final s with
  | Some r => r
  | None =>
      match s with
      | [] => []
      | c :: t => c :: strip_final t
      end
  end.

(** [re.sub(r'-{2,}', '-', s)]: every maximal run of two or more
    hyphens becomes one hyphen. *)
Fixpoint collapse_hyphens (s : str) : str :=
  match s with
  | [] => []
  | c :: t =>
      match t with
      | d :: _ =>
          if char_eqb c "-"%char && char_eqb d "-"%char then collapse_hyphens t
          else c :: collapse_hyphens t
      | [] => [c]
      end
  end.

(** The stem transformation of [normalize_filename]. *)
Definition normalize_stem (stem : str) : str :=
  let normalized := replace_char " "%char "-"%char (lower stem) in
  let normalized := strip_final normalized in
  rstrip "-"%char (collapse_hyphens normalized).

Definition normalize_chars (name : str) : str :=
  let (stem, ext) := splitext name in
  normalize_stem stem ++ lower ext.

Definition normalize_filename (name : string) : string :=
  string_of_list_ascii (normalize_chars (list_ascii_of_string name)).

End Filename.

(** ** Entity fixer: text-level substitution *)

Module Entities.
Import Text.

(** [needle in text] for strings. *)
Fixpoint contains (needle s : str) : bool :=
  starts_with needle s ||
  match s with
  | [] => false
  | _ :: t => contains needle t
  end.

(** [text.replace(old, new)] for a non-empty [old]: the text is scanned
    from the left; at a match [new] is emitted and the scan resumes
    after the match ([skip] counts the characters of the match that are
    still to be passed over). *)
Fixpoint replace_from (old new : str) (skip : nat) (s : str) : str :=
  match s with
  | [] => []
  | c :: t =>
      match skip with
      | S k => replace_from old new k t
      | O =>
          if starts_with old s
          then new ++ replace_from old new (length old - 1) t
          else c :: replace_from old new 0 t
      end
  end.

Definition replace (old new s : str) : str := replace_from old new 0 s.

(** [text.count(sub)] for a non-empty [sub]: non-overlapping
    occurrences, counted from the left. *)
Fixpoint count_from (sub : str) (skip : nat) (s : str) : nat :=
  match s with
  | [] => 0
  | _ :: t =>
      match skip with
      | S k => count_from sub k t
      | O =>
          if starts_with sub s
          then S (count_from sub (length sub - 1) t)
          else count_from sub 0 t
      end
  end.

Definition count (sub s : str) : nat := count_from sub 0 s.

(** The table of [fix_named_entities], in the order of the dict. *)
Definition replacements : list (string * string) :=
  [ ("&nbsp;", "&#160;");
    ("&ensp;", "&#8194;");
    ("&emsp;", "&#8195;");
    ("&thinsp;", "&#8201;");
    ("&ndash;", "&#8211;");
    ("&mdash;", "&#8212;");
    ("&hellip;", "&#8230;");
    ("&lsquo;", "&#8216;");
    ("&rsquo;", "&#8217;");
    ("&ldquo;", "&#8220;");
    ("&rdquo;", "&#8221;");
    ("&copy;", "&#169;");
    ("&reg;", "&#174;") ]%string.

(** One turn of the loop: [if named in text: text = text.replace(...)]. *)
Definition step (text : str) (entry : string * string) : str :=
  let named := lit (fst entry) in
  let numeric := lit (snd entry) in
  if contains named text then replace named numeric text else text.

Definition fix_chars (table : list (string * string)) (text : str) : str :=
  fold_left step table text.

Definition fix_named_entities (text : string) : string :=
  string_of_list_ascii (fix_chars replacements (list_ascii_of_string text)).

(** Occurrence counts on [string], as used in the statements. *)
Definition occurrences (sub text : string) : nat :=
  count (lit sub) (lit text).

End Entities.

(** ** Manifest builder *)

Module Manifest.
Import Text.
Local Open Scope string_scope.

Definition of_chars (s : str) : string := string_of_list_ascii s.

(** [PurePath.suffix] and [PurePath.stem] of a file name: the name is
    cut at its last dot unless that dot is its first or last character. *)
Definition cut_index (name : str) : option Z :=
  let i := rfind "."%char name in
  if ((0 <? i) && (i <? Z.of_nat (length name) - 1))%Z then Some i else None.

Definition suffix (name : string) : string :=
  match cut_index (lit name) with
  | Some i => of_chars (slice_from i (lit name))
  | None => ""
  end.

Definition stem (name : string) : string :=
  match cut_index (lit name) with
  | Some i => of_chars (slice_to i (lit name))
  | None => name
  end.

Definition lower_string (s : string) : string := of_chars (lower (lit s)).

(** The character class [[a-zA-Z0-9]]. *)
Definition is_alnum (c : ascii) : bool :=
  let n := nat_of_ascii c in
  (((97 <=? n) && (n <=? 122)) || ((65 <=? n) && (n <=? 90)) || ((48 <=? n) && (n <=? 57)))%nat.

(** [re.sub(r'[^a-zA-Z0-9]', '_', s)]. *)
Definition sanitize (s : string) : string :=
  of_chars (map (fun c => if is_alnum c then c else "_"%char) (lit s)).

(** The pattern ['*.css'] of [glob]: the name ends in [.css]. *)
Definition ends_with (sfx name : string) : bool :=
  starts_with (rev (lit sfx)) (rev (lit name)).

(** [str(n)] for a natural number. *)
Definition decimal (n : nat) : string := NilEmpty.string_of_uint (Nat.to_uint n).

Record item := {
  item_id : string;
  href : string;
  media_type : string
}.

(** What the builder reads from the project directory: the XHTML files
    in the order of [sorted(collect_xhtml_files(root))], as relative
    POSIX paths, and the entries of [styles/], [images/] and [fonts/]
    ([None] for a directory that does not exist). *)
Record listing := {
  xhtml_files : list string;
  styles_dir : option (list string);
  images_dir : option (list string);
  fonts_dir : option (list string)
}.

Definition entries (d : option (list string)) : list string :=
  match d with
  | Some l => l
  | None => []
  end.

(** [for i, file_path in enumerate(...)], counting from [i]. *)
Fixpoint xhtml_items (i : nat) (files : list string) : list item :=
  match files with
  | [] => []
  | f :: rest =>
      {| item_id := "item" ++ decimal (i + 1); href := f;
         media_type := "application/xhtml+xml" |} :: xhtml_items (S i) rest
  end.

Definition css_items (l : listing) : list item :=
  map (fun name => {| item_id := stem name; href := "styles/" ++ name;
                      media_type := "text/css" |})
      (filter (ends_with ".css") (entries (styles_dir l))).

Definition image_mime (sfx : string) : option string :=
  if String.eqb sfx ".jpg" then Some "image/jpeg"
  else if String.eqb sfx ".jpeg" then Some "image/jpeg"
  else if String.eqb sfx ".png" then Some "image/png"
  else if String.eqb sfx ".gif" then Some "image/gif"
  else if String.eqb sfx ".svg" then Some "image/svg+xml"
  else None.

Definition font_mime (sfx : string) : option string :=
  if String.eqb sfx ".ttf" then Some "font/ttf"
  else if String.eqb sfx ".otf" then Some "font/otf"
  else if String.eqb sfx ".woff" then Some "font/woff"
  else if String.eqb sfx ".woff2" then Some "font/woff2"
  else None.

(** The entries of a directory whose lowered suffix is in the table. *)
Fixpoint asset_items (dir : string) (mime : string -> option string)
    (names : list string) : list item :=
  match names with
  | [] => []
  | name :: rest =>
      match mime (lower_string (suffix name)) with
      | Some m =>
          {| item_id := sanitize (stem name); href := dir ++ name; media_type := m |}
          :: asset_items dir mime rest
      | None => asset_items dir mime rest
      end
  end.

Definition nav_item : item :=
  {| item_id := "nav"; href := "3-TableOfContents.xhtml";
     media_type := "application/xhtml+xml" |}.

(** The items of the manifest in the order of the generated file. *)
Definition manifest_items (l : listing) : list item :=
  xhtml_items 0 (xhtml_files l)
  ++ css_items l
  ++ asset_items "images/" image_mime (entries (images_dir l))
  ++ asset_items "fonts/" font_mime (entries (fonts_dir l))
  ++ [nav_item].

Definition spine_items (l : listing) : list string :=
  map item_id (xhtml_items 0 (xhtml_files l)).

Definition manifest_ids (l : listing) : list string :=
  map item_id (manifest_items l).

Definition xhtml_ids (l : listing) : list string :=
  map item_id (xhtml_items 0 (xhtml_files l)).

(** The ids that come from file stems. *)
Definition asset_ids (l : listing) : list string :=
  map item_id (css_items l
               ++ asset_items "images/" image_mime (entries (images_dir l))
               ++ asset_items "fonts/" font_mime (entries (fonts_dir l))).

End Manifest.

(** ** Archive packager *)

Module Archive.
Local Open Scope string_scope.

(** The project directory: regular files with their content and
    directories with their entries, in the order of the directory
    listing. *)
#[warnings="-register-all"]
Inductive node :=
| File (content : string)
| Dir (entries : list (string * node)).

Definition dir := list (string * node).

(** A path below the project root, as the sequence of its names
    ([as_posix] joins them with a slash). *)
Definition path := list string.

Fixpoint lookup (name : string) (d : dir) : option node :=
  match d with
  | [] => None
  | (n, x) :: rest => if String.eqb n name then Some x else lookup name rest
  end.

(** Creating or overwriting the entry [name] of a directory. *)
Fixpoint store (name : string) (x : node) (d : dir) : dir :=
  match d with
  | [] => [(name, x)]
  | (n, y) :: rest =>
      if String.eqb n name then (n, x) :: rest else (n, y) :: store name x rest
  end.

(** The content of the regular file at a path. *)
Fixpoint file_at (p : path) (x : node) : option string :=
  match p with
  | [] => match x with File c => Some c | Dir _ => None end
  | n :: q =>
      match x with
      | Dir d => match lookup n d with Some y => file_at q y | None => None end
      | File _ => None
      end
  end.

(** [os.walk]: the files of a directory, then those of each
    subdirectory, with their paths relative to the directory walked. *)
Fixpoint walk (x : node) : list (path * string) :=
  match x with
  | File _ => []
  | Dir d =>
      flat_map (fun e => match e with
                         | (n, File c) => [([n], c)]
                         | (n, Dir _) => []
                         end) d
      ++ flat_map (fun e => match e with
                            | (n, y) => map (fun pc => (n :: fst pc, snd pc)) (walk y)
                            end) d
  end.

Inductive compression := ZIP_STORED | ZIP_DEFLATED.

Record entry := {
  arcname : path;
  is_dir : bool;
  payload : string;
  compress_type : compression
}.

Definition quote : string := String (ascii_of_nat 34) "".
Definition newline : string := String (ascii_of_nat 10) "".

Definition container_xml (opf_rel : string) : string :=
  "<?xml version=" ++ quote ++ "1.0" ++ quote ++ " encoding=" ++ quote ++ "UTF-8"
  ++ quote ++ "?>" ++ newline
  ++ "<container version=" ++ quote ++ "1.0" ++ quote ++ " xmlns=" ++ quote
  ++ "urn:oasis:names:tc:opendocument:xmlns:container" ++ quote ++ ">" ++ newline
  ++ "  <rootfiles>" ++ newline
  ++ "    <rootfile full-path=" ++ quote ++ opf_rel ++ quote ++ " media-type=" ++ quote
  ++ "application/oebps-package+xml" ++ quote ++ "/>" ++ newline
  ++ "  </rootfiles>" ++ newline
  ++ "</container>".

Definition mimetype_literal : string := "application/epub+zip".

Definition path_eqb (p q : path) : bool :=
  if list_eq_dec string_dec p q then true else false.

(** [zf.write(mimetype_path, 'mimetype', compress_type=ZIP_STORED)]:
    for a directory [ZipFile.write] adds an empty directory entry. *)
Definition mimetype_entry (x : node) : entry :=
  match x with
  | File c =>
      {| arcname := ["mimetype"]; is_dir := false; payload := c;
         compress_type := ZIP_STORED |}
  | Dir _ =>
      {| arcname := ["mimetype"]; is_dir := true; payload := "";
         compress_type := ZIP_STORED |}
  end.

Definition deflated (pc : path * string) : entry :=
  {| arcname := fst pc; is_dir := false; payload := snd pc;
     compress_type := ZIP_DEFLATED |}.

(** [create_epub] on the project directory: the directory as the
    function leaves it and the entries of the archive in the order
    they are written.  [None] stands for the [OSError] of
    [write_text] when [META-INF] is a regular file or
    [META-INF/container.xml] a directory.  The archive itself is
    written outside the project directory. *)
Definition create_epub (root : dir) (opf_rel : string) : option (dir * list entry) :=
  let root1 :=
    match lookup "mimetype" root with
    | Some _ => root
    | None => store "mimetype" (File mimetype_literal) root
    end in
  let meta :=
    match lookup "META-INF" root1 with
    | None => Some []
    | Some (Dir m) => Some m
    | Some (File _) => None
    end in
  match meta with
  | None => None
  | Some m =>
      match lookup "container.xml" m with
      | Some (Dir _) => None
      | _ =>
          let m' := store "container.xml" (File (container_xml opf_rel)) m in
          let root2 := store "META-INF" (Dir m') root1 in
          match lookup "mimetype" root2 with
          | None => None
          | Some x =>
              Some (root2,
                    mimetype_entry x
                    :: map deflated
                         (filter (fun pc => negb (path_eqb (fst pc) ["mimetype"]))
                                 (walk (Dir root2))))
          end
      end
  end.

(** Names are unique in every directory. *)
Fixpoint nodupb (l : list string) : bool :=
  match l with
  | [] => true
  | x :: r => negb (existsb (String.eqb x) r) && nodupb r
  end.

Fixpoint wf (x : node) : bool :=
  match x with
  | File _ => true
  | Dir d =>
      nodupb (map fst d)
      && forallb (fun e => match e with (_, y) => wf y end) d
  end.

End Archive.

(** ** Parsed documents *)

Module Dom.
Import Text.
Local Open Scope string_scope.
Local Open Scope list_scope.

(** An attribute value: a string, or a list of strings for the
    attributes the parser splits on whitespace ([class], [rel], ...). *)
Inductive attr_value :=
| AttrStr (s : string)
| AttrList (l : list string).

Definition attrs := list (string * attr_value).

(** A node of a BeautifulSoup tree.  A tag carries its object identity
    [uid]; the [BeautifulSoup] object itself is the root tag, named
    [[document]]. *)
#[warnings="-register-all"]
Inductive node :=
| Tag (uid : nat) (name : string) (a : attrs) (contents : list node)
| NavigableString (s : string)
| Comment (s : string).

(** *** Attributes: [has_attr], [get], [tag[key] = value], [del tag[key]] *)

Fixpoint get_attr (key : string) (a : attrs) : option attr_value :=
  match a with
  | [] => None
  | (k, v) :: rest => if String.eqb k key then Some v else get_attr key rest
  end.

Definition has_attr (key : string) (a : attrs) : bool :=
  match get_attr key a with
  | Some _ => true
  | None => false
  end.

Fixpoint set_attr (key : string) (v : attr_value) (a : attrs) : attrs :=
  match a with
  | [] => [(key, v)]
  | (k, w) :: rest =>
      if String.eqb k key then (k, v) :: rest else (k, w) :: set_attr key v rest
  end.

Definition del_attr (key : string) (a : attrs) : attrs :=
  filter (fun kv => negb (String.eqb (fst kv) key)) a.

Definition attr_value_eqb (v w : attr_value) : bool :=
  match v, w with
  | AttrStr s, AttrStr t => String.eqb s t
  | AttrList l, AttrList m =>
      if list_eq_dec string_dec l m then true else false
  | _, _ => false
  end.

(** *** Searching *)

Definition is_tag (name : string) (t : node) : bool :=
  match t with
  | Tag _ n _ _ => String.eqb n name
  | _ => false
  end.

(** [tag.descendants]: every node below [t], in document order. *)
Fixpoint descendants (t : node) : list node :=
  match t with
  | Tag _ _ _ ks => flat_map (fun k => k :: descendants k) ks
  | _ => []
  end.

(** [tag.find_all(...)] and [tag.find(...)] for a test on nodes. *)
Definition find_all (p : node -> bool) (t : node) : list node :=
  filter p (descendants t).

Definition find (p : node -> bool) (t : node) : option node :=
  hd_error (find_all p t).

(** [tag.find_all(..., recursive=False)]. *)
Definition children (t : node) : list node :=
  match t with
  | Tag _ _ _ ks => ks
  | _ => []
  end.

Definition uid_of (t : node) : option nat :=
  match t with
  | Tag u _ _ _ => Some u
  | _ => None
  end.

Definition has_uid (u : nat) (t : node) : bool :=
  match t with
  | Tag v _ _ _ => Nat.eqb u v
  | _ => false
  end.

(** The identities of the tags of a tree, in document order. *)
Fixpoint uids (t : node) : list nat :=
  match t with
  | Tag u _ _ ks => u :: flat_map uids ks
  | _ => []
  end.

(** An identity that no tag of the tree has, for [soup.new_tag]. *)
Definition fresh (t : node) : nat := S (list_max (uids t)).

Fixpoint first_some {A B} (f : A -> option B) (l : list A) : option B :=
  match l with
  | [] => None
  | x :: r =>
      match f x with
      | Some y => Some y
      | None => first_some f r
      end
  end.

(** *** Changing the tree in place *)

(** The object with identity [u] is replaced by [f] of it. *)
Fixpoint modify (u : nat) (f : node -> node) (t : node) : node :=
  match t with
  | Tag v n a ks =>
      if Nat.eqb u v then f t else Tag v n a (map (modify u f) ks)
  | _ => t
  end.

(** [tag.append(x)]. *)
Definition append_child (x : node) (t : node) : node :=
  match t with
  | Tag v n a ks => Tag v n a (ks ++ [x])
  | _ => t
  end.

(** Rewriting the attributes of every tag. *)
Fixpoint map_attrs (f : string -> attrs -> attrs) (t : node) : node :=
  match t with
  | Tag v n a ks => Tag v n (f n a) (map (map_attrs f) ks)
  | _ => t
  end.

(** The tag [u] with its name, and its ancestors from the parent up to
    the root, each with its name ([tag.parents]). *)
Fixpoint locate (u : nat) (t : node) : option (string * list (nat * string)) :=
  match t with
  | Tag v n _ ks =>
      if Nat.eqb u v then Some (n, [])
      else
        match first_some (locate u) ks with
        | Some (nm, up) => Some (nm, up ++ [(v, n)])
        | None => None
        end
  | _ => None
  end.

(** The subtree at the tag [u]. *)
Fixpoint subtree (u : nat) (t : node) : option node :=
  match t with
  | Tag v _ _ ks => if Nat.eqb u v then Some t else first_some (subtree u) ks
  | _ => None
  end.

(** [tag.extract()]: what is left of the tree without the tag [u]. *)
Fixpoint remove (u : nat) (t : node) : node :=
  match t with
  | Tag v n a ks =>
      Tag v n a (flat_map (fun k => if has_uid u k then [] else [remove u k]) ks)
  | _ => t
  end.

(** [target.insert_after(x)] for a target that has a parent. *)
Fixpoint insert_after (target : nat) (x : node) (t : node) : node :=
  match t with
  | Tag v n a ks =>
      Tag v n a (flat_map (fun k => if has_uid target k then [k; x]
                                    else [insert_after target x k]) ks)
  | _ => t
  end.

End Dom.

(** ** Entity and structure fixer, quiz normalizer: the tree part *)

Module Fixer.
Import Text Dom.
Local Open Scope string_scope.
Local Open Scope list_scope.

Definition of_chars (s : str) : string := string_of_list_ascii s.

(** [name in {'ul', 'ol', 'li'}]. *)
Definition is_list_name (n : string) : bool :=
  String.eqb n "ul" || String.eqb n "ol" || String.eqb n "li".

(** Step 3: the namespace declarations of the first [html] tag. *)
Definition declare_namespaces (h : node) : node :=
  match h with
  | Tag v n a ks =>
      let a1 := if has_attr "xmlns" a then a
                else set_attr "xmlns" (AttrStr "http://www.w3.org/1999/xhtml") a in
      let a2 := if has_attr "xmlns:epub" a1 then a1
                else set_attr "xmlns:epub" (AttrStr "http://www.idpf.org/2007/ops") a1 in
      Tag v n a2 ks
  | _ => h
  end.

Definition ensure_namespaces (t : node) : node :=
  match find (is_tag "html") t with
  | Some (Tag u _ _ _) => modify u declare_namespaces t
  | _ => t
  end.

(** Step 4.  [climb] is the loop
    [while target.name in {...} and target.parent: target = target.parent];
    it returns the target with its own ancestors. *)
Fixpoint climb (target : nat) (name : string) (up : list (nat * string))
    : nat * list (nat * string) :=
  match up with
  | [] => (target, [])
  | (q, qn) :: up' =>
      if is_list_name name then climb q qn up' else (target, up)
  end.

(** One turn of the loop over the [hr] tags.  [None] is the
    [ValueError] of [insert_after] for a target without parent. *)
Definition relocate (hr : nat) (t : node) : option node :=
  match locate hr t with
  | Some (_, (p, pname) :: _) =>
      if is_list_name pname then
        match subtree hr t with
        | Some x =>
            let t1 := remove hr t in
            match locate p t1 with
            | Some (_, up) =>
                match climb p pname up with
                | (target, _ :: _) => Some (insert_after target x t1)
                | (_, []) => None
                end
            | None => None
            end
        | None => Some t
        end
      else Some t
  | _ => Some t
  end.

Definition tag_uids (l : list node) : list nat :=
  flat_map (fun k => match uid_of k with Some u => [u] | None => [] end) l.

Definition relocate_all (t : node) : option node :=
  fold_left (fun acc hr => match acc with Some s => relocate hr s | None => None end)
            (tag_uids (find_all (is_tag "hr") t)) (Some t).

(** Step 5: [del tag['style']] on every tag that has the attribute. *)
Definition strip_styles (t : node) : node :=
  map_attrs (fun _ a => if has_attr "style" a then del_attr "style" a else a) t.

(** Step 6. *)
Definition styles_to_ensure : list string :=
  ["../styles/style.css"; "../styles/fonts.css"].

Definition is_link_with_href (t : node) : bool :=
  match t with
  | Tag _ n a _ => String.eqb n "link" && has_attr "href" a
  | _ => false
  end.

(** [[link.get('href') for link in head.find_all('link', href=True)]]. *)
Definition existing_hrefs (head : node) : list attr_value :=
  flat_map (fun k => match k with
                     | Tag _ _ a _ =>
                         match get_attr "href" a with Some v => [v] | None => [] end
                     | _ => []
                     end)
           (find_all is_link_with_href head).

Definition new_link (u : nat) (href : string) : node :=
  Tag u "link" [("rel", AttrStr "stylesheet"); ("href", AttrStr href)] [].

Definition ensure_links (t : node) : node :=
  match find (is_tag "head") t with
  | Some (Tag u _ _ _ as head) =>
      let existing := existing_hrefs head in
      fold_left (fun s href =>
                   if existsb (attr_value_eqb (AttrStr href)) existing then s
                   else modify u (append_child (new_link (fresh s) href)) s)
                styles_to_ensure t
  | _ => t
  end.

(** Step 7.  [PurePath(s).stem]: the last component of the path that
    is neither empty nor a single dot, cut at its last dot. *)
Fixpoint split_on (sep : ascii) (s : str) : list str :=
  match s with
  | [] => [[]]
  | c :: r =>
      if char_eqb c sep then [] :: split_on sep r
      else match split_on sep r with
           | part :: parts => (c :: part) :: parts
           | [] => [[c]]
           end
  end.

Definition path_name (s : str) : str :=
  last (filter (fun part => negb (match part with
                                  | [] => true
                                  | [c] => char_eqb c "."%char
                                  | _ => false
                                  end))
               (split_on "/"%char s)) [].

Definition path_stem (s : str) : str :=
  let name := path_name s in
  let i := rfind "."%char name in
  if ((0 <? i) && (i <? Z.of_nat (length name) - 1))%Z then slice_to i name else name.

(** [str.upper] on one code point; the capitals of U+00B5, U+00DF and
    U+00FF lie above U+00FF and are left as they are. *)
Definition upper_char (c : ascii) : ascii :=
  let n := nat_of_ascii c in
  if (((97 <=? n) && (n <=? 122)) ||
      ((224 <=? n) && (n <=? 254) && negb (n =? 247)))%nat
  then ascii_of_nat (n - 32) else c.

Definition capitalize (s : str) : str :=
  match s with
  | [] => []
  | c :: r => upper_char c :: lower r
  end.

Definition image_attrs (a : attrs) : attrs :=
  match get_attr "src" a with
  | Some (AttrStr src) =>
      let normalized_src := Filename.normalize_filename src in
      let a1 := if String.eqb normalized_src src then a
                else set_attr "src" (AttrStr normalized_src) a in
      let needs_alt :=
        match get_attr "alt" a1 with
        | None => true
        | Some v => attr_value_eqb v (AttrStr "")
        end in
      if needs_alt then
        let description :=
          capitalize (replace_char "-"%char " "%char (path_stem (lit normalized_src))) in
        set_attr "alt" (AttrStr ("Illustration: " ++ of_chars description)%string) a1
      else a1
  | _ => a
  end.

Definition fix_images (t : node) : node :=
  map_attrs (fun n a => if String.eqb n "img" then image_attrs a else a) t.

(** [fix_xhtml_file] between parsing and serialising. *)
Definition fix_xhtml_tree (t : node) : option node :=
  match relocate_all (ensure_namespaces t) with
  | Some s => Some (fix_images (ensure_links (strip_styles s)))
  | None => None
  end.

(** *** Quiz content normalizer *)

(** [class_='quiz-options']: one of the classes, or the whole value. *)
Definition has_class (cls : string) (a : attrs) : bool :=
  match get_attr "class" a with
  | Some (AttrList l) => existsb (String.eqb cls) l || String.eqb (String.concat " " l) cls
  | Some (AttrStr s) => String.eqb s cls
  | None => false
  end.

Definition is_quiz_options (t : node) : bool :=
  match t with
  | Tag _ n a _ => String.eqb n "ul" && has_class "quiz-options" a
  | _ => false
  end.

Definition decimal (n : nat) : string := NilEmpty.string_of_uint (Nat.to_uint n).

(** The new items for the labels [i], [i+1], ...: [n] of them, created
    one after the other. *)
Fixpoint placeholder_items (u i n : nat) : list node :=
  match n with
  | O => []
  | S n' =>
      Tag u "li" [] [NavigableString ("Placeholder option " ++ decimal i)%string]
      :: placeholder_items (S u) (S i) n'
  end.

(** [for i in range(count + 1, 5)]. *)
Definition placeholders (count u : nat) : list node :=
  placeholder_items u (count + 1) (4 - count).

Definition count_options (ks : list node) : nat :=
  length (filter (is_tag "li") ks).

Definition extend (new : list node) (t : node) : node :=
  match t with
  | Tag v n a ks => Tag v n a (ks ++ new)
  | _ => t
  end.

(** One turn of the loop over the quiz lists, on the tree and the
    [modified] flag. *)
Definition pad (st : node * bool) (ul : nat) : node * bool :=
  let (t, modified) := st in
  match subtree ul t with
  | Some x =>
      let count := count_options (children x) in
      if (count <? 4)%nat
      then (modify ul (extend (placeholders count (fresh t))) t, true)
      else st
  | None => st
  end.

Definition pad_all (t : node) : node * bool :=
  fold_left pad (tag_uids (find_all is_quiz_options t)) (t, false).

(** [populate_quiz_options]: the tree that is written back, [None]
    when nothing was modified and the file is left alone. *)
Definition populate_quiz_options (t : node) : option node :=
  let (t', modified) := pad_all t in
  if modified then Some t' else None.

(** [str.isspace] on one code point below 256. *)
Definition is_space (c : ascii) : bool :=
  let n := nat_of_ascii c in
  (((9 <=? n) && (n <=? 13)) || ((28 <=? n) && (n <=? 32))
   || (n =? 133) || (n =? 160))%nat.

Fixpoint lstrip (s : str) : str :=
  match s with
  | [] => []
  | c :: r => if is_space c then lstrip r else s
  end.

Definition strip (s : string) : string :=
  of_chars (rev (lstrip (rev (lstrip (lit s))))).

(** The strings below a node, in document order; comments are not
    part of the text. *)
Fixpoint strings (t : node) : list string :=
  match t with
  | Tag _ _ _ ks => flat_map strings ks
  | NavigableString s => [s]
  | Comment _ => []
  end.

(** [tag.get_text(strip=True)]: every string stripped, the empty ones
    dropped, the rest joined. *)
Definition get_text_strip (t : node) : string :=
  String.concat "" (filter (fun s => negb (String.eqb s "")) (map strip (strings t))).

Definition is_block (k : node) : bool := is_tag "p" k || is_tag "div" k.

(** The items of the answer list, created one after the other. *)
Fixpoint key_items (u : nat) (paragraphs : list node) : list node :=
  match paragraphs with
  | [] => []
  | para :: rest =>
      Tag u "li" [] [NavigableString (get_text_strip para)] :: key_items (S u) rest
  end.

Definition replace_blocks (ol : node) (body : node) : node :=
  match body with
  | Tag v n a ks => Tag v n a (filter (fun k => negb (is_block k)) ks ++ [ol])
  | _ => body
  end.

(** [restructure_quiz_key]: the tree that is written back, [None] when
    the function returns before writing. *)
Definition restructure_quiz_key (t : node) : option node :=
  match find (is_tag "body") t with
  | Some (Tag u _ _ ks) =>
      match filter is_block ks with
      | [] => None
      | paragraphs =>
          let ol := Tag (fresh t) "ol" [] (key_items (S (fresh t)) paragraphs) in
          Some (modify u (replace_blocks ol) t)
      end
  | _ => None
  end.

End Fixer.

(** ** File renamer *)

Module Renamer.
Import Text Filename Manifest Archive.
Local Open Scope string_scope.

(** The pattern ['*.xhtml'] of [rglob]: the name ends in [.xhtml]. *)
Definition is_xhtml (n : string) : bool := ends_with ".xhtml" n.

(** [Path.name] and [Path.with_name] of a relative path.  [with_name]
    raises for an empty name and for a name with a separator; the name
    it is given here is the normalized name of a listed file that
    matches ['*.xhtml'], which ends in [.xhtml]. *)
Definition name (p : path) : string := last p "".

Definition with_name (p : path) (n : string) : path := (removelast p ++ [n])%list.

(** [str(relative)]. *)
Definition as_posix (p : path) : string := String.concat "/" p.

(** [collect_xhtml_files]: the paths, relative to the root, of the
    regular files whose name matches the pattern.  [rglob] lists a
    directory before the directories below it; a rename stays inside
    one directory, so the order in which the directories are visited
    decides nothing but the order of the mapping. *)
Definition collect_xhtml_files (root : dir) : list path :=
  filter (fun p => is_xhtml (name p)) (map fst (walk (Dir root))).

(** Deleting the entry [n] of a directory. *)
Definition remove_entry (n : string) (d : dir) : dir :=
  filter (fun e => negb (String.eqb (fst e) n)) d.

(** [os.rename] inside one directory (POSIX): a regular file silently
    replaces a regular file that has the new name and cannot replace a
    directory; a directory replaces nothing but an empty directory.
    [None] stands for the [OSError]. *)
Definition rename_entry (old new : string) (d : dir) : option dir :=
  match lookup old d with
  | None => None
  | Some (File c) =>
      match lookup new d with
      | Some (Dir _) => None
      | _ => Some (store new (File c) (remove_entry old d))
      end
  | Some (Dir e) =>
      match lookup new d with
      | Some (File _) => None
      | Some (Dir (_ :: _)) => None
      | _ => Some (store new (Dir e) (remove_entry old d))
      end
  end.

(** [file_path.rename(file_path.with_name(new))] for the file at the
    relative path [p]. *)
Fixpoint rename (p : path) (new : string) (d : dir) : option dir :=
  match p with
  | [] => None
  | n :: q =>
      match q with
      | [] => rename_entry n new d
      | _ :: _ =>
          match lookup n d with
          | Some (Dir e) =>
              match rename q new e with
              | Some e' => Some (store n (Dir e') d)
              | None => None
              end
          | _ => None
          end
      end
  end.

(** The dictionary [mapping], in insertion order. *)
Definition mapping := list (string * string).

(** [mapping[k] = v]. *)
Fixpoint set_item (k v : string) (m : mapping) : mapping :=
  match m with
  | [] => [(k, v)]
  | (k', v') :: rest =>
      if String.eqb k' k then (k', v) :: rest else (k', v') :: set_item k v rest
  end.

(** One turn of the loop of [rename_files], on the directory as the
    turns before have left it. *)
Definition rename_step (st : option (dir * mapping)) (relative : path)
    : option (dir * mapping) :=
  match st with
  | None => None
  | Some (root, m) =>
      let new_name := normalize_filename (name relative) in
      if String.eqb new_name (name relative) then Some (root, m)
      else
        match rename relative new_name root with
        | Some root' =>
            Some (root',
                  set_item (as_posix relative)
                           (as_posix (with_name relative new_name)) m)
        | None => None
        end
  end.

(** [rename_files]: the project directory after the renames and the
    mapping that is returned; [None] when a rename raises.  The list of
    files is collected before the first rename. *)
Definition rename_files (root : dir) : option (dir * mapping) :=
  fold_left rename_step (collect_xhtml_files root) (Some (root, [])).

End Renamer.


(** ** TOC updater *)

Module Toc.
Import Dom Fixer Renamer.
Local Open Scope string_scope.

(** [mapping[key]], [None] when [key] is not in the mapping. *)
Fixpoint mapping_get (key : string) (m : mapping) : option string :=
  match m with
  | [] => None
  | (k, v) :: rest => if String.eqb k key then Some v else mapping_get key rest
  end.

(** [soup.find_all('a', href=True)]. *)
Definition is_anchor (t : node) : bool :=
  match t with
  | Tag _ n a _ => String.eqb n "a" && has_attr "href" a
  | _ => false
  end.

(** [a['href'] = new]. *)
Definition set_href (new : string) (t : node) : node :=
  match t with
  | Tag u n a ks => Tag u n (set_attr "href" (AttrStr new) a) ks
  | _ => t
  end.

(** One turn of the loop over the anchors, on the tree and the
    [modified] flag.  [None] stands for an exception: [a['href']]
    raises [KeyError] without the attribute, and [href in mapping]
    raises [TypeError] for a list, which cannot be hashed. *)
Definition retarget (m : mapping) (st : option (node * bool)) (a : nat)
    : option (node * bool) :=
  match st with
  | None => None
  | Some (t, modified) =>
      match subtree a t with
      | Some (Tag _ _ attrs _) =>
          match get_attr "href" attrs with
          | Some (AttrStr href) =>
              match mapping_get href m with
              | Some new => Some (modify a (set_href new) t, true)
              | None => Some (t, modified)
              end
          | _ => None
          end
      | _ => Some (t, modified)
      end
  end.

(** [update_toc] between parsing and writing: [Some (Some t')] when
    the tree [t'] is written back, [Some None] when nothing was
    modified and the file is left alone, [None] for an exception. *)
Definition update_toc (m : mapping) (t : node) : option (option node) :=
  match fold_left (retarget m) (tag_uids (find_all is_anchor t)) (Some (t, false)) with
  | Some (t', modified) => Some (if modified then Some t' else None)
  | None => None
  end.

End Toc.


(** *** Properties of the text primitives *)

Module TextFacts.
Import Text.

Lemma char_eqb_eq a b : char_eqb a b = true <-> a = b.
Proof. unfold char_eqb. apply Ascii.eqb_eq. Qed.

Lemma char_eqb_refl a : char_eqb a a = true.
Proof. apply char_eqb_eq. reflexivity. Qed.

Lemma char_eqb_neq a b : char_eqb a b = false <-> a <> b.
Proof. unfold char_eqb. apply Ascii.eqb_neq. Qed.

Ltac all_chars c :=
  destruct c as [[] [] [] [] [] [] [] []]; vm_compute; try reflexivity; try congruence.

Lemma lower_char_idem c : lower_char (lower_char c) = lower_char c.
Proof. all_chars c. Qed.

Lemma lower_char_dot c : lower_char c = "."%char <-> c = "."%char.
Proof. split; intros H; [ revert H; all_chars c | subst; reflexivity ]. Qed.

Lemma lower_char_slash c : lower_char c = "/"%char <-> c = "/"%char.
Proof. split; intros H; [ revert H; all_chars c | subst; reflexivity ]. Qed.

Lemma lower_char_space c : lower_char c = " "%char <-> c = " "%char.
Proof. split; intros H; [ revert H; all_chars c | subst; reflexivity ]. Qed.

Lemma lower_idem s : lower (lower s) = lower s.
Proof.
  unfold lower. rewrite map_map. apply map_ext. intros c. apply lower_char_idem.
Qed.

Lemma rfind_from_absent c s : forall i last,
  ~ In c s -> rfind_from c s i last = last.
Proof.
  induction s as [|x r IH]; intros i last H; simpl; [reflexivity|].
  destruct (char_eqb x c) eqn:E.
  - apply char_eqb_eq in E. subst. exfalso. apply H. left. reflexivity.
  - apply IH. intros K. apply H. right. exact K.
Qed.

Lemma rfind_from_last c a b : forall i last,
  ~ In c b ->
  rfind_from c (a ++ c :: b) i last = (i + Z.of_nat (length a))%Z.
Proof.
  induction a as [|x a IH]; intros i last H; simpl.
  - rewrite char_eqb_refl. rewrite rfind_from_absent by exact H. lia.
  - rewrite IH by exact H. lia.
Qed.

Lemma last_occurrence (c : ascii) (s : str) :
  ~ In c s \/ exists a b, s = a ++ c :: b /\ ~ In c b.
Proof.
  induction s as [|x r IH].
  - left. intros [].
  - destruct IH as [IH | (a & b & E & Hb)].
    + destruct (char_eqb x c) eqn:Ex.
      * apply char_eqb_eq in Ex. subst x. right. exists [], r. split; [reflexivity | exact IH].
      * apply char_eqb_neq in Ex. left. intros [K | K]; [ congruence | exact (IH K) ].
    + right. exists (x :: a), b. split; [ simpl; rewrite E; reflexivity | exact Hb ].
Qed.

Lemma rfind_absent c s : ~ In c s -> rfind c s = (-1)%Z.
Proof. intros H. unfold rfind. apply rfind_from_absent. exact H. Qed.

Lemma rfind_last c a b : ~ In c b -> rfind c (a ++ c :: b) = Z.of_nat (length a).
Proof. intros H. unfold rfind. rewrite rfind_from_last by exact H. lia. Qed.

End TextFacts.

(** *** Properties of the Filename Normalizer *)

Module FilenameFacts.
Import Text TextFacts Filename.

Definition is_dot (c : ascii) : bool := char_eqb c "."%char.
Definition is_slash (c : ascii) : bool := char_eqb c "/"%char.

(** A character that is neither the extension separator nor the path
    separator. *)
Definition neutral (c : ascii) : bool := negb (is_dot c) && negb (is_slash c).

(** The pattern [final$] matches somewhere in [s]. *)
Fixpoint has_final (s : str) : bool :=
  match match_final s with
  | Some _ => true
  | None => match s with [] => false | _ :: t => has_final t end
  end.

(** The last path component of [stem] has a character other than a dot. *)
Definition has_name_char (stem : str) : bool :=
  existsb (fun c => negb (char_eqb c "."%char))
          (slice_from (rfind "/"%char stem + 1) stem).

(** What lowercasing followed by the space replacement does to one
    character. *)
Definition norm_char (c : ascii) : ascii :=
  if char_eqb (lower_char c) " "%char then "-"%char else lower_char c.

(** [del s s']: [s'] is [s] with some neutral characters deleted. *)
Inductive del : str -> str -> Prop :=
| del_nil : del [] []
| del_keep c s s' : del s s' -> del (c :: s) (c :: s')
| del_drop c s s' : neutral c = true -> del s s' -> del (c :: s) s'.

Fixpoint no_double (s : str) : bool :=
  match s with
  | c :: t =>
      match t with
      | d :: _ => negb (char_eqb c "-"%char && char_eqb d "-"%char) && no_double t
      | [] => true
      end
  | [] => true
  end.

Lemma norm_char_idem c : norm_char (norm_char c) = norm_char c.
Proof. all_chars c. Qed.

Lemma norm_char_dot c : norm_char c = "."%char <-> c = "."%char.
Proof. split; intros H; [ revert H; all_chars c | subst; reflexivity ]. Qed.

Lemma norm_char_slash c : norm_char c = "/"%char <-> c = "/"%char.
Proof. split; intros H; [ revert H; all_chars c | subst; reflexivity ]. Qed.

Lemma replace_lower s : replace_char " "%char "-"%char (lower s) = map norm_char s.
Proof.
  unfold replace_char, lower. rewrite map_map. reflexivity.
Qed.

Lemma del_refl s : del s s.
Proof. induction s; constructor; assumption. Qed.

Lemma del_trans a b c : del a b -> del b c -> del a c.
Proof.
  intros H. revert c. induction H; intros c0 K.
  - exact K.
  - inversion K; subst.
    + constructor. apply IHdel. assumption.
    + apply del_drop; [assumption | apply IHdel; assumption].
  - apply del_drop; [assumption | apply IHdel; assumption].
Qed.

Lemma del_incl s s' : del s s' -> incl s' s.
Proof.
  induction 1; intros x Hx.
  - exact Hx.
  - destruct Hx as [Hx | Hx]; [left; exact Hx | right; apply IHdel; exact Hx].
  - right. apply IHdel. exact Hx.
Qed.

Lemma del_all s : forallb neutral s = true -> del s [].
Proof.
  induction s as [|c s IH]; simpl; intros H; [constructor|].
  apply andb_true_iff in H. destruct H as [H1 H2].
  apply del_drop; [exact H1 | apply IH; exact H2].
Qed.

Lemma starts_with_app p s : starts_with p s = true -> s = p ++ skipn (length p) s.
Proof.
  revert s. induction p as [|a p IH]; intros s H; simpl in *; [reflexivity|].
  destruct s as [|b s]; [discriminate|].
  apply andb_true_iff in H. destruct H as [H1 H2].
  apply char_eqb_eq in H1. subst. simpl. f_equal. apply IH. exact H2.
Qed.

Lemma match_final_del s r : match_final s = Some r -> del s r.
Proof.
  unfold match_final. destruct (starts_with (lit "final") s) eqn:E; [|discriminate].
  destruct (at_dollar (skipn 5 s)); [|discriminate].
  intros H. injection H as <-.
  apply starts_with_app in E. simpl in E. rewrite E at 1.
  repeat (apply del_drop; [reflexivity|]). apply del_refl.
Qed.

Lemma match_sep_final_del s r : match_sep_final s = Some r -> del s r.
Proof.
  destruct s as [|c t]; simpl.
  - apply match_final_del.
  - destruct (char_eqb c "-"%char || char_eqb c "_"%char) eqn:E.
    + destruct (match_final t) as [r'|] eqn:M.
      * intros H. injection H as <-. apply del_drop.
        -- apply orb_true_iff in E. destruct E as [E|E]; apply char_eqb_eq in E; subst; reflexivity.
        -- apply match_final_del. exact M.
      * apply match_final_del.
    + apply match_final_del.
Qed.

Lemma strip_final_del s : del s (strip_final s).
Proof.
  induction s as [|c t IH].
  - simpl. constructor.
  - change (strip_final (c :: t)) with
      (match match_sep_final (c :: t) with Some r => r | None => c :: strip_final t end).
    destruct (match_sep_final (c :: t)) as [r|] eqn:M.
    + apply match_sep_final_del. exact M.
    + constructor. exact IH.
Qed.

Lemma collapse_hyphens_del s : del s (collapse_hyphens s).
Proof.
  induction s as [|c t IH]; [constructor|].
  destruct t as [|d t'].
  - simpl. apply del_refl.
  - change (collapse_hyphens (c :: d :: t')) with
      (if char_eqb c "-"%char && char_eqb d "-"%char
       then collapse_hyphens (d :: t') else c :: collapse_hyphens (d :: t')).
    destruct (char_eqb c "-"%char && char_eqb d "-"%char) eqn:E.
    + apply del_drop; [|exact IH].
      apply andb_true_iff in E. destruct E as [E _]. apply char_eqb_eq in E. subst. reflexivity.
    + constructor. exact IH.
Qed.

Lemma rstrip_del s : del s (rstrip "-"%char s).
Proof.
  induction s as [|c t IH]; [constructor|].
  simpl. destruct (rstrip "-"%char t) as [|y r'] eqn:R.
  - destruct (char_eqb c "-"%char) eqn:E.
    + apply char_eqb_eq in E. subst. apply del_drop; [reflexivity | exact IH].
    + constructor. exact IH.
  - constructor. exact IH.
Qed.

Lemma normalize_stem_del s : del (map norm_char s) (normalize_stem s).
Proof.
  unfold normalize_stem. rewrite replace_lower.
  eapply del_trans; [apply strip_final_del|].
  eapply del_trans; [apply collapse_hyphens_del | apply rstrip_del].
Qed.

Lemma has_final_head s : has_final s = false -> match_final s = None.
Proof.
  destruct s as [|c t]; simpl; [reflexivity|].
  destruct (match_final (c :: t)); [discriminate | reflexivity].
Qed.

Lemma strip_final_fix s : has_final s = false -> strip_final s = s.
Proof.
  induction s as [|c t IH]; intros H; [reflexivity|].
  pose proof (has_final_head _ H) as Hc.
  assert (Ht : has_final t = false).
  { simpl in H. rewrite Hc in H. exact H. }
  pose proof (has_final_head _ Ht) as Hm.
  change (strip_final (c :: t)) with
    (match match_sep_final (c :: t) with Some r => r | None => c :: strip_final t end).
  assert (M : match_sep_final (c :: t) = None).
  { simpl. rewrite Hm, Hc. destruct (char_eqb c "-"%char || char_eqb c "_"%char); reflexivity. }
  rewrite M. f_equal. apply IH. exact Ht.
Qed.

Lemma collapse_hyphens_cons c d t :
  collapse_hyphens (c :: d :: t) =
  if char_eqb c "-"%char && char_eqb d "-"%char
  then collapse_hyphens (d :: t) else c :: collapse_hyphens (d :: t).
Proof. reflexivity. Qed.

Lemma collapse_hyphens_head t : forall d, exists r, collapse_hyphens (d :: t) = d :: r.
Proof.
  induction t as [|e t IH]; intros d.
  - exists []. reflexivity.
  - rewrite collapse_hyphens_cons.
    destruct (char_eqb d "-"%char && char_eqb e "-"%char) eqn:E.
    + apply andb_true_iff in E. destruct E as [E1 E2].
      apply char_eqb_eq in E1. apply char_eqb_eq in E2. subst.
      apply IH.
    + eexists. reflexivity.
Qed.

Lemma collapse_no_double s : no_double (collapse_hyphens s) = true.
Proof.
  induction s as [|c t IH]; [reflexivity|].
  destruct t as [|d t']; [reflexivity|].
  rewrite collapse_hyphens_cons.
  destruct (char_eqb c "-"%char && char_eqb d "-"%char) eqn:E; [exact IH|].
  destruct (collapse_hyphens_head t' d) as [r Hr].
  rewrite Hr in *. simpl. simpl in IH. rewrite E. simpl. exact IH.
Qed.

Lemma collapse_fix s : no_double s = true -> collapse_hyphens s = s.
Proof.
  induction s as [|c t IH]; intros H; [reflexivity|].
  destruct t as [|d t']; [reflexivity|].
  rewrite collapse_hyphens_cons.
  simpl in H. apply andb_true_iff in H. destruct H as [H1 H2].
  apply negb_true_iff in H1. rewrite H1. f_equal. apply IH. exact H2.
Qed.

Lemma no_double_del_end s : no_double s = true -> no_double (rstrip "-"%char s) = true.
Proof.
  induction s as [|c t IH]; intros H; [reflexivity|].
  simpl. destruct (rstrip "-"%char t) as [|y r] eqn:R.
  - destruct (char_eqb c "-"%char); reflexivity.
  - destruct t as [|d t']; [discriminate|].
    simpl in H. apply andb_true_iff in H. destruct H as [H1 H2].
    specialize (IH H2).
    assert (y = d) as ->.
    { simpl in R. destruct (rstrip "-"%char t').
      - destruct (char_eqb d "-"%char); [discriminate | congruence].
      - congruence. }
    simpl. rewrite H1. exact IH.
Qed.

Lemma rstrip_idem c s : rstrip c (rstrip c s) = rstrip c s.
Proof.
  induction s as [|x t IH]; [reflexivity|].
  simpl. destruct (rstrip c t) as [|y r] eqn:R.
  - destruct (char_eqb x c) eqn:E; [reflexivity|].
    simpl. rewrite E. reflexivity.
  - change (rstrip c (x :: y :: r)) with
      (match rstrip c (y :: r) with [] => if char_eqb x c then [] else [x] | r' => x :: r' end).
    rewrite IH. reflexivity.
Qed.

Lemma map_norm_fix s s' : incl s' (map norm_char s) -> map norm_char s' = s'.
Proof.
  intros H. rewrite <- (map_id s') at 2. apply map_ext_in.
  intros c Hc. apply H in Hc. apply in_map_iff in Hc.
  destruct Hc as (x & <- & _). apply norm_char_idem.
Qed.

(** The stem transformation is stable once no [final] token is left. *)
Lemma normalize_stem_idem s :
  has_final (normalize_stem s) = false ->
  normalize_stem (normalize_stem s) = normalize_stem s.
Proof.
  intros H.
  assert (M : map norm_char (normalize_stem s) = normalize_stem s).
  { apply (map_norm_fix s). apply del_incl. apply normalize_stem_del. }
  unfold normalize_stem at 1. rewrite replace_lower, M.
  rewrite (strip_final_fix _ H).
  assert (N : no_double (normalize_stem s) = true).
  { unfold normalize_stem. apply no_double_del_end. apply collapse_no_double. }
  rewrite (collapse_fix _ N).
  unfold normalize_stem. apply rstrip_idem.
Qed.


(** [splitsb s]: some neutral character of the last path component is
    followed by a dot, which is when [splitext] finds an extension. *)
Fixpoint splitsb (s : str) : bool :=
  match s with
  | [] => false
  | c :: v => (neutral c && negb (existsb is_slash v) && existsb is_dot v) || splitsb v
  end.

Lemma rfind_bounds c s : (-1 <= rfind c s < Z.of_nat (length s))%Z.
Proof.
  destruct (last_occurrence c s) as [H | (a & b & -> & H)].
  - rewrite rfind_absent by exact H. lia.
  - rewrite rfind_last by exact H. rewrite length_app. simpl. lia.
Qed.

Lemma rfind_app_absent c s t : ~ In c t -> rfind c (s ++ t) = rfind c s.
Proof.
  intros Ht. destruct (last_occurrence c s) as [H | (a & b & -> & H)].
  - rewrite !rfind_absent; [reflexivity | exact H |].
    intros K. apply in_app_or in K. tauto.
  - rewrite <- app_assoc. simpl. rewrite !rfind_last; [reflexivity | exact H |].
    intros K. apply in_app_or in K. tauto.
Qed.

Lemma skipn_succ_app (a : str) c b : skipn (S (length a)) (a ++ c :: b) = b.
Proof. induction a; simpl; [reflexivity | exact IHa]. Qed.

Lemma last_comp_absent s : ~ In "/"%char s -> slice_from (rfind "/"%char s + 1) s = s.
Proof. intros H. rewrite rfind_absent by exact H. reflexivity. Qed.

Lemma last_comp_last a b :
  ~ In "/"%char b ->
  slice_from (rfind "/"%char (a ++ "/"%char :: b) + 1) (a ++ "/"%char :: b) = b.
Proof.
  intros H. rewrite rfind_last by exact H. unfold slice_from.
  replace (Z.to_nat (Z.of_nat (length a) + 1)) with (S (length a)) by lia.
  apply skipn_succ_app.
Qed.

Lemma not_in_existsb (c : ascii) (s : str) :
  ~ In c s <-> existsb (fun x => char_eqb x c) s = false.
Proof.
  induction s as [|x s IH]; simpl.
  - split; [reflexivity | intros _ []].
  - rewrite orb_false_iff, <- IH, char_eqb_neq. intuition congruence.
Qed.

(** Joining a stem that has a name character with a clean extension
    splits back into the two parts. *)
Lemma splitext_join stem e :
  ~ In "."%char e -> ~ In "/"%char e -> has_name_char stem = true ->
  splitext (stem ++ "."%char :: e) = (stem, "."%char :: e).
Proof.
  intros Hd Hs Hn. unfold splitext.
  rewrite (rfind_last "."%char stem e Hd).
  assert (Hse : ~ In "/"%char ("."%char :: e)).
  { intros [K | K]; [discriminate | exact (Hs K)]. }
  rewrite (rfind_app_absent "/"%char stem _ Hse).
  pose proof (rfind_bounds "/"%char stem) as B.
  destruct (Z.ltb_spec (rfind "/"%char stem) (Z.of_nat (length stem))) as [_ | K]; [|lia].
  unfold slice_to, slice_from.
  set (k := Z.to_nat (rfind "/"%char stem + 1)).
  assert (Hk : k <= length stem) by (unfold k; lia).
  replace (Z.to_nat (Z.of_nat (length stem) - (rfind "/"%char stem + 1)))
    with (length stem - k) by (unfold k; lia).
  rewrite skipn_app. replace (k - length stem) with 0 by lia. simpl skipn.
  rewrite firstn_app. rewrite length_skipn.
  replace (length stem - k - (length stem - k)) with 0 by lia. simpl firstn.
  rewrite app_nil_r. rewrite firstn_all2 by (rewrite length_skipn; lia).
  unfold has_name_char, slice_from in Hn. fold k in Hn. rewrite Hn.
  rewrite Nat2Z.id. rewrite firstn_app, Nat.sub_diag. simpl firstn.
  rewrite firstn_all, app_nil_r.
  rewrite skipn_app, Nat.sub_diag, skipn_all. reflexivity.
Qed.

(** The two possible outcomes of [splitext]. *)
Lemma splitext_cases p :
  splitext p = (p, []) \/
  exists stem e, p = stem ++ "."%char :: e /\ ~ In "."%char e /\ ~ In "/"%char e /\
                 has_name_char stem = true /\ splitext p = (stem, "."%char :: e).
Proof.
  destruct (last_occurrence "."%char p) as [Hd | (a & e & -> & Hd)].
  - left. unfold splitext. rewrite (rfind_absent _ _ Hd).
    pose proof (rfind_bounds "/"%char p).
    destruct (Z.ltb_spec (rfind "/"%char p) (-1)); [lia | reflexivity].
  - destruct (last_occurrence "/"%char e) as [Hs | (e1 & e2 & -> & Hs)].
    + destruct (has_name_char a) eqn:Hn.
      * right. exists a, e. repeat split; try assumption.
        apply splitext_join; assumption.
      * left. unfold splitext.
        rewrite (rfind_last "."%char a e Hd).
        assert (Hse : ~ In "/"%char ("."%char :: e)).
        { intros [K | K]; [discriminate | exact (Hs K)]. }
        rewrite (rfind_app_absent "/"%char a _ Hse).
        pose proof (rfind_bounds "/"%char a) as B.
        destruct (Z.ltb_spec (rfind "/"%char a) (Z.of_nat (length a))) as [_ | K]; [|lia].
        unfold slice_to, slice_from.
        set (k := Z.to_nat (rfind "/"%char a + 1)).
        assert (Hk : k <= length a) by (unfold k; lia).
        replace (Z.to_nat (Z.of_nat (length a) - (rfind "/"%char a + 1)))
          with (length a - k) by (unfold k; lia).
        rewrite skipn_app. replace (k - length a) with 0 by lia. simpl skipn.
        rewrite firstn_app. rewrite length_skipn.
        replace (length a - k - (length a - k)) with 0 by lia. simpl firstn.
        rewrite app_nil_r. rewrite firstn_all2 by (rewrite length_skipn; lia).
        unfold has_name_char, slice_from in Hn. fold k in Hn. rewrite Hn.
        reflexivity.
    + left. unfold splitext.
      rewrite (rfind_last "."%char a _ Hd).
      replace (a ++ "."%char :: e1 ++ "/"%char :: e2)
        with ((a ++ "."%char :: e1) ++ "/"%char :: e2)
        by (rewrite <- app_assoc; reflexivity).
      rewrite (rfind_last "/"%char _ e2 Hs).
      rewrite length_app. simpl length.
      destruct (Z.ltb_spec (Z.of_nat (length a + S (length e1))) (Z.of_nat (length a)));
        [lia | reflexivity].
Qed.


Lemma no_slash_iff (s : str) : existsb is_slash s = false <-> ~ In "/"%char s.
Proof. symmetry. apply (not_in_existsb "/"%char s). Qed.

Lemma has_dot_iff (s : str) : existsb is_dot s = true <-> In "."%char s.
Proof.
  pose proof (not_in_existsb "."%char s) as H.
  change (~ In "."%char s <-> existsb is_dot s = false) in H.
  destruct (existsb is_dot s).
  - split; [intros _ | reflexivity].
    destruct (in_dec ascii_dec "."%char s) as [K | K]; [exact K|].
    apply H in K. discriminate.
  - split; [discriminate|]. intros K. exfalso. apply H; [reflexivity | exact K].
Qed.

Lemma splitsb_intro u c v :
  neutral c = true -> ~ In "/"%char v -> In "."%char v -> splitsb (u ++ c :: v) = true.
Proof.
  intros Hc Hs Hd. induction u as [|x u IH]; simpl.
  - apply no_slash_iff in Hs. apply has_dot_iff in Hd. rewrite Hc, Hs, Hd. reflexivity.
  - rewrite IH. apply orb_true_r.
Qed.

Lemma splitsb_elim s :
  splitsb s = true ->
  exists u c v, s = u ++ c :: v /\ neutral c = true /\ ~ In "/"%char v /\ In "."%char v.
Proof.
  induction s as [|x s IH]; simpl; [discriminate|].
  intros H. apply orb_true_iff in H. destruct H as [H | H].
  - apply andb_true_iff in H. destruct H as [H Hd].
    apply andb_true_iff in H. destruct H as [Hc Hs].
    exists [], x, s. repeat split.
    + exact Hc.
    + apply no_slash_iff. apply negb_true_iff. exact Hs.
    + apply has_dot_iff. exact Hd.
  - destruct (IH H) as (u & c & v & -> & K).
    exists (x :: u), c, v. split; [reflexivity | exact K].
Qed.

Lemma nondot_in_comp (b : str) :
  existsb (fun c => negb (char_eqb c "."%char)) b = true ->
  exists b1 c b2, b = b1 ++ c :: b2 /\ c <> "."%char.
Proof.
  intros H. apply existsb_exists in H. destruct H as (c & Hin & Hc).
  apply in_split in Hin. destruct Hin as (b1 & b2 & ->).
  exists b1, c, b2. split; [reflexivity|].
  apply negb_true_iff in Hc. apply char_eqb_neq in Hc. exact Hc.
Qed.

Lemma neutral_intro c : c <> "."%char -> c <> "/"%char -> neutral c = true.
Proof.
  intros H1 H2. unfold neutral, is_dot, is_slash.
  apply char_eqb_neq in H1. apply char_eqb_neq in H2. rewrite H1, H2. reflexivity.
Qed.

Lemma splitsb_of_parts stem e :
  ~ In "/"%char e -> has_name_char stem = true ->
  splitsb (stem ++ "."%char :: e) = true.
Proof.
  intros Hs Hn. unfold has_name_char in Hn.
  destruct (last_occurrence "/"%char stem) as [H | (a & b & -> & H)].
  - rewrite last_comp_absent in Hn by exact H.
    destruct (nondot_in_comp _ Hn) as (b1 & c & b2 & -> & Hc).
    rewrite <- app_assoc. simpl. apply splitsb_intro.
    + apply neutral_intro; [exact Hc|]. intros ->. apply H. apply in_or_app. right. left. reflexivity.
    + intros K. apply in_app_or in K. destruct K as [K | [K | K]].
      * apply H. apply in_or_app. right. right. exact K.
      * discriminate.
      * exact (Hs K).
    + apply in_or_app. right. left. reflexivity.
  - rewrite last_comp_last in Hn by exact H.
    destruct (nondot_in_comp _ Hn) as (b1 & c & b2 & -> & Hc).
    replace ((a ++ "/"%char :: b1 ++ c :: b2) ++ "."%char :: e)
      with ((a ++ "/"%char :: b1) ++ c :: (b2 ++ "."%char :: e))
      by (repeat (rewrite <- app_assoc; simpl); reflexivity).
    apply splitsb_intro.
    + apply neutral_intro; [exact Hc|]. intros ->. apply H. apply in_or_app. right. left. reflexivity.
    + intros K. apply in_app_or in K. destruct K as [K | [K | K]].
      * apply H. apply in_or_app. right. right. exact K.
      * discriminate.
      * exact (Hs K).
    + apply in_or_app. right. left. reflexivity.
Qed.

Lemma parts_of_splitsb p :
  splitsb p = true ->
  exists stem e, p = stem ++ "."%char :: e /\ ~ In "."%char e /\ ~ In "/"%char e /\
                 has_name_char stem = true.
Proof.
  intros H. destruct (splitsb_elim _ H) as (u & c & v & -> & Hc & Hs & Hd).
  destruct (last_occurrence "."%char v) as [K | (v1 & e & -> & He)]; [contradiction|].
  exists (u ++ c :: v1), e.
  assert (Hv1 : ~ In "/"%char (c :: v1)).
  { intros [K | K].
    - subst c. discriminate.
    - apply Hs. apply in_or_app. left. exact K. }
  repeat split.
  - rewrite <- app_assoc. reflexivity.
  - exact He.
  - intros K. apply Hs. apply in_or_app. right. right. exact K.
  - unfold has_name_char.
    assert (Hdot : negb (char_eqb c "."%char) = true).
    { unfold neutral, is_dot in Hc. apply andb_true_iff in Hc. tauto. }
    destruct (last_occurrence "/"%char u) as [Hu | (a & b0 & -> & Hb)].
    + rewrite last_comp_absent.
      * apply existsb_exists. exists c. split; [|exact Hdot].
        apply in_or_app. right. left. reflexivity.
      * intros K. apply in_app_or in K. tauto.
    + rewrite <- app_assoc. simpl. rewrite last_comp_last.
      * apply existsb_exists. exists c. split; [|exact Hdot].
        apply in_or_app. right. left. reflexivity.
      * intros K. apply in_app_or in K. tauto.
Qed.

(** [splitext] finds no extension exactly when [splitsb] is false. *)
Lemma splitext_none_iff p : splitext p = (p, []) <-> splitsb p = false.
Proof.
  split.
  - intros H. destruct (splitsb p) eqn:E; [|reflexivity].
    destruct (parts_of_splitsb _ E) as (stem & e & -> & Hd & Hs & Hn).
    rewrite (splitext_join _ _ Hd Hs Hn) in H. discriminate.
  - intros H. destruct (splitext_cases p) as [K | (stem & e & -> & Hd & Hs & Hn & _)];
      [exact K|].
    rewrite (splitsb_of_parts _ _ Hs Hn) in H. discriminate.
Qed.

Lemma del_keeps s s' x : del s s' -> neutral x = false -> In x s -> In x s'.
Proof.
  intros H Hx. induction H; intros K.
  - exact K.
  - destruct K as [K | K]; [left; exact K | right; apply IHdel; exact K].
  - destruct K as [K | K]; [subst; congruence | apply IHdel; exact K].
Qed.

Lemma splitsb_del s s' : del s s' -> splitsb s' = true -> splitsb s = true.
Proof.
  induction 1; intros K.
  - exact K.
  - simpl in *. apply orb_true_iff in K. destruct K as [K | K].
    + apply andb_true_iff in K. destruct K as [K Hd].
      apply andb_true_iff in K. destruct K as [Hc Hs].
      apply orb_true_iff. left. rewrite Hc. simpl.
      apply andb_true_iff. split.
      * apply negb_true_iff. apply no_slash_iff. apply negb_true_iff in Hs.
        apply no_slash_iff in Hs. intros Q. apply Hs.
        apply (del_keeps s s'); [assumption | reflexivity | exact Q].
      * apply has_dot_iff. apply has_dot_iff in Hd. apply (del_incl _ _ H). exact Hd.
    + rewrite (IHdel K). apply orb_true_r.
  - simpl. rewrite (IHdel K). apply orb_true_r.
Qed.

Lemma norm_char_class c :
  is_dot (norm_char c) = is_dot c /\ is_slash (norm_char c) = is_slash c.
Proof. all_chars c; split; reflexivity. Qed.

Lemma existsb_map_same (p : ascii -> bool) (f : ascii -> ascii) (s : str) :
  (forall x, p (f x) = p x) -> existsb p (map f s) = existsb p s.
Proof.
  intros H. induction s as [|c s IH]; simpl; [reflexivity|].
  rewrite H, IH. reflexivity.
Qed.

Lemma splitsb_map_norm s : splitsb (map norm_char s) = splitsb s.
Proof.
  induction s as [|c s IH]; [reflexivity|].
  simpl. rewrite IH.
  rewrite !existsb_map_same by (intros x; apply (norm_char_class x)).
  destruct (norm_char_class c) as [Hd Hs].
  unfold neutral. rewrite Hd, Hs. reflexivity.
Qed.


Lemma lower_keeps_out (c : ascii) (e : str) :
  lower_char c = c -> (forall x, lower_char x = c -> x = c) ->
  ~ In c e -> ~ In c (lower e).
Proof.
  intros _ Hc H K. unfold lower in K. apply in_map_iff in K.
  destruct K as (x & Hx & Hin). apply Hc in Hx. subst. exact (H Hin).
Qed.

(** C1, as the spec states it, fails: a second application strips a
    second [_final] token. *)
Lemma C1_normalize_not_idempotent :
  normalize_filename (normalize_filename "a_final_final.xhtml")
  <> normalize_filename "a_final_final.xhtml".
Proof. vm_compute. discriminate. Qed.

(** C1 (amended): [normalize_filename] is idempotent on every name whose
    normalized stem does not end in [final] (at the end or before a
    closing newline) and, when the name has an extension, still has a
    character other than a dot in its last path component. *)
Theorem C1_normalize_idempotent_when (x : string) (stem ext : str) :
  splitext (list_ascii_of_string x) = (stem, ext) ->
  has_final (normalize_stem stem) = false ->
  (ext <> [] -> has_name_char (normalize_stem stem) = true) ->
  normalize_filename (normalize_filename x) = normalize_filename x.
Proof.
  intros Hsplit Hfin Hname.
  unfold normalize_filename. rewrite list_ascii_of_string_of_list_ascii. f_equal.
  set (p := list_ascii_of_string x) in *.
  assert (E : normalize_chars p = normalize_stem stem ++ lower ext).
  { unfold normalize_chars. rewrite Hsplit. reflexivity. }
  rewrite E. clear E.
  destruct (splitext_cases p) as [K | (stem' & e & Hp & Hd & Hs & Hn & K)];
    rewrite K in Hsplit; injection Hsplit as <- <-.
  - (* no extension: the normalized name has none either *)
    simpl lower. rewrite app_nil_r.
    assert (N : splitsb (normalize_stem p) = false).
    { destruct (splitsb (normalize_stem p)) eqn:E; [|reflexivity].
      apply (splitsb_del _ _ (normalize_stem_del p)) in E.
      rewrite splitsb_map_norm in E.
      apply splitext_none_iff in K. congruence. }
    apply splitext_none_iff in N.
    unfold normalize_chars. rewrite N. simpl lower. rewrite app_nil_r.
    apply normalize_stem_idem. exact Hfin.
  - (* an extension: the normalized name splits at the same dot *)
    assert (Hl : lower ("."%char :: e) = "."%char :: lower e) by reflexivity.
    rewrite Hl.
    assert (J : splitext (normalize_stem stem' ++ "."%char :: lower e)
                = (normalize_stem stem', "."%char :: lower e)).
    { apply splitext_join.
      - apply lower_keeps_out; [reflexivity | apply lower_char_dot | exact Hd].
      - apply lower_keeps_out; [reflexivity | apply lower_char_slash | exact Hs].
      - apply Hname. discriminate. }
    unfold normalize_chars. rewrite J.
    rewrite (normalize_stem_idem _ Hfin).
    change (lower ("."%char :: lower e)) with ("."%char :: lower (lower e)).
    rewrite lower_idem. reflexivity.
Qed.

Lemma C1_normalize_idempotent_witness :
  normalize_filename (normalize_filename "Chapter One_Final.xhtml")
  = normalize_filename "Chapter One_Final.xhtml".
Proof.
  apply (C1_normalize_idempotent_when "Chapter One_Final.xhtml"
           (lit "Chapter One_Final") (lit ".xhtml")).
  - reflexivity.
  - reflexivity.
  - intros _. reflexivity.
Defined.


Lemma lower_norm_char c : lower_char (norm_char c) = norm_char c.
Proof. all_chars c. Qed.

Lemma norm_char_no_space c : norm_char c <> " "%char.
Proof. all_chars c; discriminate. Qed.

Lemma lower_fix_incl s s' : incl s' (map norm_char s) -> lower s' = s'.
Proof.
  intros H. unfold lower. rewrite <- (map_id s') at 2. apply map_ext_in.
  intros c Hc. apply H in Hc. apply in_map_iff in Hc.
  destruct Hc as (x & <- & _). apply lower_norm_char.
Qed.

Lemma splitext_concat p : fst (splitext p) ++ snd (splitext p) = p.
Proof.
  destruct (splitext_cases p) as [K | (stem & e & Hp & _ & _ & _ & K)]; rewrite K; simpl.
  - apply app_nil_r.
  - symmetry. exact Hp.
Qed.

Lemma normalize_chars_parts p :
  normalize_chars p = normalize_stem (fst (splitext p)) ++ lower (snd (splitext p)).
Proof. unfold normalize_chars. destruct (splitext p). reflexivity. Qed.

(** [normalize_filename] returns a name that [str.lower] leaves as it
    is: no cased character is left in it, in the stem or in the
    extension. *)
Theorem normalize_filename_lowercase (x : string) :
  lower (lit (normalize_filename x)) = lit (normalize_filename x).
Proof.
  unfold normalize_filename, lit. rewrite list_ascii_of_string_of_list_ascii.
  rewrite normalize_chars_parts.
  unfold lower at 1. rewrite map_app. fold (lower (normalize_stem (fst (splitext (list_ascii_of_string x))))).
  fold (lower (lower (snd (splitext (list_ascii_of_string x))))).
  rewrite lower_idem. f_equal.
  apply (lower_fix_incl (fst (splitext (list_ascii_of_string x)))).
  apply del_incl. apply normalize_stem_del.
Qed.

Lemma rstrip_no_end c s a : rstrip c s <> a ++ [c].
Proof.
  revert a. induction s as [|x t IH]; intros a; simpl.
  - destruct a; discriminate.
  - destruct (rstrip c t) as [|y r] eqn:R.
    + destruct (char_eqb x c) eqn:E.
      * destruct a; discriminate.
      * intros K. destruct a as [|z a]; simpl in K.
        -- injection K as ->. rewrite char_eqb_refl in E. discriminate.
        -- injection K as _ K. destruct a; discriminate.
    + intros K. destruct a as [|z a]; simpl in K; [discriminate|].
      injection K as _ K. exact (IH a K).
Qed.

(** The shape of a normalized name: the name is the normalized stem
    followed by the lowered extension of [os.path.splitext], and the
    stem part has no space, no run of two hyphens and no hyphen at its
    end. *)
Theorem normalize_filename_shape (x : string) :
  exists st,
    lit (normalize_filename x) = st ++ lower (snd (splitext (lit x))) /\
    ~ In " "%char st /\
    no_double st = true /\
    (forall a, st <> a ++ ["-"%char]).
Proof.
  exists (normalize_stem (fst (splitext (lit x)))).
  split; [|split; [|split]].
  - unfold normalize_filename, lit. rewrite list_ascii_of_string_of_list_ascii.
    apply normalize_chars_parts.
  - intros K. apply (del_incl _ _ (normalize_stem_del _)) in K.
    apply in_map_iff in K. destruct K as (c & E & _). exact (norm_char_no_space c E).
  - unfold normalize_stem. apply no_double_del_end. apply collapse_no_double.
  - intros a. unfold normalize_stem. apply rstrip_no_end.
Qed.

Lemma del_length s s' : del s s' -> length s' <= length s.
Proof. induction 1; simpl; lia. Qed.

Lemma del_same_length s s' : del s s' -> length s' = length s -> s' = s.
Proof.
  induction 1 as [|c s s' H IH|c s s' Hc H IH]; intros E.
  - reflexivity.
  - simpl in E. f_equal. apply IH. lia.
  - apply del_length in H. simpl in E. lia.
Qed.

Lemma match_final_shorter s r : match_final s = Some r -> length r < length s.
Proof.
  unfold match_final. destruct (starts_with (lit "final") s) eqn:E; [|discriminate].
  destruct (at_dollar (skipn 5 s)); [|discriminate].
  intros H. injection H as <-.
  apply starts_with_app in E. apply (f_equal (@length ascii)) in E.
  rewrite length_app in E. change (length (lit "final")) with 5 in E.
  rewrite length_skipn in *. lia.
Qed.

Lemma match_sep_final_shorter s r : match_sep_final s = Some r -> length r < length s.
Proof.
  destruct s as [|c t]; simpl.
  - apply match_final_shorter.
  - destruct (char_eqb c "-"%char || char_eqb c "_"%char).
    + destruct (match_final t) as [r'|] eqn:E.
      * intros H. injection H as <-. apply match_final_shorter in E. simpl. lia.
      * apply (match_final_shorter (c :: t)).
    + apply (match_final_shorter (c :: t)).
Qed.

Lemma match_sep_final_none s : match_sep_final s = None -> match_final s = None.
Proof.
  destruct s as [|c t]; simpl; [tauto|].
  destruct (char_eqb c "-"%char || char_eqb c "_"%char); [|tauto].
  destruct (match_final t); [discriminate | tauto].
Qed.

Lemma strip_final_shorter s : has_final s = true -> length (strip_final s) < length s.
Proof.
  induction s as [|c t IH]; intros H.
  - simpl in H. discriminate.
  - change (strip_final (c :: t)) with
      (match match_sep_final (c :: t) with Some r => r | None => c :: strip_final t end).
    destruct (match_sep_final (c :: t)) as [r|] eqn:E.
    + apply match_sep_final_shorter in E. exact E.
    + apply match_sep_final_none in E.
      change (has_final (c :: t)) with
        (match match_final (c :: t) with Some _ => true | None => has_final t end) in H.
      rewrite E in H. specialize (IH H). simpl. lia.
Qed.

(** The stems that the stem transformation leaves as they are. *)
Definition tidy_stem (stem : str) : Prop :=
  map norm_char stem = stem /\ has_final stem = false /\
  no_double stem = true /\ rstrip "-"%char stem = stem.

Lemma normalize_stem_fixed_iff stem : normalize_stem stem = stem <-> tidy_stem stem.
Proof.
  unfold tidy_stem. split.
  - intros E.
    assert (M : map norm_char stem = stem).
    { apply (map_norm_fix stem). rewrite <- E at 1. apply del_incl. apply normalize_stem_del. }
    pose proof E as E'. unfold normalize_stem in E'. rewrite replace_lower, M in E'.
    pose proof (strip_final_del stem) as D1.
    pose proof (collapse_hyphens_del (strip_final stem)) as D2.
    pose proof (rstrip_del (collapse_hyphens (strip_final stem))) as D3.
    pose proof (del_length _ _ D1) as L1.
    pose proof (del_length _ _ D2) as L2.
    pose proof (del_length _ _ D3) as L3.
    assert (L : length (rstrip "-"%char (collapse_hyphens (strip_final stem))) = length stem)
      by (rewrite E'; reflexivity).
    assert (S1 : strip_final stem = stem) by (apply del_same_length; [exact D1 | lia]).
    rewrite S1 in *.
    assert (S2 : collapse_hyphens stem = stem) by (apply del_same_length; [exact D2 | lia]).
    rewrite S2 in *.
    repeat split.
    + exact M.
    + destruct (has_final stem) eqn:F; [|reflexivity].
      apply strip_final_shorter in F. rewrite S1 in F. lia.
    + rewrite <- S2. apply collapse_no_double.
    + exact E'.
  - intros (M & F & N & R). unfold normalize_stem.
    rewrite replace_lower, M, (strip_final_fix _ F), (collapse_fix _ N). exact R.
Qed.

Lemma app_same_length {A} (a b c d : list A) :
  length a = length c -> a ++ b = c ++ d -> a = c /\ b = d.
Proof.
  revert c. induction a as [|x a IH]; intros [|y c] L E; simpl in *; try discriminate.
  - split; [reflexivity | exact E].
  - injection E as -> E. injection L as L. destruct (IH c L E) as [-> ->].
    split; reflexivity.
Qed.

(** The names that [normalize_filename] returns unchanged, which are
    the files that [rename_files] does not rename: the stem is
    lowercase without spaces, does not end in [final] (before an
    optional closing newline), has no run of two hyphens and no hyphen
    at its end, and the extension is lowercase. *)
Theorem normalize_filename_fixed_iff (x : string) :
  normalize_filename x = x <->
  tidy_stem (fst (splitext (lit x))) /\ lower (snd (splitext (lit x))) = snd (splitext (lit x)).
Proof.
  rewrite <- normalize_stem_fixed_iff.
  set (p := lit x).
  assert (E : normalize_filename x = x <-> normalize_chars p = p).
  { unfold normalize_filename. fold (lit x). fold p. split; intros H.
    - apply (f_equal list_ascii_of_string) in H.
      rewrite list_ascii_of_string_of_list_ascii in H. exact H.
    - rewrite H. unfold p, lit. apply string_of_list_ascii_of_string. }
  rewrite E, normalize_chars_parts.
  pose proof (splitext_concat p) as C.
  destruct (splitext p) as [stem ext]. simpl in C |- *.
  clearbody p. clear E. subst p. split.
  - intros H.
    assert (L : length (normalize_stem stem) = length stem).
    { apply (f_equal (@length ascii)) in H. rewrite !length_app in H.
      unfold lower in H. rewrite length_map in H. lia. }
    apply (app_same_length _ _ _ _ L H).
  - intros [S L]. rewrite S, L. reflexivity.
Qed.

End FilenameFacts.

(** *** Properties of the entity fixer *)

Module EntitiesFacts.
Import Text TextFacts Entities.

Definition is_delim (c : ascii) : bool :=
  char_eqb c "&"%char || char_eqb c ";"%char.

Definition plain (body : str) : bool := forallb (fun c => negb (is_delim c)) body.

(** A character reference: an ampersand, a body without ampersand or
    semicolon, a semicolon. *)
Inductive token : str -> Prop :=
| token_intro body : plain body = true -> token ("&"%char :: body ++ [";"%char]).

Definition is_token (t : str) : bool :=
  match t with
  | c :: r =>
      char_eqb c "&"%char &&
      match rev r with
      | l :: b => char_eqb l ";"%char && plain (rev b)
      | [] => false
      end
  | [] => false
  end.

(** Positions of [s] at which [p] starts (overlaps included). *)
Fixpoint occ (p s : str) : nat :=
  (if starts_with p s then 1 else 0) +
  match s with
  | [] => 0
  | _ :: t => occ p t
  end.

Definition str_eq_dec : forall a b : str, {a = b} + {a <> b} := list_eq_dec ascii_dec.

Lemma is_token_sound t : is_token t = true -> token t.
Proof.
  destruct t as [|c r]; simpl; [discriminate|].
  intros H. apply andb_true_iff in H. destruct H as [Hc H].
  apply char_eqb_eq in Hc. subst c.
  destruct (rev r) as [|l b] eqn:E; [discriminate|].
  apply andb_true_iff in H. destruct H as [Hl Hb].
  apply char_eqb_eq in Hl. subst l.
  assert (r = rev b ++ [";"%char]) as ->.
  { rewrite <- (rev_involutive r), E. reflexivity. }
  constructor. exact Hb.
Qed.

Lemma starts_with_split p s : starts_with p s = true -> s = p ++ skipn (length p) s.
Proof.
  revert s. induction p as [|a p IH]; intros s H; simpl in *; [reflexivity|].
  destruct s as [|b s]; [discriminate|].
  apply andb_true_iff in H. destruct H as [H1 H2].
  apply char_eqb_eq in H1. subst. simpl. f_equal. apply IH. exact H2.
Qed.

Lemma starts_with_same p r : starts_with p (p ++ r) = true.
Proof.
  induction p as [|a p IH]; simpl; [reflexivity|].
  rewrite char_eqb_refl. exact IH.
Qed.

Lemma replace_from_skip a b u r :
  replace_from a b (length u) (u ++ r) = replace_from a b 0 r.
Proof. induction u as [|x u IH]; simpl; [destruct r; reflexivity | exact IH]. Qed.

Lemma count_from_skip a u r : count_from a (length u) (u ++ r) = count_from a 0 r.
Proof. induction u as [|x u IH]; simpl; [destruct r; reflexivity | exact IH]. Qed.

Lemma replace_match a b r : a <> [] -> replace a b (a ++ r) = b ++ replace a b r.
Proof.
  intros Ha. destruct a as [|x a]; [congruence|].
  unfold replace. change ((x :: a) ++ r) with (x :: (a ++ r)).
  unfold replace_from at 1. fold replace_from.
  change (x :: a ++ r) with ((x :: a) ++ r). rewrite starts_with_same.
  replace (length (x :: a) - 1) with (length a) by (simpl; lia).
  rewrite replace_from_skip. reflexivity.
Qed.

Lemma replace_cons a b y s :
  replace a b (y :: s) =
  if starts_with a (y :: s)
  then b ++ replace_from a b (length a - 1) s
  else y :: replace a b s.
Proof. reflexivity. Qed.

Lemma replace_pass a b x s :
  starts_with a (x :: s) = false -> replace a b (x :: s) = x :: replace a b s.
Proof. intros H. rewrite replace_cons, H. reflexivity. Qed.

Lemma count_match a r : a <> [] -> count a (a ++ r) = S (count a r).
Proof.
  intros Ha. destruct a as [|x a]; [congruence|].
  unfold count. change ((x :: a) ++ r) with (x :: (a ++ r)).
  unfold count_from at 1. fold count_from.
  change (x :: a ++ r) with ((x :: a) ++ r). rewrite starts_with_same.
  replace (length (x :: a) - 1) with (length a) by (simpl; lia).
  rewrite count_from_skip. reflexivity.
Qed.

Lemma count_pass a x s : starts_with a (x :: s) = false -> count a (x :: s) = count a s.
Proof. intros H. unfold count. simpl count_from. rewrite H. reflexivity. Qed.

(** Induction along the left-to-right scan for a pattern. *)
Lemma scan_ind (a : str) (P : str -> Prop) :
  a <> [] ->
  P [] ->
  (forall r, P r -> P (a ++ r)) ->
  (forall x s, starts_with a (x :: s) = false -> P s -> P (x :: s)) ->
  forall s, P s.
Proof.
  intros Ha H0 Hm Hp s.
  remember (length s) as n eqn:En. revert s En.
  induction n as [n IH] using lt_wf_ind. intros s En.
  destruct s as [|x s]; [exact H0|].
  destruct (starts_with a (x :: s)) eqn:E.
  - apply starts_with_split in E. rewrite E. apply Hm.
    apply (IH (length (skipn (length a) (x :: s)))); [|reflexivity].
    subst n. rewrite length_skipn. destruct a; [congruence|]. simpl. lia.
  - apply Hp; [exact E|]. apply (IH (length s)); [subst n; simpl; lia | reflexivity].
Qed.

Lemma plain_cons d body :
  plain (d :: body) = true -> d <> "&"%char /\ d <> ";"%char /\ plain body = true.
Proof.
  unfold plain. simpl. intros H. apply andb_true_iff in H. destruct H as [H1 H2].
  apply negb_true_iff in H1. unfold is_delim in H1. apply orb_false_iff in H1.
  destruct H1 as [Ha Hs]. apply char_eqb_neq in Ha. apply char_eqb_neq in Hs.
  repeat split; assumption.
Qed.

Lemma plain_no_amp body : plain body = true -> Forall (fun x => x <> "&"%char) (body ++ [";"%char]).
Proof.
  induction body as [|d body IH]; intros H.
  - constructor; [discriminate | constructor].
  - apply plain_cons in H. destruct H as (Ha & _ & Hb).
    simpl. constructor; [exact Ha | apply IH; exact Hb].
Qed.

Lemma tail_prefix bc :
  plain bc = true -> forall bt X, plain bt = true ->
  starts_with (bc ++ [";"%char]) (bt ++ ";"%char :: X) = true -> bc = bt.
Proof.
  induction bc as [|d bc IH]; intros Hc bt X Ht H.
  - destruct bt as [|e bt]; [reflexivity|].
    apply plain_cons in Ht. destruct Ht as (_ & Hs & _).
    simpl in H. apply andb_true_iff in H. destruct H as [H _].
    apply char_eqb_eq in H. congruence.
  - apply plain_cons in Hc. destruct Hc as (_ & Hs & Hc).
    destruct bt as [|e bt].
    + simpl in H. apply andb_true_iff in H. destruct H as [H _].
      apply char_eqb_eq in H. congruence.
    + apply plain_cons in Ht. destruct Ht as (_ & _ & Ht).
      simpl in H. apply andb_true_iff in H. destruct H as [H1 H2].
      apply char_eqb_eq in H1. subst e. f_equal. apply (IH Hc bt X Ht H2).
Qed.

Lemma token_prefix c t X : token c -> token t -> starts_with c (t ++ X) = true -> c = t.
Proof.
  intros [bc Hc] [bt Ht] H. simpl in H. rewrite <- app_assoc in H. simpl in H.
  f_equal. f_equal. apply (tail_prefix bc Hc bt X Ht H).
Qed.

Lemma token_not_nil c : token c -> c <> [].
Proof. intros [b _]. discriminate. Qed.

Lemma occ_cons p x s :
  occ p (x :: s) = (if starts_with p (x :: s) then 1 else 0) + occ p s.
Proof. reflexivity. Qed.

Lemma occ_nil c : token c -> occ c [] = 0.
Proof. intros [b _]. reflexivity. Qed.

Lemma occ_skip c u X :
  token c -> Forall (fun x => x <> "&"%char) u -> occ c (u ++ X) = occ c X.
Proof.
  intros [b _] H. induction H as [|x u Hx _ IH]; [reflexivity|].
  change ((x :: u) ++ X) with (x :: (u ++ X)). rewrite occ_cons, IH.
  simpl starts_with.
  assert (E : char_eqb "&"%char x = false) by (apply char_eqb_neq; congruence).
  rewrite E. reflexivity.
Qed.

Lemma occ_token c t X :
  token c -> token t ->
  occ c (t ++ X) = (if str_eq_dec c t then 1 else 0) + occ c X.
Proof.
  intros Hc Ht.
  assert (E : occ c (t ++ X) = (if starts_with c (t ++ X) then 1 else 0) + occ c X).
  { destruct Ht as [bt Hbt]. change (("&"%char :: bt ++ [";"%char]) ++ X)
      with ("&"%char :: ((bt ++ [";"%char]) ++ X)).
    rewrite occ_cons. f_equal. apply occ_skip; [exact Hc | apply plain_no_amp; exact Hbt]. }
  rewrite E. f_equal.
  destruct (str_eq_dec c t) as [-> | N].
  - rewrite starts_with_same. reflexivity.
  - destruct (starts_with c (t ++ X)) eqn:S; [|reflexivity].
    exfalso. apply N. apply (token_prefix c t X Hc Ht S).
Qed.

Lemma tail_replace a' b' body :
  plain body = true -> forall s,
  starts_with (body ++ [";"%char]) (replace ("&"%char :: a') ("&"%char :: b') s)
  = starts_with (body ++ [";"%char]) s.
Proof.
  induction body as [|d body IH]; intros Hb s.
  - destruct s as [|y s]; [reflexivity|].
    rewrite replace_cons. destruct (starts_with ("&"%char :: a') (y :: s)) eqn:E.
    + simpl in E. apply andb_true_iff in E. destruct E as [E _].
      apply char_eqb_eq in E. subst y. reflexivity.
    + reflexivity.
  - apply plain_cons in Hb. destruct Hb as (Ha & _ & Hb).
    destruct s as [|y s]; [reflexivity|].
    rewrite replace_cons. destruct (starts_with ("&"%char :: a') (y :: s)) eqn:E.
    + simpl in E. apply andb_true_iff in E. destruct E as [E _].
      apply char_eqb_eq in E. subst y. simpl.
      apply char_eqb_neq in Ha. rewrite Ha. reflexivity.
    + simpl. rewrite (IH Hb). reflexivity.
Qed.

Lemma head_replace a b c x s :
  token a -> token b -> token c ->
  starts_with c (x :: replace a b s) = starts_with c (x :: s).
Proof.
  intros [ba _] [bb _] [bc Hc]. simpl. f_equal. apply tail_replace. exact Hc.
Qed.

(** How one replacement changes the number of occurrences of a
    character reference. *)
Lemma occ_replace a b c :
  token a -> token b -> token c -> a <> b -> forall s,
  occ c (replace a b s) =
  if str_eq_dec c a then 0
  else occ c s + (if str_eq_dec c b then occ a s else 0).
Proof.
  intros Ha Hb Hc Hab.
  apply (scan_ind a); [apply token_not_nil; exact Ha | | |].
  - change (replace a b []) with (@nil ascii).
    rewrite (occ_nil c Hc), (occ_nil a Ha).
    destruct (str_eq_dec c a), (str_eq_dec c b); reflexivity.
  - intros r IH. rewrite replace_match by (apply token_not_nil; exact Ha).
    rewrite (occ_token c b _ Hc Hb), IH.
    rewrite (occ_token c a r Hc Ha), (occ_token a a r Ha Ha).
    destruct (str_eq_dec c a) as [-> | N1].
    + destruct (str_eq_dec a b); [contradiction | reflexivity].
    + destruct (str_eq_dec c b); destruct (str_eq_dec a a); try congruence; lia.
  - intros x s E IH. rewrite replace_pass by exact E.
    rewrite occ_cons, (head_replace a b c x s Ha Hb Hc), IH.
    rewrite (occ_cons c x s), (occ_cons a x s), E.
    destruct (str_eq_dec c a) as [-> | N1].
    + rewrite E. reflexivity.
    + destruct (str_eq_dec c b); lia.
Qed.

(** Character references do not overlap, so [str.count] counts all
    their starting positions. *)
Lemma count_occ c : token c -> forall s, count c s = occ c s.
Proof.
  intros Hc. apply (scan_ind c); [apply token_not_nil; exact Hc | | |].
  - rewrite (occ_nil c Hc). reflexivity.
  - intros r IH. rewrite count_match by (apply token_not_nil; exact Hc).
    rewrite (occ_token c c r Hc Hc), IH.
    destruct (str_eq_dec c c); [reflexivity | congruence].
  - intros x s E IH. rewrite count_pass by exact E.
    rewrite occ_cons, E, IH. reflexivity.
Qed.

Lemma contains_occ a s : contains a s = false <-> occ a s = 0.
Proof.
  induction s as [|x s IH].
  - simpl. destruct (starts_with a []); simpl; split; congruence.
  - rewrite occ_cons. simpl contains.
    destruct (starts_with a (x :: s)); simpl; [split; discriminate|].
    exact IH.
Qed.


(** Both columns of a table entry are character references. *)
Definition entry_ok (e : string * string) : Prop :=
  token (lit (fst e)) /\ token (lit (snd e)).

(** All strings of a table: the named column, then the numeric one. *)
Definition names (tbl : list (string * string)) : list str :=
  map (fun e => lit (fst e)) tbl ++ map (fun e => lit (snd e)) tbl.

Fixpoint distinct (l : list str) : bool :=
  match l with
  | [] => true
  | x :: r =>
      negb (existsb (fun y => if str_eq_dec x y then true else false) r) && distinct r
  end.

Lemma distinct_sound l : distinct l = true -> NoDup l.
Proof.
  induction l as [|x r IH]; simpl; intros H; [constructor|].
  apply andb_true_iff in H. destruct H as [H1 H2].
  constructor; [|apply IH; exact H2].
  intros K. apply negb_true_iff in H1.
  assert (E : existsb (fun y => if str_eq_dec x y then true else false) r = true).
  { apply existsb_exists. exists x. split; [exact K|].
    destruct (str_eq_dec x x); [reflexivity | congruence]. }
  congruence.
Qed.

Lemma names_cons_inv a b tbl :
  NoDup (names ((a, b) :: tbl)) ->
  NoDup (names tbl) /\ ~ In (lit a) (names tbl) /\ ~ In (lit b) (names tbl) /\
  lit a <> lit b.
Proof.
  unfold names. simpl. intros H.
  apply NoDup_cons_iff in H. destruct H as [Ha H].
  pose proof (NoDup_remove _ _ _ H) as [H' Hb].
  repeat split.
  - exact H'.
  - intros K. apply Ha. apply in_app_or in K. apply in_or_app.
    destruct K as [K | K]; [left; exact K | right; right; exact K].
  - exact Hb.
  - intros E. apply Ha. apply in_or_app. right. left. symmetry. exact E.
Qed.

Lemma in_names a b tbl :
  In (a, b) tbl -> In (lit a) (names tbl) /\ In (lit b) (names tbl).
Proof.
  intros H. unfold names. split; apply in_or_app; [left | right];
    apply in_map_iff; exists (a, b); split; try reflexivity; exact H.
Qed.

Lemma occ_step a b c text :
  token (lit a) -> token (lit b) -> token c -> lit a <> lit b ->
  occ c (step text (a, b)) =
  if str_eq_dec c (lit a) then 0
  else occ c text + (if str_eq_dec c (lit b) then occ (lit a) text else 0).
Proof.
  intros Ha Hb Hc Hab. unfold step. simpl fst. simpl snd.
  destruct (contains (lit a) text) eqn:E.
  - apply occ_replace; assumption.
  - apply contains_occ in E.
    destruct (str_eq_dec c (lit a)) as [-> | N]; [exact E|].
    rewrite E. destruct (str_eq_dec c (lit b)); lia.
Qed.

Lemma fix_chars_cons e tbl text : fix_chars (e :: tbl) text = fix_chars tbl (step text e).
Proof. reflexivity. Qed.

(** A character reference that is in neither column keeps its count. *)
Lemma occ_fix_other tbl :
  Forall entry_ok tbl -> NoDup (names tbl) ->
  forall text c, token c -> ~ In c (names tbl) ->
  occ c (fix_chars tbl text) = occ c text.
Proof.
  induction tbl as [|[a b] tbl IH]; intros Hok Hnd text c Hc Hout; [reflexivity|].
  inversion Hok as [|e l [Ha Hb] Hok']; subst. simpl in Ha, Hb.
  destruct (names_cons_inv _ _ _ Hnd) as (Hnd' & _ & _ & Hab).
  assert (Hca : c <> lit a).
  { intros ->. apply Hout. unfold names. simpl. left. reflexivity. }
  assert (Hcb : c <> lit b).
  { intros ->. apply Hout. unfold names. simpl. right. apply in_or_app. right. left. reflexivity. }
  rewrite fix_chars_cons, IH; try assumption.
  - rewrite (occ_step a b c text Ha Hb Hc Hab).
    destruct (str_eq_dec c (lit a)); [contradiction|].
    destruct (str_eq_dec c (lit b)); [contradiction | lia].
  - intros K. apply Hout. unfold names in *. simpl. right.
    apply in_app_or in K. apply in_or_app.
    destruct K as [K | K]; [left; exact K | right; right; exact K].
Qed.

(** The two counts for an entry of the table. *)
Lemma occ_fix_entry tbl :
  Forall entry_ok tbl -> NoDup (names tbl) ->
  forall text a b, In (a, b) tbl ->
  occ (lit a) (fix_chars tbl text) = 0 /\
  occ (lit b) (fix_chars tbl text) = occ (lit a) text + occ (lit b) text.
Proof.
  induction tbl as [|[a0 b0] tbl IH]; intros Hok Hnd text a b Hin; [destruct Hin|].
  inversion Hok as [|e l [Ha0 Hb0] Hok']; subst. simpl in Ha0, Hb0.
  destruct (names_cons_inv _ _ _ Hnd) as (Hnd' & Hna & Hnb & Hab).
  rewrite fix_chars_cons.
  destruct Hin as [E | Hin].
  - injection E as -> ->.
    rewrite !(occ_fix_other tbl Hok' Hnd') by assumption.
    rewrite !(occ_step a b _ text Ha0 Hb0) by assumption.
    destruct (str_eq_dec (lit a) (lit a)); [|congruence].
    destruct (str_eq_dec (lit b) (lit a)); [congruence|].
    destruct (str_eq_dec (lit b) (lit b)); [|congruence].
    split; [reflexivity | lia].
  - destruct (IH Hok' Hnd' (step text (a0, b0)) a b Hin) as [Z N].
    destruct (in_names _ _ _ Hin) as [Ia Ib].
    assert (Ta : token (lit a) /\ token (lit b)).
    { rewrite Forall_forall in Hok'. apply (Hok' (a, b) Hin). }
    destruct Ta as [Ta Tb].
    split; [exact Z|].
    rewrite N.
    rewrite (occ_step a0 b0 (lit a) text Ha0 Hb0 Ta Hab).
    rewrite (occ_step a0 b0 (lit b) text Ha0 Hb0 Tb Hab).
    destruct (str_eq_dec (lit a) (lit a0)) as [E|_]; [rewrite E in Ia; contradiction|].
    destruct (str_eq_dec (lit a) (lit b0)) as [E|_]; [rewrite E in Ia; contradiction|].
    destruct (str_eq_dec (lit b) (lit a0)) as [E|_]; [rewrite E in Ib; contradiction|].
    destruct (str_eq_dec (lit b) (lit b0)) as [E|_]; [rewrite E in Ib; contradiction|].
    lia.
Qed.

Lemma replacements_tokens : Forall entry_ok replacements.
Proof.
  unfold replacements.
  repeat (constructor; [split; apply is_token_sound; reflexivity|]).
  constructor.
Qed.

Lemma replacements_distinct : NoDup (names replacements).
Proof. apply distinct_sound. vm_compute. reflexivity. Qed.

Lemma fix_chars_fixed tbl t :
  (forall e, In e tbl -> contains (lit (fst e)) t = false) -> fix_chars tbl t = t.
Proof.
  induction tbl as [|e tbl IH]; intros H; [reflexivity|].
  rewrite fix_chars_cons. unfold step at 1.
  rewrite (H e) by (left; reflexivity).
  apply IH. intros e' He'. apply H. right. exact He'.
Qed.

(** C5: after the entity fixer no named entity of the table occurs in
    the text, and each numeric form occurs as often as it did before
    plus once for every occurrence of its named form. *)
Theorem C5_entities_counted (text named numeric : string) :
  In (named, numeric) replacements ->
  occurrences named (fix_named_entities text) = 0 /\
  occurrences numeric (fix_named_entities text)
  = occurrences named text + occurrences numeric text.
Proof.
  intros Hin. unfold occurrences, fix_named_entities.
  unfold lit at 2 4. rewrite !list_ascii_of_string_of_list_ascii.
  assert (T : token (lit named) /\ token (lit numeric)).
  { pose proof replacements_tokens as H. rewrite Forall_forall in H.
    apply (H (named, numeric) Hin). }
  destruct T as [Tn Tm].
  rewrite !(count_occ _ Tn), !(count_occ _ Tm).
  apply occ_fix_entry; [apply replacements_tokens | apply replacements_distinct | exact Hin].
Qed.

Lemma C5_entities_counted_witness :
  occurrences "&mdash;" (fix_named_entities "a&mdash;b&#8212;c&mdash;") = 0 /\
  occurrences "&#8212;" (fix_named_entities "a&mdash;b&#8212;c&mdash;")
  = occurrences "&mdash;" "a&mdash;b&#8212;c&mdash;"
    + occurrences "&#8212;" "a&mdash;b&#8212;c&mdash;".
Proof.
  apply (C5_entities_counted "a&mdash;b&#8212;c&mdash;" "&mdash;" "&#8212;").
  simpl. do 5 right. left. reflexivity.
Defined.

(** C9: the entity fixer is idempotent. *)
Theorem C9_fix_named_entities_idempotent (text : string) :
  fix_named_entities (fix_named_entities text) = fix_named_entities text.
Proof.
  unfold fix_named_entities. rewrite list_ascii_of_string_of_list_ascii. f_equal.
  apply fix_chars_fixed. intros [a b] Hin. simpl fst.
  apply contains_occ.
  apply (occ_fix_entry replacements replacements_tokens replacements_distinct
           (list_ascii_of_string text) a b Hin).
Qed.


Lemma lit_inj a b : lit a = lit b -> a = b.
Proof.
  unfold lit. intros H.
  rewrite <- (string_of_list_ascii_of_string a), <- (string_of_list_ascii_of_string b), H.
  reflexivity.
Qed.

Lemma names_strings ref tbl :
  In (lit ref) (names tbl) -> In ref (map fst tbl ++ map snd tbl).
Proof.
  unfold names. intros H. apply in_app_or in H. apply in_or_app.
  destruct H as [H | H]; [left | right];
    apply in_map_iff in H; destruct H as (e & E & He); apply lit_inj in E;
    apply in_map_iff; exists e; split; assumption.
Qed.

(** The entity fixer leaves every other character reference alone: a
    reference [&...;] that is in neither column of the table, such as
    the five predefined entities, occurs as often after the pass as
    before. *)
Theorem other_references_kept (text ref : string) :
  is_token (lit ref) = true ->
  ~ In ref (map fst replacements ++ map snd replacements) ->
  occurrences ref (fix_named_entities text) = occurrences ref text.
Proof.
  intros Ht Hout. apply is_token_sound in Ht.
  unfold occurrences, fix_named_entities.
  unfold lit at 2. rewrite list_ascii_of_string_of_list_ascii.
  rewrite !(count_occ _ Ht).
  apply (occ_fix_other replacements replacements_tokens replacements_distinct).
  - exact Ht.
  - intros K. apply Hout. apply names_strings. exact K.
Qed.

Lemma other_references_kept_witness :
  occurrences "&amp;" (fix_named_entities "Tom &amp; Jerry&nbsp;&amp;&copy;")
  = occurrences "&amp;" "Tom &amp; Jerry&nbsp;&amp;&copy;".
Proof.
  apply other_references_kept; [reflexivity|].
  simpl. intuition discriminate.
Defined.

(** The entity fixer returns its input exactly when none of the named
    entities of the table occurs in it. *)
Theorem fix_named_entities_fixed_iff (text : string) :
  fix_named_entities text = text <->
  forall named numeric, In (named, numeric) replacements -> occurrences named text = 0.
Proof.
  split.
  - intros E named numeric Hin. rewrite <- E.
    unfold occurrences, fix_named_entities.
    unfold lit at 2. rewrite list_ascii_of_string_of_list_ascii.
    assert (T : token (lit named)).
    { pose proof replacements_tokens as H. rewrite Forall_forall in H.
      apply (H (named, numeric) Hin). }
    rewrite (count_occ _ T).
    apply (occ_fix_entry replacements replacements_tokens replacements_distinct
             (list_ascii_of_string text) named numeric Hin).
  - intros H. unfold fix_named_entities.
    rewrite fix_chars_fixed; [apply string_of_list_ascii_of_string|].
    intros [a b] Hin. simpl fst. apply contains_occ.
    assert (T : token (lit a)).
    { pose proof replacements_tokens as K. rewrite Forall_forall in K.
      apply (K (a, b) Hin). }
    rewrite <- (count_occ _ T). apply (H a b Hin).
Qed.

End EntitiesFacts.

(** ** Reference Mapper: the book map *)

Module ReferenceMapper.
Import stdpp.base stdpp.gmap stdpp.strings.

(** What [yaml.safe_load] returns: scalars, sequences and mappings.
    Every scalar that is not a [str] takes the last branch of
    [replace_in_obj]. *)
Inductive atom :=
| ANone
| ABool (b : bool)
| AInt (z : Z)
| AFloat (repr : string).

Inductive ykey :=
| KAtom (a : atom)
| KStr (s : string).

#[warnings="-register-all"]
Inductive yaml :=
| YAtom (a : atom)
| YStr (s : string)
| YList (items : list yaml)
| YDict (items : list (ykey * yaml)).

(** [replace_in_obj], with the mapping of [rename_files] as a finite map;
    [mapping.get(obj, obj)] is the lookup with [obj] as default. *)
Fixpoint replace_in_obj (mapping : gmap string string) (obj : yaml) : yaml :=
  match obj with
  | YDict items =>
      YDict (map (fun kv => match kv with (k, v) => (k, replace_in_obj mapping v) end) items)
  | YList items => YList (map (replace_in_obj mapping) items)
  | YStr s => YStr (default s (mapping !! s))
  | YAtom a => YAtom a
  end.

(** [update_references_in_yaml] on the loaded document: [None] stands
    for a book map that is not on disk, which is skipped. *)
Definition update_references_in_yaml
    (data : option yaml) (mapping : gmap string string) : option yaml :=
  match data with
  | None => None
  | Some d => Some (replace_in_obj mapping d)
  end.

(** Positions in a document: the index of an item of a sequence or of
    a mapping. *)
Inductive pstep :=
| InList (i : nat)
| InDict (i : nat).

Fixpoint get (p : list pstep) (y : yaml) : option yaml :=
  match p with
  | [] => Some y
  | InList i :: p' =>
      match y with
      | YList items =>
          match nth_error items i with
          | Some v => get p' v
          | None => None
          end
      | _ => None
      end
  | InDict i :: p' =>
      match y with
      | YDict items =>
          match nth_error items i with
          | Some (_, v) => get p' v
          | None => None
          end
      | _ => None
      end
  end.

(** The structure is kept: what is at a position afterwards is the
    image of what was there before. *)
Lemma get_replace mapping p : forall doc,
  get p (replace_in_obj mapping doc) = option_map (replace_in_obj mapping) (get p doc).
Proof.
  induction p as [|st p IH]; intros doc; [reflexivity|].
  destruct st as [i | i]; destruct doc as [a | s | items | items]; try reflexivity.
  - simpl. rewrite nth_error_map.
    destruct (nth_error items i) as [v|]; simpl; [apply IH | reflexivity].
  - simpl. rewrite nth_error_map.
    destruct (nth_error items i) as [[k v]|]; simpl; [apply IH | reflexivity].
Qed.


Definition sample_mapping : gmap string string :=
  <["text/Chapter One_Final.xhtml" := "text/chapter-one.xhtml"]> ∅.

Definition sample_doc : yaml :=
  YDict [ (KStr "book", YDict [ (KStr "title", YStr "text/chapter-one.xhtml") ]);
          (KStr "files", YList [ YStr "text/Chapter One_Final.xhtml";
                                 YStr "x/text/Chapter One_Final.xhtml";
                                 YAtom (AInt 3) ]) ].



(** Induction on loaded documents. *)
Fixpoint yaml_nested_ind (P : yaml -> Prop)
    (HA : forall a, P (YAtom a))
    (HS : forall s, P (YStr s))
    (HL : forall items, Forall P items -> P (YList items))
    (HD : forall items, Forall (fun kv => P (snd kv)) items -> P (YDict items))
    (y : yaml) : P y :=
  match y with
  | YAtom a => HA a
  | YStr s => HS s
  | YList items =>
      HL items ((fix go (l : list yaml) : Forall P l :=
                   match l with
                   | [] => @Stdlib.Lists.List.Forall_nil _ _
                   | v :: r => @Stdlib.Lists.List.Forall_cons _ _ v r (yaml_nested_ind P HA HS HL HD v) (go r)
                   end) items)
  | YDict items =>
      HD items ((fix go (l : list (ykey * yaml)) : Forall (fun kv => P (snd kv)) l :=
                   match l with
                   | [] => @Stdlib.Lists.List.Forall_nil _ _
                   | (k, v) :: r =>
                       @Stdlib.Lists.List.Forall_cons _ (fun kv => P (snd kv)) (k, v) r
                         (yaml_nested_ind P HA HS HL HD v) (go r)
                   end) items)
  end.

Lemma map_fixed {A} (f : A -> A) (l : list A) : Forall (fun x => f x = x) l -> map f l = l.
Proof. induction 1 as [|x r Hx _ IH]; simpl; [reflexivity|]. rewrite Hx, IH. reflexivity. Qed.

(** Two mappings that agree on every string give the same document. *)
Lemma replace_in_obj_ext (m m' : gmap string string) (f : string -> string) doc :
  (forall s, default s (m !! s) = f s) ->
  (forall s, default (f s) (m' !! f s) = f s) ->
  replace_in_obj m' (replace_in_obj m doc) = replace_in_obj m doc.
Proof.
  intros Hm Hm'. induction doc as [a | s | items IH | items IH] using yaml_nested_ind.
  - reflexivity.
  - simpl. rewrite Hm, Hm'. reflexivity.
  - simpl. f_equal. rewrite map_map. apply Stdlib.Lists.List.map_ext_Forall. exact IH.
  - simpl. f_equal. rewrite map_map. apply Stdlib.Lists.List.map_ext_Forall.
    eapply Forall_impl; [exact IH|]. intros [k v] E. simpl in E. rewrite E. reflexivity.
Qed.

(** With an empty mapping (no file was renamed) the book map is
    written back as it was loaded. *)
Theorem empty_mapping_changes_nothing (doc : yaml) :
  update_references_in_yaml (Some doc) ∅ = Some doc.
Proof.
  unfold update_references_in_yaml. f_equal.
  induction doc as [a | s | items IH | items IH] using yaml_nested_ind.
  - reflexivity.
  - simpl. rewrite lookup_empty. reflexivity.
  - simpl. f_equal. apply map_fixed. exact IH.
  - simpl. f_equal. apply map_fixed.
    eapply Forall_impl; [exact IH|]. intros [k v] H. simpl in H. rewrite H. reflexivity.
Qed.

(** The keys of a mapping of the book map are never replaced, whether
    or not they are old file names: at every position the updated
    mapping has the keys of the original one, in the same order. *)
Theorem mapping_keys_kept
    (mapping : gmap string string) (doc : yaml) (p : list pstep)
    (items : list (ykey * yaml)) :
  get p doc = Some (YDict items) ->
  exists items',
    get p (replace_in_obj mapping doc) = Some (YDict items') /\
    map fst items' = map fst items.
Proof.
  intros H. rewrite get_replace, H. simpl.
  eexists. split; [reflexivity|].
  rewrite map_map. apply map_ext. intros [k v]. reflexivity.
Qed.

Definition keyed_doc : yaml :=
  YDict [ (KStr "toc", YDict [ (KStr "text/Chapter One_Final.xhtml",
                                YStr "text/Chapter One_Final.xhtml") ]) ].

Lemma mapping_keys_kept_witness :
  exists items',
    get [InDict 0] (replace_in_obj sample_mapping keyed_doc) = Some (YDict items') /\
    map fst items' = [KStr "text/Chapter One_Final.xhtml"].
Proof.
  apply (mapping_keys_kept sample_mapping keyed_doc [InDict 0]
           [ (KStr "text/Chapter One_Final.xhtml", YStr "text/Chapter One_Final.xhtml") ]).
  reflexivity.
Defined.

(** When no new name is itself an old name, a second update with the
    same mapping changes nothing. *)
Theorem update_twice_same (mapping : gmap string string) (doc : yaml) :
  (forall old new, mapping !! old = Some new -> mapping !! new = None) ->
  replace_in_obj mapping (replace_in_obj mapping doc) = replace_in_obj mapping doc.
Proof.
  intros H. apply (replace_in_obj_ext mapping mapping (fun s => default s (mapping !! s))).
  - reflexivity.
  - intros s. destruct (mapping !! s) as [new|] eqn:E; simpl.
    + rewrite (H s new E). reflexivity.
    + rewrite E. reflexivity.
Qed.

Lemma update_twice_same_witness :
  replace_in_obj sample_mapping (replace_in_obj sample_mapping sample_doc)
  = replace_in_obj sample_mapping sample_doc.
Proof.
  apply update_twice_same. intros old new H.
  unfold sample_mapping in *.
  apply lookup_insert_Some in H. destruct H as [[<- <-] | [_ H]].
  - apply lookup_insert_None. split; [apply lookup_empty | discriminate].
  - rewrite lookup_empty in H. discriminate.
Defined.

End ReferenceMapper.

(** *** Properties of the manifest builder *)

Module ManifestFacts.
Import Text Manifest.
Local Open Scope string_scope.

Lemma decimal_inj a b : decimal a = decimal b -> a = b.
Proof.
  unfold decimal. intros H.
  apply (f_equal NilEmpty.uint_of_string) in H. rewrite !NilEmpty.usu in H.
  injection H as H. apply (f_equal Nat.of_uint) in H.
  rewrite !DecimalNat.Unsigned.of_to in H. exact H.
Qed.

Lemma xhtml_ids_range files : forall i x,
  In x (map item_id (xhtml_items i files)) ->
  exists k, i <= k /\ x = "item" ++ decimal (k + 1).
Proof.
  induction files as [|f rest IH]; intros i x H; [destruct H|].
  simpl in H. destruct H as [H | H].
  - exists i. split; [lia | symmetry; exact H].
  - destruct (IH (S i) x H) as (k & Hk & E). exists k. split; [lia | exact E].
Qed.

(** The ids [item1], [item2], ... of the content files are pairwise
    distinct, whatever the files are. *)
Lemma xhtml_items_nodup files : forall i, NoDup (map item_id (xhtml_items i files)).
Proof.
  induction files as [|f rest IH]; intros i; simpl; constructor.
  - intros H. destruct (xhtml_ids_range rest (S i) _ H) as (k & Hk & E).
    simpl in E. injection E as E. apply decimal_inj in E. lia.
  - apply IH.
Qed.

Lemma nav_not_xhtml l : ~ In "nav" (xhtml_ids l).
Proof.
  intros H. destruct (xhtml_ids_range _ _ _ H) as (k & _ & E). discriminate E.
Qed.

Lemma manifest_ids_split l :
  manifest_ids l = (xhtml_ids l ++ asset_ids l ++ ["nav"])%list.
Proof.
  unfold manifest_ids, manifest_items, xhtml_ids, asset_ids.
  rewrite !map_app. rewrite <- !app_assoc. reflexivity.
Qed.

Definition clash : listing :=
  {| xhtml_files := ["chapter-one.xhtml"];
     styles_dir := None;
     images_dir := Some ["a-b.png"; "a_b.png"];
     fonts_dir := None |}.

(** C4, as the spec states it, fails: two images whose stems differ
    only in a character outside [a-zA-Z0-9] get the same id. *)
Lemma C4_manifest_ids_clash : ~ NoDup (manifest_ids clash).
Proof.
  change (manifest_ids clash) with ["item1"; "a_b"; "a_b"; "nav"].
  intros H. apply NoDup_cons_iff in H. destruct H as [_ H].
  apply NoDup_cons_iff in H. destruct H as [H _].
  apply H. left. reflexivity.
Qed.

(** C4 (amended): the ids of the manifest are unique whenever the ids
    taken from the stems of the stylesheet, image and font files are
    pairwise distinct and none of them is [nav] or an id of a content
    file; the ids of the content files and [nav] never clash. *)
Theorem C4_manifest_ids_unique_when (l : listing) :
  NoDup (asset_ids l) ->
  (forall x, In x (asset_ids l) -> x <> "nav" /\ ~ In x (xhtml_ids l)) ->
  NoDup (manifest_ids l).
Proof.
  intros Hnd Hout. rewrite manifest_ids_split.
  apply NoDup_app.
  - apply xhtml_items_nodup.
  - apply NoDup_app.
    + exact Hnd.
    + constructor; [intros [] | constructor].
    + intros x Hx [E | []]. destruct (Hout x Hx) as [N _]. apply N. symmetry. exact E.
  - intros x Hx K. apply in_app_or in K. destruct K as [K | [E | []]].
    + destruct (Hout x K) as [_ N]. exact (N Hx).
    + subst x. exact (nav_not_xhtml l Hx).
Qed.

Definition tidy : listing :=
  {| xhtml_files := ["chapter-one.xhtml"; "quizkey.xhtml"];
     styles_dir := Some ["style.css"; "fonts.css"];
     images_dir := Some ["cover.png"; "notes.txt"];
     fonts_dir := Some ["serif.woff2"] |}.

Lemma C4_manifest_ids_unique_witness : NoDup (manifest_ids tidy).
Proof.
  apply (C4_manifest_ids_unique_when tidy).
  - change (asset_ids tidy) with ["style"; "fonts"; "cover"; "serif"].
    repeat constructor; simpl; intuition discriminate.
  - change (asset_ids tidy) with ["style"; "fonts"; "cover"; "serif"].
    change (xhtml_ids tidy) with ["item1"; "item2"].
    intros x Hx. simpl in Hx.
    repeat (destruct Hx as [<- | Hx]; [split; [discriminate | simpl; intuition discriminate]|]).
    destruct Hx.
Defined.


Lemma xhtml_items_length files : forall i, length (xhtml_items i files) = length files.
Proof. induction files as [|f rest IH]; intros i; simpl; [reflexivity|]. rewrite IH. reflexivity. Qed.

Lemma xhtml_items_href files : forall i, map href (xhtml_items i files) = files.
Proof. induction files as [|f rest IH]; intros i; simpl; [reflexivity|]. rewrite IH. reflexivity. Qed.

Lemma xhtml_items_type files : forall i,
  Forall (fun it => media_type it = "application/xhtml+xml") (xhtml_items i files).
Proof. induction files as [|f rest IH]; intros i; simpl; constructor; [reflexivity | apply IH]. Qed.

Lemma manifest_head l :
  firstn (length (xhtml_files l)) (manifest_items l) = xhtml_items 0 (xhtml_files l).
Proof.
  unfold manifest_items.
  rewrite <- (xhtml_items_length (xhtml_files l) 0) at 1.
  rewrite firstn_app, Nat.sub_diag, firstn_all. simpl. apply app_nil_r.
Qed.

(** The spine follows the manifest: its references are, in order, the
    ids of the first items of the manifest, one for each content file;
    these items have the content files as their targets, in the sorted
    order, and the XHTML media type. *)
Theorem spine_follows_manifest (l : listing) :
  let content := firstn (length (xhtml_files l)) (manifest_items l) in
  spine_items l = map item_id content /\
  map href content = xhtml_files l /\
  Forall (fun it => media_type it = "application/xhtml+xml") content.
Proof.
  simpl. rewrite manifest_head. split; [reflexivity|]. split.
  - apply xhtml_items_href.
  - apply xhtml_items_type.
Qed.

Lemma NoDup_app_common {A} (a b : list A) x : In x a -> In x b -> ~ NoDup (a ++ b).
Proof.
  intros Ha Hb H. induction a as [|y a IH]; [destruct Ha|].
  simpl in H. apply NoDup_cons_iff in H. destruct H as [Hy H].
  destruct Ha as [-> | Ha].
  - apply Hy. apply in_or_app. right. exact Hb.
  - exact (IH Ha H).
Qed.

(** The navigation item is added without a look at the content files:
    when the table of contents [3-TableOfContents.xhtml] is one of the
    content files of the project root, the manifest lists that file
    twice, under an [item] id and under [nav]. *)
Theorem toc_listed_twice (l : listing) :
  In "3-TableOfContents.xhtml" (xhtml_files l) ->
  ~ NoDup (map href (manifest_items l)).
Proof.
  intros H. unfold manifest_items. rewrite map_app.
  apply (NoDup_app_common _ _ "3-TableOfContents.xhtml").
  - rewrite xhtml_items_href. exact H.
  - rewrite !map_app. apply in_or_app. right. apply in_or_app. right.
    apply in_or_app. right. left. reflexivity.
Qed.

Definition with_toc : listing :=
  {| xhtml_files := ["3-TableOfContents.xhtml"; "chapter-one.xhtml"];
     styles_dir := Some ["style.css"];
     images_dir := None;
     fonts_dir := None |}.

Lemma toc_listed_twice_witness : ~ NoDup (map href (manifest_items with_toc)).
Proof. apply (toc_listed_twice with_toc). left. reflexivity. Defined.

(** A character that the id pattern lets through, or the underscore
    that stands for the others. *)
Definition id_char (c : ascii) : bool := is_alnum c || char_eqb c "_"%char.

Lemma sanitize_chars s : forallb id_char (lit (sanitize s)) = true.
Proof.
  unfold sanitize, of_chars, lit. rewrite list_ascii_of_string_of_list_ascii.
  apply forallb_forall. intros c Hc. apply in_map_iff in Hc.
  destruct Hc as (x & <- & _). unfold id_char.
  destruct (is_alnum x) eqn:E; [rewrite E; reflexivity|].
  reflexivity.
Qed.

Lemma asset_items_ids dir mime names :
  Forall (fun it => forallb id_char (lit (item_id it)) = true) (asset_items dir mime names).
Proof.
  induction names as [|name rest IH]; simpl; [constructor|].
  destruct (mime (lower_string (suffix name))); [|exact IH].
  constructor; [apply sanitize_chars | exact IH].
Qed.

(** The ids of the image and font items are made of ASCII letters,
    digits and underscores only, whatever the file names are. *)
Theorem image_and_font_ids_clean (l : listing) :
  Forall (fun it => forallb id_char (lit (item_id it)) = true)
         (asset_items "images/" image_mime (entries (images_dir l))
          ++ asset_items "fonts/" font_mime (entries (fonts_dir l))).
Proof. apply Forall_app. split; apply asset_items_ids. Qed.

End ManifestFacts.

(** *** Properties of the archive packager *)

Module ArchiveFacts.
Import Archive.
Local Open Scope string_scope.
Local Open Scope list_scope.

(** Induction on directory trees. *)
Fixpoint node_tree_ind (P : node -> Prop)
    (HF : forall c, P (File c))
    (HD : forall d, Forall (fun e => P (snd e)) d -> P (Dir d))
    (x : node) : P x :=
  match x with
  | File c => HF c
  | Dir d =>
      HD d ((fix go (l : dir) : Forall (fun e => P (snd e)) l :=
               match l with
               | [] => @Forall_nil _ _
               | (n, y) :: r =>
                   @Forall_cons _ _ (n, y) r (node_tree_ind P HF HD y) (go r)
               end) d)
  end.

(** The entries written for the files directly in a directory and for
    the files of its subdirectories. *)
Definition here (d : dir) : list (path * string) :=
  flat_map (fun e => match e with
                     | (n, File c) => [([n], c)]
                     | (n, Dir _) => []
                     end) d.

Definition below (d : dir) : list (path * string) :=
  flat_map (fun e => match e with
                     | (n, y) => map (fun pc => (n :: fst pc, snd pc)) (walk y)
                     end) d.

(** [mimetype] is absent or a regular file, [META-INF] is absent or a
    directory, and [META-INF/container.xml] is not a directory. *)
Definition bootstrap_ok (root : dir) : bool :=
  match lookup "mimetype" root with
  | Some (Dir _) => false
  | _ => true
  end
  &&
  match lookup "META-INF" root with
  | Some (File _) => false
  | Some (Dir m) =>
      match lookup "container.xml" m with
      | Some (Dir _) => false
      | _ => true
      end
  | None => true
  end.

Lemma walk_dir d : walk (Dir d) = here d ++ below d.
Proof. reflexivity. Qed.

Lemma nodupb_sound l : nodupb l = true -> NoDup l.
Proof.
  induction l as [|x r IH]; simpl; intros H; [constructor|].
  apply andb_true_iff in H. destruct H as [H1 H2].
  constructor; [|apply IH; exact H2].
  intros K. apply negb_true_iff in H1.
  assert (E : existsb (String.eqb x) r = true).
  { apply existsb_exists. exists x. split; [exact K | apply String.eqb_refl]. }
  congruence.
Qed.

Lemma nodupb_complete l : NoDup l -> nodupb l = true.
Proof.
  induction 1 as [|x r Hx _ IH]; simpl; [reflexivity|].
  rewrite IH, andb_true_r. apply negb_true_iff.
  destruct (existsb (String.eqb x) r) eqn:E; [|reflexivity].
  apply existsb_exists in E. destruct E as (y & Hy & E).
  apply String.eqb_eq in E. subst y. contradiction.
Qed.

Lemma lookup_in n y d : lookup n d = Some y -> In (n, y) d.
Proof.
  induction d as [|[m x] r IH]; simpl; [discriminate|].
  destruct (String.eqb m n) eqn:E.
  - apply String.eqb_eq in E. subst. intros H. injection H as ->. left. reflexivity.
  - intros H. right. apply IH. exact H.
Qed.

Lemma in_lookup n y d : NoDup (map fst d) -> In (n, y) d -> lookup n d = Some y.
Proof.
  induction d as [|[m x] r IH]; simpl; intros Hnd H; [destruct H|].
  apply NoDup_cons_iff in Hnd. destruct Hnd as [Hm Hnd].
  destruct H as [H | H].
  - injection H as -> ->. rewrite String.eqb_refl. reflexivity.
  - destruct (String.eqb m n) eqn:E.
    + apply String.eqb_eq in E. subst. exfalso. apply Hm.
      apply in_map_iff. exists (n, y). split; [reflexivity | exact H].
    + apply IH; assumption.
Qed.

Lemma lookup_store_eq n x d : lookup n (store n x d) = Some x.
Proof.
  induction d as [|[m y] r IH]; simpl.
  - rewrite String.eqb_refl. reflexivity.
  - destruct (String.eqb m n) eqn:E; simpl; rewrite E; [reflexivity | exact IH].
Qed.

Lemma lookup_store_ne n m x d : n <> m -> lookup m (store n x d) = lookup m d.
Proof.
  intros N. induction d as [|[k y] r IH]; simpl.
  - apply String.eqb_neq in N. rewrite N. reflexivity.
  - destruct (String.eqb k n) eqn:E; simpl.
    + apply String.eqb_eq in E. subst k.
      apply String.eqb_neq in N. rewrite N. reflexivity.
    + rewrite IH. reflexivity.
Qed.

Lemma store_names n x d :
  map fst (store n x d) = map fst d \/
  (~ In n (map fst d) /\ map fst (store n x d) = map fst d ++ [n]).
Proof.
  induction d as [|[k y] r IH]; simpl.
  - right. split; [intros [] | reflexivity].
  - destruct (String.eqb k n) eqn:E; simpl.
    + left. reflexivity.
    + apply String.eqb_neq in E. destruct IH as [IH | [Hn IH]].
      * left. rewrite IH. reflexivity.
      * right. split; [intros [K | K]; [congruence | exact (Hn K)] | rewrite IH; reflexivity].
Qed.

Lemma store_names_nodup n x d : NoDup (map fst d) -> NoDup (map fst (store n x d)).
Proof.
  intros H. destruct (store_names n x d) as [E | [Hn E]]; rewrite E; [exact H|].
  apply NoDup_app; [exact H | constructor; [intros [] | constructor] |].
  intros a Ha [<- | []]. exact (Hn Ha).
Qed.

Lemma wf_dir d :
  wf (Dir d) = true <-> NoDup (map fst d) /\ Forall (fun e => wf (snd e) = true) d.
Proof.
  simpl. rewrite andb_true_iff, forallb_forall, Forall_forall. split.
  - intros [H1 H2]. split; [apply nodupb_sound; exact H1|].
    intros [n y] Hin. apply (H2 (n, y) Hin).
  - intros [H1 H2]. split; [apply nodupb_complete; exact H1|].
    intros [n y] Hin. apply (H2 (n, y) Hin).
Qed.

Lemma store_forall (P : string * node -> Prop) n x d :
  P (n, x) -> Forall P d -> Forall P (store n x d).
Proof.
  intros Hx H. induction H as [|[k y] r Hy Hr IH]; simpl.
  - constructor; [exact Hx | constructor].
  - destruct (String.eqb k n) eqn:E.
    + apply String.eqb_eq in E. subst k. constructor; [exact Hx | exact Hr].
    + constructor; [exact Hy | exact IH].
Qed.

Lemma wf_store n x d : wf (Dir d) = true -> wf x = true -> wf (Dir (store n x d)) = true.
Proof.
  intros Hd Hx. apply wf_dir in Hd. destruct Hd as [Hnd Hall].
  apply wf_dir. split; [apply store_names_nodup; exact Hnd|].
  apply store_forall; [exact Hx | exact Hall].
Qed.

Lemma in_here p c d : In (p, c) (here d) <-> exists n, p = [n] /\ In (n, File c) d.
Proof.
  unfold here. rewrite in_flat_map. split.
  - intros ([n y] & Hin & H). destruct y as [c'|sub]; [|destruct H].
    destruct H as [H | []]. injection H as <- <-. exists n. split; [reflexivity | exact Hin].
  - intros (n & -> & Hin). exists (n, File c). split; [exact Hin | left; reflexivity].
Qed.

Lemma in_below p c d :
  In (p, c) (below d) <->
  exists n y q, p = n :: q /\ In (n, y) d /\ In (q, c) (walk y).
Proof.
  unfold below. rewrite in_flat_map. split.
  - intros ([n y] & Hin & H). apply in_map_iff in H.
    destruct H as ([q c'] & E & Hq). simpl in E. injection E as <- <-.
    exists n, y, q. repeat split; assumption.
  - intros (n & y & q & -> & Hin & Hq). exists (n, y). split; [exact Hin|].
    apply in_map_iff. exists (q, c). split; [reflexivity | exact Hq].
Qed.

(** [os.walk] finds exactly the regular files below the directory. *)
Lemma walk_member x :
  wf x = true -> forall p c, In (p, c) (walk x) <-> (p <> [] /\ file_at p x = Some c).
Proof.
  induction x as [c0 | d IH] using node_tree_ind; intros Hwf p c.
  - simpl. split; [intros [] | intros [Hp H]].
    destruct p; [congruence | discriminate].
  - apply wf_dir in Hwf. destruct Hwf as [Hnd Hall].
    rewrite Forall_forall in IH, Hall.
    rewrite walk_dir, in_app_iff, in_here, in_below. split.
    + intros [(n & -> & Hin) | (n & y & q & -> & Hin & Hq)].
      * split; [discriminate|]. simpl. rewrite (in_lookup _ _ _ Hnd Hin). reflexivity.
      * split; [discriminate|]. simpl. rewrite (in_lookup _ _ _ Hnd Hin).
        apply (IH (n, y) Hin (Hall (n, y) Hin)). exact Hq.
    + intros [Hp H]. destruct p as [|n q]; [congruence|].
      simpl in H. destruct (lookup n d) as [y|] eqn:L; [|discriminate].
      apply lookup_in in L. destruct q as [|k q'].
      * left. exists n. split; [reflexivity|].
        destruct y as [c'|sub]; [|discriminate]. simpl in H. injection H as ->. exact L.
      * right. exists n, y, (k :: q'). split; [reflexivity|]. split; [exact L|].
        apply (IH (n, y) L (Hall (n, y) L)). split; [discriminate | exact H].
Qed.

Lemma walk_paths_heads d p :
  In p (map fst (here d ++ below d)) -> exists n q, p = n :: q /\ In n (map fst d).
Proof.
  intros H. apply in_map_iff in H. destruct H as ([p' c] & E & H). simpl in E. subst p'.
  apply in_app_iff in H. rewrite in_here, in_below in H.
  destruct H as [(n & -> & Hin) | (n & y & q & -> & Hin & _)].
  - exists n, []. split; [reflexivity|]. apply in_map_iff. exists (n, File c). split; [reflexivity | exact Hin].
  - exists n, q. split; [reflexivity|]. apply in_map_iff. exists (n, y). split; [reflexivity | exact Hin].
Qed.

Lemma map_cons_nodup (n : string) (l : list path) : NoDup l -> NoDup (map (cons n) l).
Proof.
  induction 1 as [|x r Hx _ IH]; simpl; constructor; [|exact IH].
  intros K. apply in_map_iff in K. destruct K as (y & E & Hy).
  injection E as ->. contradiction.
Qed.

Lemma dir_paths_nodup d :
  NoDup (map fst d) ->
  Forall (fun e => NoDup (map fst (walk (snd e)))) d ->
  NoDup (map fst (here d ++ below d)).
Proof.
  induction d as [|[n y] d IH]; intros Hnd Hall; [constructor|].
  simpl in Hnd. apply NoDup_cons_iff in Hnd. destruct Hnd as [Hn Hnd].
  inversion Hall as [|e l Hy Hall']; subst. simpl in Hy.
  specialize (IH Hnd Hall').
  set (h0 := match y with File c => [([n], c)] | Dir _ => [] end).
  set (b0 := map (fun pc : path * string => (n :: fst pc, snd pc)) (walk y)).
  change (here ((n, y) :: d)) with (h0 ++ here d).
  change (below ((n, y) :: d)) with (b0 ++ below d).
  apply (Permutation_NoDup (l := map fst ((h0 ++ b0) ++ (here d ++ below d)))).
  { apply Permutation_map. rewrite <- !app_assoc. apply Permutation_app_head.
    rewrite !app_assoc. apply Permutation_app_tail. apply Permutation_app_comm. }
  rewrite map_app. apply NoDup_app.
  - destruct y as [c|sub]; unfold h0, b0; simpl.
    + constructor; [intros [] | constructor].
    + rewrite map_map. simpl.
      rewrite <- (map_map fst (cons n)). apply map_cons_nodup. exact Hy.
  - exact IH.
  - intros p Hp Hq. apply walk_paths_heads in Hq. destruct Hq as (k & q & -> & Hk).
    assert (k = n) as ->; [|contradiction].
    apply in_map_iff in Hp. destruct Hp as ([p' c] & E & Hp). simpl in E. subst p'.
    apply in_app_iff in Hp. destruct Hp as [Hp | Hp].
    + unfold h0 in Hp. destruct y; [|destruct Hp].
      destruct Hp as [Hp | []]. injection Hp as <- _ _. reflexivity.
    + unfold b0 in Hp. apply in_map_iff in Hp. destruct Hp as ([q' c'] & E & _).
      injection E as <- _ _. reflexivity.
Qed.

(** No file is visited twice. *)
Lemma walk_nodup x : wf x = true -> NoDup (map fst (walk x)).
Proof.
  induction x as [c0 | d IH] using node_tree_ind; intros Hwf; [constructor|].
  apply wf_dir in Hwf. destruct Hwf as [Hnd Hall].
  rewrite walk_dir. apply dir_paths_nodup; [exact Hnd|].
  rewrite Forall_forall in *. intros e He. apply (IH e He). apply (Hall e He).
Qed.

Lemma filter_map_nodup {A B} (f : A -> B) (g : A -> bool) l :
  NoDup (map f l) -> NoDup (map f (filter g l)).
Proof.
  induction l as [|x r IH]; simpl; intros H; [constructor|].
  apply NoDup_cons_iff in H. destruct H as [Hx H].
  destruct (g x); simpl; [|apply IH; exact H].
  constructor; [|apply IH; exact H].
  intros K. apply Hx. apply in_map_iff in K. destruct K as (y & E & Hy).
  apply filter_In in Hy. apply in_map_iff. exists y. tauto.
Qed.

Lemma path_eqb_true p q : path_eqb p q = true <-> p = q.
Proof. unfold path_eqb. destruct (list_eq_dec string_dec p q); split; congruence. Qed.


Lemma file_at_store_eq n x d q : file_at (n :: q) (Dir (store n x d)) = file_at q x.
Proof. simpl. rewrite lookup_store_eq. reflexivity. Qed.

Lemma file_at_store_ne n k x d q :
  n <> k -> file_at (k :: q) (Dir (store n x d)) = file_at (k :: q) (Dir d).
Proof. intros N. simpl. rewrite (lookup_store_ne _ _ _ _ N). reflexivity. Qed.

(** The compressed entries written for a directory. *)
Definition others (root : dir) : list entry :=
  map deflated (filter (fun pc => negb (path_eqb (fst pc) ["mimetype"])) (walk (Dir root))).

Lemma others_spec root :
  wf (Dir root) = true ->
  NoDup (map arcname (others root)) /\
  forall e, In e (others root) <->
            (is_dir e = false /\ compress_type e = ZIP_DEFLATED /\
             arcname e <> ["mimetype"] /\
             file_at (arcname e) (Dir root) = Some (payload e)).
Proof.
  intros Hwf. unfold others. split.
  - rewrite map_map. apply filter_map_nodup. exact (walk_nodup (Dir root) Hwf).
  - intros e. rewrite in_map_iff. split.
    + intros ([p c] & <- & H). apply filter_In in H. destruct H as [Hin Hg].
      simpl in Hg. apply negb_true_iff in Hg.
      apply (walk_member _ Hwf) in Hin. destruct Hin as [_ Hf].
      simpl. repeat split; try assumption.
      intros E. apply path_eqb_true in E. congruence.
    + intros (Hd & Hc & Hn & Hf). destruct e as [p isd c ct]. simpl in Hd, Hc, Hn, Hf |- *. subst.
      exists (p, c). split; [reflexivity|]. apply filter_In. split.
      * apply (walk_member _ Hwf). split; [|exact Hf].
        intros ->. discriminate.
      * simpl. apply negb_true_iff. destruct (path_eqb p ["mimetype"]) eqn:E; [|reflexivity].
        apply path_eqb_true in E. contradiction.
Qed.

Lemma wf_lookup n y d : wf (Dir d) = true -> lookup n d = Some y -> wf y = true.
Proof.
  intros H L. apply wf_dir in H. destruct H as [_ H]. rewrite Forall_forall in H.
  apply (H (n, y)). apply lookup_in. exact L.
Qed.

Definition sample_root : dir :=
  [ ("chapter-one.xhtml", File "<html/>"); ("mimetype", File "text/plain") ].

(** C6, as the spec states it, fails: a mimetype file that is already
    there is archived with the content it has. *)
Lemma C6_existing_mimetype_kept :
  exists root' first rest,
    create_epub sample_root "content.opf" = Some (root', first :: rest) /\
    wf (Dir sample_root) = true /\
    arcname first = ["mimetype"] /\
    payload first <> "application/epub+zip".
Proof.
  eexists. eexists. eexists. split; [reflexivity|].
  split; [reflexivity|]. split; [reflexivity|]. discriminate.
Qed.

(** C6 (amended): for a project directory in which [mimetype] is absent
    or a regular file and the container file can be written, the
    first entry of the archive is named [mimetype], is stored, and
    carries the content of the project's [mimetype] file, which is
    the literal [application/epub+zip] when the file had to be
    created; every other regular file of the directory as the function
    leaves it, the generated [META-INF/container.xml] included, has
    exactly one entry, compressed, and the files that were there
    before are still there. *)
Theorem C6_archive_layout (root : dir) (opf_rel : string) :
  wf (Dir root) = true ->
  bootstrap_ok root = true ->
  exists root' rest,
    create_epub root opf_rel
    = Some (root',
            {| arcname := ["mimetype"]; is_dir := false;
               payload := match lookup "mimetype" root with
                          | Some (File c) => c
                          | _ => mimetype_literal
                          end;
               compress_type := ZIP_STORED |} :: rest) /\
    NoDup (map arcname rest) /\
    (forall e, In e rest <->
               (is_dir e = false /\ compress_type e = ZIP_DEFLATED /\
                arcname e <> ["mimetype"] /\
                file_at (arcname e) (Dir root') = Some (payload e))) /\
    file_at ["META-INF"; "container.xml"] (Dir root') = Some (container_xml opf_rel) /\
    (forall p c, file_at p (Dir root) = Some c ->
                 p <> ["META-INF"; "container.xml"] ->
                 file_at p (Dir root') = Some c).
Proof.
  intros Hwf Hok. unfold bootstrap_ok in Hok. apply andb_true_iff in Hok.
  destruct Hok as [Hmime Hmeta].
  set (root1 := match lookup "mimetype" root with
                | Some _ => root
                | None => store "mimetype" (File mimetype_literal) root
                end).
  set (c0 := match lookup "mimetype" root with
             | Some (File c) => c
             | _ => mimetype_literal
             end).
  assert (L1 : lookup "mimetype" root1 = Some (File c0)).
  { unfold root1, c0. destruct (lookup "mimetype" root) as [[c|sub]|] eqn:L.
    - exact L.
    - discriminate.
    - apply lookup_store_eq. }
  assert (W1 : wf (Dir root1) = true).
  { unfold root1. destruct (lookup "mimetype" root); [exact Hwf|].
    apply wf_store; [exact Hwf | reflexivity]. }
  assert (M1 : lookup "META-INF" root1 = lookup "META-INF" root).
  { unfold root1. destruct (lookup "mimetype" root); [reflexivity|].
    apply lookup_store_ne. discriminate. }
  assert (F1 : forall p c, file_at p (Dir root) = Some c -> file_at p (Dir root1) = Some c).
  { intros p c H. unfold root1. destruct (lookup "mimetype" root) eqn:L; [exact H|].
    destruct p as [|k q]; [discriminate|].
    destruct (string_dec "mimetype" k) as [<- | N].
    - simpl in H. rewrite L in H. discriminate.
    - rewrite (file_at_store_ne _ _ _ _ _ N). exact H. }
  set (m := match lookup "META-INF" root with Some (Dir m) => m | _ => [] end).
  assert (Wm : wf (Dir m) = true).
  { unfold m. destruct (lookup "META-INF" root) as [[c|sub]|] eqn:L; try reflexivity.
    apply (wf_lookup _ _ _ Hwf L). }
  assert (Hc : match lookup "container.xml" m with Some (Dir _) => False | _ => True end).
  { unfold m. destruct (lookup "META-INF" root) as [[c|sub]|]; try exact I.
    destruct (lookup "container.xml" sub) as [[c|s2]|]; try exact I. discriminate. }
  set (m' := store "container.xml" (File (container_xml opf_rel)) m).
  set (root2 := store "META-INF" (Dir m') root1).
  assert (E : create_epub root opf_rel = Some (root2, mimetype_entry (File c0) :: others root2)).
  { unfold create_epub. fold root1. rewrite M1.
    assert (Em : match lookup "META-INF" root with
                 | Some (File _) => None
                 | Some (Dir m0) => Some m0
                 | None => Some []
                 end = Some m).
    { unfold m. destruct (lookup "META-INF" root) as [[c|sub]|]; try reflexivity. discriminate. }
    rewrite Em. fold m'. fold root2.
    assert (L2 : lookup "mimetype" root2 = Some (File c0)).
    { unfold root2. rewrite lookup_store_ne by discriminate. exact L1. }
    rewrite L2. unfold others.
    destruct (lookup "container.xml" m) as [[c|s2]|]; try reflexivity. destruct Hc. }
  assert (W2 : wf (Dir root2) = true).
  { unfold root2. apply wf_store; [exact W1|]. unfold m'.
    apply wf_store; [exact Wm | reflexivity]. }
  exists root2, (others root2).
  destruct (others_spec root2 W2) as [Hnd Hin].
  split; [exact E|]. split; [exact Hnd|]. split; [exact Hin|]. split.
  - unfold root2. rewrite file_at_store_eq. unfold m'. rewrite file_at_store_eq. reflexivity.
  - intros p c H Hp. destruct p as [|k q]; [discriminate|].
    destruct (string_dec "META-INF" k) as [<- | N].
    + unfold root2. rewrite file_at_store_eq.
      simpl in H. destruct (lookup "META-INF" root) as [[c'|sub]|] eqn:L; try discriminate.
      change sub with m in H.
      destruct q as [|k2 q2]; [discriminate|].
      destruct (string_dec "container.xml" k2) as [<- | N2].
      * exfalso. simpl in H.
        destruct (lookup "container.xml" m) as [[c'|s2]|]; try discriminate; [|destruct Hc].
        destruct q2; [|discriminate]. apply Hp. reflexivity.
      * unfold m'. rewrite (file_at_store_ne _ _ _ _ _ N2). exact H.
    + unfold root2. rewrite (file_at_store_ne _ _ _ _ _ N). apply F1. exact H.
Qed.

Definition bare_root : dir :=
  [ ("chapter-one.xhtml", File "<html/>");
    ("images", Dir [ ("cover.png", File "PNG") ]) ].

Lemma C6_archive_layout_witness :
  exists root' rest,
    create_epub bare_root "content.opf"
    = Some (root',
            {| arcname := ["mimetype"]; is_dir := false;
               payload := match lookup "mimetype" bare_root with
                          | Some (File c) => c
                          | _ => mimetype_literal
                          end;
               compress_type := ZIP_STORED |} :: rest) /\
    NoDup (map arcname rest) /\
    (forall e, In e rest <->
               (is_dir e = false /\ compress_type e = ZIP_DEFLATED /\
                arcname e <> ["mimetype"] /\
                file_at (arcname e) (Dir root') = Some (payload e))) /\
    file_at ["META-INF"; "container.xml"] (Dir root') = Some (container_xml "content.opf") /\
    (forall p c, file_at p (Dir bare_root) = Some c ->
                 p <> ["META-INF"; "container.xml"] ->
                 file_at p (Dir root') = Some c).
Proof.
  apply (C6_archive_layout bare_root "content.opf"); reflexivity.
Defined.


Lemma store_store n x d : store n x (store n x d) = store n x d.
Proof.
  induction d as [|[k y] r IH]; simpl.
  - rewrite String.eqb_refl. reflexivity.
  - destruct (String.eqb k n) eqn:E; simpl; rewrite E; [reflexivity|].
    rewrite IH. reflexivity.
Qed.


Lemma meta_after_mimetype root :
  lookup "META-INF"
    (match lookup "mimetype" root with
     | Some _ => root
     | None => store "mimetype" (File mimetype_literal) root
     end) = lookup "META-INF" root.
Proof.
  destruct (lookup "mimetype" root); [reflexivity|].
  apply lookup_store_ne. discriminate.
Qed.

Lemma mimetype_after_bootstrap root x :
  exists y,
    lookup "mimetype"
      (store "META-INF" x
         (match lookup "mimetype" root with
          | Some _ => root
          | None => store "mimetype" (File mimetype_literal) root
          end)) = Some y.
Proof.
  rewrite lookup_store_ne by discriminate.
  destruct (lookup "mimetype" root) as [y|] eqn:E.
  - exists y. exact E.
  - eexists. apply lookup_store_eq.
Qed.


(** Packaging a project a second time changes nothing: the directory
    that [create_epub] leaves is left as it is by a second run, which
    writes the same archive. *)
Theorem create_epub_again (root root' : dir) (opf_rel : string) (entries : list entry) :
  create_epub root opf_rel = Some (root', entries) ->
  create_epub root' opf_rel = Some (root', entries).
Proof.
  unfold create_epub at 1. rewrite meta_after_mimetype.
  set (root1 := match lookup "mimetype" root with
                | Some _ => root
                | None => store "mimetype" (File mimetype_literal) root
                end).
  set (m := match lookup "META-INF" root with Some (Dir m0) => m0 | _ => [] end).
  set (m' := store "container.xml" (File (container_xml opf_rel)) m).
  set (root2 := store "META-INF" (Dir m') root1).
  intros H.
  assert (E : exists y, lookup "mimetype" root2 = Some y /\
                        root' = root2 /\
                        entries = mimetype_entry y
                                  :: map deflated
                                       (filter (fun pc => negb (path_eqb (fst pc) ["mimetype"]))
                                               (walk (Dir root2)))).
  { destruct (mimetype_after_bootstrap root (Dir m')) as [y Hy].
    fold root1 in Hy. fold root2 in Hy. exists y. split; [exact Hy|].
    unfold m', m in root2. unfold root2.
    destruct (lookup "META-INF" root) as [[c|m0]|]; try discriminate.
    - destruct (lookup "container.xml" m0) as [[c|s]|]; try discriminate;
        unfold root2, m', m in Hy; rewrite Hy in H; injection H as <- <-;
        split; reflexivity.
    - simpl in H. unfold root2, m', m in Hy. simpl in Hy. rewrite Hy in H.
      injection H as <- <-. split; reflexivity. }
  destruct E as (y & Hy & -> & ->).
  unfold create_epub. rewrite Hy.
  assert (Em : lookup "META-INF" root2 = Some (Dir m')).
  { unfold root2. apply lookup_store_eq. }
  rewrite Em.
  assert (Ec : lookup "container.xml" m' = Some (File (container_xml opf_rel))).
  { unfold m'. apply lookup_store_eq. }
  rewrite Ec.
  assert (S1 : store "container.xml" (File (container_xml opf_rel)) m' = m').
  { unfold m'. apply store_store. }
  rewrite S1.
  assert (S2 : store "META-INF" (Dir m') root2 = root2).
  { unfold root2. apply store_store. }
  rewrite S2, Hy. reflexivity.
Qed.

Lemma create_epub_again_witness :
  exists root' entries,
    create_epub sample_root "content.opf" = Some (root', entries) /\
    create_epub root' "content.opf" = Some (root', entries).
Proof.
  eexists. eexists. split; [reflexivity|].
  apply (create_epub_again sample_root). reflexivity.
Defined.

End ArchiveFacts.

(** *** Properties of the tree operations *)

Module DomFacts.
Import Text Dom.
Local Open Scope string_scope.
Local Open Scope list_scope.

(** Induction on document trees. *)
Fixpoint node_forest_ind (P : node -> Prop)
    (HT : forall u n a ks, Forall P ks -> P (Tag u n a ks))
    (HS : forall s, P (NavigableString s))
    (HC : forall s, P (Comment s))
    (t : node) : P t :=
  match t with
  | Tag u n a ks =>
      HT u n a ks ((fix go (l : list node) : Forall P l :=
                      match l with
                      | [] => @Forall_nil _ _
                      | k :: r => @Forall_cons _ _ k r (node_forest_ind P HT HS HC k) (go r)
                      end) ks)
  | NavigableString s => HS s
  | Comment s => HC s
  end.

(** The identities of a sequence of siblings. *)
Definition uids_f (ks : list node) : list nat := flat_map uids ks.

(** A node without its contents. *)
Definition label (k : node) : node :=
  match k with
  | Tag v n a _ => Tag v n a []
  | _ => k
  end.

Lemma uids_tag u n a ks : uids (Tag u n a ks) = u :: uids_f ks.
Proof. reflexivity. Qed.

Lemma uids_f_cons k ks : uids_f (k :: ks) = uids k ++ uids_f ks.
Proof. reflexivity. Qed.

Lemma uids_f_app ks ks' : uids_f (ks ++ ks') = uids_f ks ++ uids_f ks'.
Proof. unfold uids_f. apply flat_map_app. Qed.

Lemma uids_f_in u ks : In u (uids_f ks) <-> exists k, In k ks /\ In u (uids k).
Proof. unfold uids_f. apply in_flat_map. Qed.

Lemma has_uid_true u x : has_uid u x = true -> exists n a ks, x = Tag u n a ks.
Proof.
  destruct x as [v n a ks | s | s]; simpl; try discriminate.
  intros H. apply Nat.eqb_eq in H. subst. eauto.
Qed.

Lemma first_some_none {A B} (f : A -> option B) l :
  (forall x, In x l -> f x = None) -> first_some f l = None.
Proof.
  induction l as [|x r IH]; intros H; simpl; [reflexivity|].
  rewrite (H x) by (left; reflexivity). apply IH. intros y Hy. apply H. right. exact Hy.
Qed.

Lemma first_some_some {A B} (f : A -> option B) l y :
  first_some f l = Some y ->
  exists pre x post, l = pre ++ x :: post /\ f x = Some y /\
                     forall z, In z pre -> f z = None.
Proof.
  induction l as [|x r IH]; simpl; [discriminate|].
  destruct (f x) as [y'|] eqn:E.
  - intros H. injection H as <-. exists [], x, r. repeat split; [exact E | intros z []].
  - intros H. destruct (IH H) as (pre & x' & post & -> & Hx & Hpre).
    exists (x :: pre), x', post. repeat split; [exact Hx|].
    intros z [<- | Hz]; [exact E | apply Hpre; exact Hz].
Qed.

Lemma first_some_at {A B} (f : A -> option B) pre x post y :
  (forall z, In z pre -> f z = None) -> f x = Some y ->
  first_some f (pre ++ x :: post) = Some y.
Proof.
  intros Hpre Hx. induction pre as [|z pre IH]; simpl.
  - rewrite Hx. reflexivity.
  - rewrite (Hpre z) by (left; reflexivity). apply IH.
    intros w Hw. apply Hpre. right. exact Hw.
Qed.

(** [subtree] finds a tag with the identity asked for, and only where
    that identity occurs. *)
Lemma subtree_absent u t : ~ In u (uids t) -> subtree u t = None.
Proof.
  induction t as [v n a ks IH | s | s] using node_forest_ind; intros H; try reflexivity.
  simpl. destruct (Nat.eqb u v) eqn:E.
  - apply Nat.eqb_eq in E. subst. exfalso. apply H. left. reflexivity.
  - apply first_some_none. intros k Hk. rewrite Forall_forall in IH.
    apply (IH k Hk). intros K. apply H. right. apply uids_f_in. exists k. tauto.
Qed.

Lemma subtree_found u t x :
  subtree u t = Some x -> has_uid u x = true /\ In u (uids t).
Proof.
  revert x. induction t as [v n a ks IH | s | s] using node_forest_ind;
    intros x H; try discriminate.
  simpl in H. destruct (Nat.eqb u v) eqn:E.
  - injection H as <-. apply Nat.eqb_eq in E. subst. simpl.
    rewrite Nat.eqb_refl. split; [reflexivity | left; reflexivity].
  - apply first_some_some in H. destruct H as (pre & k & post & -> & Hk & _).
    rewrite Forall_forall in IH.
    assert (Hin : In k (pre ++ k :: post)) by (apply in_or_app; right; left; reflexivity).
    destruct (IH k Hin x Hk) as [H1 H2]. split; [exact H1|].
    right. apply uids_f_in. exists k. tauto.
Qed.

Lemma subtree_root u n a ks : subtree u (Tag u n a ks) = Some (Tag u n a ks).
Proof. simpl. rewrite Nat.eqb_refl. reflexivity. Qed.

Lemma subtree_present u t : In u (uids t) -> exists x, subtree u t = Some x.
Proof.
  intros H. destruct (subtree u t) as [x|] eqn:E; [eauto|].
  exfalso. revert H E.
  induction t as [v n a ks IH | s | s] using node_forest_ind; intros H E; try destruct H.
  - subst. rewrite subtree_root in E. discriminate.
  - simpl in E. destruct (Nat.eqb u v); [discriminate|].
    apply uids_f_in in H. destruct H as (k & Hk & Hu).
    rewrite Forall_forall in IH.
    destruct (subtree u k) as [x|] eqn:Ek; [|exact (IH k Hk Hu Ek)].
    clear IH. induction ks as [|k' r IHr]; [destruct Hk|].
    simpl in E. destruct (subtree u k') eqn:Ek'; [discriminate|].
    destruct Hk as [-> | Hk]; [congruence | exact (IHr Hk E)].
Qed.

(** [modify] leaves a tree alone in which the identity does not
    occur. *)
Lemma modify_absent u f t : ~ In u (uids t) -> modify u f t = t.
Proof.
  induction t as [v n a ks IH | s | s] using node_forest_ind; intros H; try reflexivity.
  simpl. destruct (Nat.eqb u v) eqn:E.
  - apply Nat.eqb_eq in E. subst. exfalso. apply H. left. reflexivity.
  - f_equal. rewrite <- (map_id ks) at 2. apply map_ext_in. intros k Hk.
    rewrite Forall_forall in IH. apply (IH k Hk).
    intros K. apply H. right. apply uids_f_in. exists k. tauto.
Qed.

(** After [modify] the tag is what [f] makes of it. *)
Lemma subtree_modify_same u f t x :
  (forall y, has_uid u y = true -> has_uid u (f y) = true) ->
  subtree u t = Some x -> subtree u (modify u f t) = Some (f x).
Proof.
  intros Hf. revert x.
  induction t as [v n a ks IH | s | s] using node_forest_ind; intros x H; try discriminate.
  simpl in H. simpl modify. destruct (Nat.eqb u v) eqn:E.
  - injection H as <-. apply Nat.eqb_eq in E. subst v.
    assert (Hu : has_uid u (f (Tag u n a ks)) = true).
    { apply Hf. simpl. apply Nat.eqb_refl. }
    apply has_uid_true in Hu. destruct Hu as (n' & a' & ks' & ->). apply subtree_root.
  - simpl. rewrite E.
    apply first_some_some in H. destruct H as (pre & k & post & -> & Hk & Hpre).
    rewrite map_app. simpl map. apply first_some_at.
    + intros z Hz. apply in_map_iff in Hz. destruct Hz as (z0 & <- & Hz0).
      rewrite modify_absent; [apply Hpre; exact Hz0|].
      intros K. destruct (subtree_present u z0 K) as (y & Hy).
      rewrite (Hpre z0 Hz0) in Hy. discriminate.
    + rewrite Forall_forall in IH. apply IH; [|exact Hk].
      apply in_or_app. right. left. reflexivity.
Qed.


Lemma NoDup_app_inv {A} (l l' : list A) :
  NoDup (l ++ l') -> NoDup l /\ NoDup l' /\ forall x, In x l -> ~ In x l'.
Proof.
  induction l as [|a l IH]; simpl; intros H.
  - repeat split; [constructor | exact H | intros x []].
  - apply NoDup_cons_iff in H. destruct H as [Ha H].
    destruct (IH H) as (H1 & H2 & H3). repeat split.
    + constructor; [|exact H1]. intros K. apply Ha. apply in_or_app. left. exact K.
    + exact H2.
    + intros x [<- | Hx] K; [apply Ha; apply in_or_app; right; exact K | exact (H3 x Hx K)].
Qed.

(** What uniqueness of the identities says about one of a sequence of
    siblings. *)
Lemma NoDup_forest_at pre k post :
  NoDup (uids_f (pre ++ k :: post)) ->
  NoDup (uids k) /\
  (forall z u, In z pre -> In u (uids k) -> ~ In u (uids z)) /\
  (forall z u, In z post -> In u (uids k) -> ~ In u (uids z)).
Proof.
  rewrite uids_f_app, uids_f_cons. intros H.
  destruct (NoDup_app_inv _ _ H) as (_ & H2 & H3).
  destruct (NoDup_app_inv _ _ H2) as (H4 & _ & H6).
  repeat split.
  - exact H4.
  - intros z u Hz Hu K. apply (H3 u).
    + apply uids_f_in. exists z. tauto.
    + apply in_or_app. left. exact Hu.
  - intros z u Hz Hu K. apply (H6 u Hu). apply uids_f_in. exists z. tauto.
Qed.

Lemma NoDup_tag u n a ks :
  NoDup (uids (Tag u n a ks)) -> ~ In u (uids_f ks) /\ NoDup (uids_f ks).
Proof. rewrite uids_tag. intros H. apply NoDup_cons_iff in H. exact H. Qed.

Lemma NoDup_child u n a ks k : NoDup (uids (Tag u n a ks)) -> In k ks -> NoDup (uids k).
Proof.
  intros H Hk. apply NoDup_tag in H. destruct H as [_ H].
  apply in_split in Hk. destruct Hk as (pre & post & ->).
  apply (NoDup_forest_at _ _ _ H).
Qed.

Lemma descendants_in b t :
  In b (descendants t) <->
  exists k, In k (children t) /\ (b = k \/ In b (descendants k)).
Proof.
  destruct t as [v n a ks | s | s]; simpl.
  - rewrite in_flat_map. split; intros (k & Hk & H); exists k; (split; [exact Hk|]).
    + destruct H as [H | H]; [left; symmetry; exact H | right; exact H].
    + destruct H as [H | H]; [left; symmetry; exact H | right; exact H].
  - split; [intros [] | intros (k & [] & _)].
  - split; [intros [] | intros (k & [] & _)].
Qed.

Lemma descendants_uids b t u :
  In b (descendants t) -> In u (uids b) -> In u (uids_f (children t)).
Proof.
  revert b. induction t as [v n a ks IH | s | s] using node_forest_ind;
    intros b Hb Hu; try destruct Hb.
  apply descendants_in in Hb. destruct Hb as (k & Hk & H).
  simpl in Hk. simpl. apply uids_f_in. exists k. split; [exact Hk|].
  destruct H as [-> | H]; [exact Hu|].
  rewrite Forall_forall in IH.
  pose proof (IH k Hk b H Hu) as K. destruct k as [w m c ks' | s | s]; try destruct K.
  right. exact K.
Qed.

(** With unique identities, the tag found by a search is the tag that
    its identity denotes. *)
Lemma subtree_of_descendant t :
  NoDup (uids t) -> forall b u, In b (descendants t) -> has_uid u b = true ->
  subtree u t = Some b.
Proof.
  induction t as [v n a ks IH | s | s] using node_forest_ind;
    intros Hnd b u Hb Hu; try destruct Hb.
  apply has_uid_true in Hu. destruct Hu as (bn & ba & bks & ->).
  assert (Hub : In u (uids (Tag u bn ba bks))) by (left; reflexivity).
  pose proof (descendants_uids _ _ _ Hb Hub) as Hin. simpl in Hin.
  destruct (NoDup_tag _ _ _ _ Hnd) as [Hv Hf].
  apply descendants_in in Hb. destruct Hb as (k & Hk & H). simpl in Hk.
  simpl. destruct (Nat.eqb u v) eqn:E.
  { apply Nat.eqb_eq in E. subst. contradiction. }
  apply in_split in Hk. destruct Hk as (pre & post & ->).
  destruct (NoDup_forest_at _ _ _ Hf) as (Hk1 & Hk2 & _).
  assert (Huk : In u (uids k)).
  { destruct H as [<- | H]; [exact Hub|].
    pose proof (descendants_uids _ _ _ H Hub) as K.
    destruct k as [w m c ks' | s | s]; try destruct K. right. exact K. }
  apply first_some_at.
  - intros z Hz. apply subtree_absent. apply (Hk2 z u Hz Huk).
  - destruct H as [<- | H]; [apply subtree_root|].
    rewrite Forall_forall in IH. apply IH.
    + apply in_or_app. right. left. reflexivity.
    + exact Hk1.
    + exact H.
    + simpl. apply Nat.eqb_refl.
Qed.

Lemma hd_error_in {A} (l : list A) x : hd_error l = Some x -> In x l.
Proof. destruct l; simpl; [discriminate|]. intros H. injection H as ->. left. reflexivity. Qed.

Lemma find_spec p t b : find p t = Some b -> In b (descendants t) /\ p b = true.
Proof.
  unfold find, find_all. intros H. apply hd_error_in in H. apply filter_In in H. exact H.
Qed.

Lemma find_subtree p t u n a ks :
  NoDup (uids t) -> find p t = Some (Tag u n a ks) -> subtree u t = Some (Tag u n a ks).
Proof.
  intros Hnd H. apply find_spec in H. destruct H as [H _].
  apply (subtree_of_descendant t Hnd _ u H). simpl. apply Nat.eqb_refl.
Qed.


(** Attributes: what is read after a write. *)
Lemma get_set_same k v a : get_attr k (set_attr k v a) = Some v.
Proof.
  induction a as [|[k' w] r IH]; simpl.
  - rewrite String.eqb_refl. reflexivity.
  - destruct (String.eqb k' k) eqn:E; simpl; rewrite E; [reflexivity | exact IH].
Qed.

Lemma get_set_other k k' v a : k <> k' -> get_attr k (set_attr k' v a) = get_attr k a.
Proof.
  intros N. induction a as [|[k0 w] r IH]; simpl.
  - apply not_eq_sym in N. apply String.eqb_neq in N. rewrite N. reflexivity.
  - destruct (String.eqb k0 k') eqn:E; simpl.
    + apply String.eqb_eq in E. subst k0.
      apply not_eq_sym in N. apply String.eqb_neq in N. rewrite N. reflexivity.
    + destruct (String.eqb k0 k); [reflexivity | exact IH].
Qed.

Lemma get_del_same k a : get_attr k (del_attr k a) = None.
Proof.
  induction a as [|[k' w] r IH]; simpl; [reflexivity|].
  destruct (String.eqb k' k) eqn:E; simpl; [exact IH|].
  rewrite E. exact IH.
Qed.

Lemma get_del_other k k' a : k <> k' -> get_attr k (del_attr k' a) = get_attr k a.
Proof.
  intros N. induction a as [|[k0 w] r IH]; simpl; [reflexivity|].
  destruct (String.eqb k0 k') eqn:E; simpl.
  - apply String.eqb_eq in E. subst k0.
    apply not_eq_sym in N. apply String.eqb_neq in N. rewrite N. exact IH.
  - destruct (String.eqb k0 k); [reflexivity | exact IH].
Qed.

Lemma attr_value_eqb_eq v w : attr_value_eqb v w = true <-> v = w.
Proof.
  destruct v as [s | l], w as [s' | l']; simpl.
  - rewrite String.eqb_eq. split; [intros ->; reflexivity | intros H; injection H as ->; reflexivity].
  - split; discriminate.
  - split; discriminate.
  - destruct (list_eq_dec string_dec l l') as [-> | N].
    + split; reflexivity.
    + split; [discriminate | intros H; injection H as H; contradiction].
Qed.

Lemma forallb_map {A B} (p : B -> bool) (f : A -> B) (l : list A) :
  forallb p (map f l) = forallb (fun x => p (f x)) l.
Proof. induction l as [|x r IH]; simpl; [reflexivity|]. rewrite IH. reflexivity. Qed.

(** Every tag of a tree, the root included, passes a test on its name
    and attributes. *)
Fixpoint every_tag (p : string -> attrs -> bool) (t : node) : bool :=
  match t with
  | Tag _ n a ks => p n a && forallb (every_tag p) ks
  | _ => true
  end.

Lemma every_tag_map_attrs p g t :
  (forall n a, p n (g n a) = true) -> every_tag p (map_attrs g t) = true.
Proof.
  intros H. induction t as [v n a ks IH | s | s] using node_forest_ind; try reflexivity.
  simpl. rewrite H. simpl. rewrite forallb_map. apply forallb_forall.
  rewrite Forall_forall in IH. exact IH.
Qed.

Lemma every_tag_map_attrs_keep p g t :
  (forall n a, p n a = true -> p n (g n a) = true) ->
  every_tag p t = true -> every_tag p (map_attrs g t) = true.
Proof.
  intros H. induction t as [v n a ks IH | s | s] using node_forest_ind; try reflexivity.
  simpl. intros K. apply andb_true_iff in K. destruct K as [K1 K2].
  rewrite (H n a K1). simpl. rewrite forallb_map. apply forallb_forall.
  intros k Hk. rewrite Forall_forall in IH. apply (IH k Hk).
  rewrite forallb_forall in K2. apply (K2 k Hk).
Qed.

Lemma every_tag_modify p u f t :
  (forall x, every_tag p x = true -> every_tag p (f x) = true) ->
  every_tag p t = true -> every_tag p (modify u f t) = true.
Proof.
  intros H. induction t as [v n a ks IH | s | s] using node_forest_ind; try reflexivity.
  intros K. simpl modify. destruct (Nat.eqb u v); [apply H; exact K|].
  simpl in K |- *. apply andb_true_iff in K. destruct K as [K1 K2].
  rewrite K1. simpl. rewrite forallb_map. apply forallb_forall.
  intros k Hk. rewrite Forall_forall in IH. apply (IH k Hk).
  rewrite forallb_forall in K2. apply (K2 k Hk).
Qed.

Lemma every_tag_descendants p t :
  every_tag p t = true ->
  forall v n a ks, In (Tag v n a ks) (descendants t) -> p n a = true.
Proof.
  induction t as [u m b cs IH | s | s] using node_forest_ind; intros K v n a ks Hin;
    try destruct Hin.
  simpl in K. apply andb_true_iff in K. destruct K as [_ K].
  rewrite forallb_forall in K.
  apply descendants_in in Hin. destruct Hin as (k & Hk & H). simpl in Hk.
  specialize (K k Hk). destruct H as [<- | H].
  - simpl in K. apply andb_true_iff in K. tauto.
  - rewrite Forall_forall in IH. apply (IH k Hk K v n a ks H).
Qed.

Lemma descendants_map_attrs g t :
  descendants (map_attrs g t) = map (map_attrs g) (descendants t).
Proof.
  induction t as [v n a ks IH | s | s] using node_forest_ind; try reflexivity.
  simpl. induction ks as [|k r IHr]; [reflexivity|].
  inversion IH as [|k' r' Hk Hr]; subst.
  simpl. rewrite map_app. rewrite Hk. do 2 f_equal. apply IHr. exact Hr.
Qed.

Lemma uids_map_attrs g t : uids (map_attrs g t) = uids t.
Proof.
  induction t as [v n a ks IH | s | s] using node_forest_ind; try reflexivity.
  simpl. f_equal. induction ks as [|k r IHr]; [reflexivity|].
  inversion IH as [|k' r' Hk Hr]; subst. simpl. rewrite Hk. f_equal. apply IHr. exact Hr.
Qed.


(** [tag.append] of several new nodes. *)
Definition grow (new : list node) (t : node) : node :=
  match t with
  | Tag v n a ks => Tag v n a (ks ++ new)
  | _ => t
  end.

Lemma label_grow new y : label (grow new y) = label y.
Proof. destruct y; reflexivity. Qed.

Lemma has_uid_grow u new y : has_uid u y = true -> has_uid u (grow new y) = true.
Proof. destruct y; simpl; tauto. Qed.

Lemma label_modify u f k : (forall y, label (f y) = label y) -> label (modify u f k) = label k.
Proof.
  intros H. destruct k as [v n a ks | s | s]; try reflexivity.
  simpl. destruct (Nat.eqb u v); [apply H | reflexivity].
Qed.

Lemma fresh_above t x : In x (uids t) -> x < fresh t.
Proof.
  intros H. unfold fresh.
  assert (K : Forall (fun k => k <= list_max (uids t)) (uids t)).
  { apply list_max_le. apply Nat.le_refl. }
  rewrite Forall_forall in K. specialize (K x H). lia.
Qed.

Lemma subtree_uids u t x : subtree u t = Some x -> incl (uids x) (uids t).
Proof.
  revert x. induction t as [v n a ks IH | s | s] using node_forest_ind;
    intros x H; try discriminate.
  simpl in H. destruct (Nat.eqb u v).
  - injection H as <-. apply incl_refl.
  - apply first_some_some in H. destruct H as (pre & k & post & -> & Hk & _).
    rewrite Forall_forall in IH.
    assert (Hin : In k (pre ++ k :: post)) by (apply in_or_app; right; left; reflexivity).
    intros y Hy. right. apply uids_f_in. exists k. split; [exact Hin|].
    apply (IH k Hin x Hk y Hy).
Qed.

Lemma first_some_map {A B} (f : A -> option B) (h : A -> A) (g : B -> B) l :
  (forall k, In k l -> f (h k) = option_map g (f k)) ->
  first_some f (map h l) = option_map g (first_some f l).
Proof.
  induction l as [|k r IH]; intros H; [reflexivity|].
  simpl. rewrite (H k) by (left; reflexivity).
  destruct (f k); simpl; [reflexivity|].
  apply IH. intros z Hz. apply H. right. exact Hz.
Qed.

Lemma first_some_app {A B} (f : A -> option B) l l' :
  (forall k, In k l' -> f k = None) -> first_some f (l ++ l') = first_some f l.
Proof.
  intros H. induction l as [|k r IH]; simpl.
  - apply first_some_none. exact H.
  - destruct (f k); [reflexivity | exact IH].
Qed.

(** Appending new nodes to the tag [u] leaves every other tag where it
    was, with the contents it had, up to the new nodes below it. *)
Lemma subtree_modify_other u v new t :
  NoDup (uids t) -> v <> u -> ~ In v (uids_f new) ->
  subtree v (modify u (grow new) t) = option_map (modify u (grow new)) (subtree v t).
Proof.
  intros Hnd Hvu Hnew. revert Hnd.
  induction t as [w n a ks IH | s | s] using node_forest_ind; intros Hnd; try reflexivity.
  simpl modify. destruct (Nat.eqb u w) eqn:Euw.
  - apply Nat.eqb_eq in Euw. subst w.
    simpl. assert (Evu : Nat.eqb v u = false) by (apply Nat.eqb_neq; exact Hvu).
    rewrite Evu. rewrite first_some_app.
    + destruct (first_some (subtree v) ks) as [x|] eqn:E; [|reflexivity].
      simpl. f_equal. symmetry. apply modify_absent.
      destruct (NoDup_tag _ _ _ _ Hnd) as [Hu _]. intros K. apply Hu.
      apply first_some_some in E. destruct E as (pre & k & post & -> & Hk & _).
      apply uids_f_in. exists k. split; [apply in_or_app; right; left; reflexivity|].
      apply (subtree_uids _ _ _ Hk). exact K.
    + intros k Hk. apply subtree_absent. intros K. apply Hnew.
      apply uids_f_in. exists k. tauto.
  - simpl. destruct (Nat.eqb v w) eqn:Evw.
    + simpl. rewrite Euw. reflexivity.
    + apply first_some_map. intros k Hk. rewrite Forall_forall in IH.
      apply (IH k Hk). apply (NoDup_child _ _ _ _ _ Hnd Hk).
Qed.

Lemma modify_forest_at u f pre k post :
  (forall z, In z pre -> ~ In u (uids z)) ->
  (forall z, In z post -> ~ In u (uids z)) ->
  map (modify u f) (pre ++ k :: post) = pre ++ modify u f k :: post.
Proof.
  intros Hpre Hpost. rewrite map_app. simpl. f_equal; [|f_equal].
  - rewrite <- (map_id pre) at 2. apply map_ext_in. intros z Hz.
    apply modify_absent. apply Hpre. exact Hz.
  - rewrite <- (map_id post) at 2. apply map_ext_in. intros z Hz.
    apply modify_absent. apply Hpost. exact Hz.
Qed.

(** The identities after appending: those of the new nodes are put in. *)
Lemma uids_modify_grow u new t :
  NoDup (uids t) -> In u (uids t) ->
  exists l1 l2,
    uids t = l1 ++ l2 /\ uids (modify u (grow new) t) = l1 ++ uids_f new ++ l2.
Proof.
  induction t as [w n a ks IH | s | s] using node_forest_ind; intros Hnd Hin;
    [| destruct Hin | destruct Hin].
  simpl modify. destruct (Nat.eqb u w) eqn:Euw.
  - exists (w :: uids_f ks), []. split; [rewrite app_nil_r; reflexivity|].
    simpl. rewrite app_nil_r. fold (uids_f (ks ++ new)). rewrite uids_f_app. reflexivity.
  - apply Nat.eqb_neq in Euw. destruct Hin as [E | Hin]; [congruence|].
    fold (uids_f ks) in Hin. apply uids_f_in in Hin. destruct Hin as (k & Hk & Hu).
    apply in_split in Hk. destruct Hk as (pre & post & ->).
    destruct (NoDup_tag _ _ _ _ Hnd) as [_ Hf].
    destruct (NoDup_forest_at _ _ _ Hf) as (Hk1 & Hk2 & Hk3).
    rewrite modify_forest_at.
    + rewrite Forall_forall in IH.
      assert (Hk : In k (pre ++ k :: post)) by (apply in_or_app; right; left; reflexivity).
      destruct (IH k Hk Hk1 Hu) as (l1 & l2 & E1 & E2).
      exists (w :: uids_f pre ++ l1), (l2 ++ uids_f post). split.
      * rewrite uids_tag, uids_f_app, uids_f_cons, E1. simpl.
        rewrite <- !app_assoc. reflexivity.
      * rewrite uids_tag, uids_f_app, uids_f_cons, E2. simpl.
        rewrite <- !app_assoc. reflexivity.
    + intros z Hz K. exact (Hk2 z u Hz Hu K).
    + intros z Hz K. exact (Hk3 z u Hz Hu K).
Qed.

Lemma NoDup_insert_middle {A} (l1 l2 new : list A) :
  NoDup (l1 ++ l2) -> NoDup new -> (forall x, In x new -> ~ In x (l1 ++ l2)) ->
  NoDup (l1 ++ new ++ l2).
Proof.
  intros H Hn Hd.
  apply (Permutation_NoDup (l := new ++ l1 ++ l2)).
  - apply Permutation_app_swap_app.
  - apply NoDup_app; [exact Hn | exact H | exact Hd].
Qed.

Lemma NoDup_modify_grow u new t :
  NoDup (uids t) -> NoDup (uids_f new) ->
  (forall x, In x (uids_f new) -> ~ In x (uids t)) ->
  NoDup (uids (modify u (grow new) t)).
Proof.
  intros Hnd Hn Hd.
  destruct (in_dec Nat.eq_dec u (uids t)) as [Hin | Hout].
  - destruct (uids_modify_grow u new t Hnd Hin) as (l1 & l2 & E1 & E2).
    rewrite E2. rewrite E1 in Hnd, Hd. apply NoDup_insert_middle; assumption.
  - rewrite modify_absent by exact Hout. exact Hnd.
Qed.

Lemma uids_modify_grow_incl u new t :
  NoDup (uids t) -> incl (uids t) (uids (modify u (grow new) t)).
Proof.
  intros Hnd.
  destruct (in_dec Nat.eq_dec u (uids t)) as [Hin | Hout].
  - destruct (uids_modify_grow u new t Hnd Hin) as (l1 & l2 & E1 & E2).
    rewrite E1, E2. intros x Hx. apply in_app_or in Hx. apply in_or_app.
    destruct Hx as [Hx | Hx]; [left; exact Hx | right; apply in_or_app; right; exact Hx].
  - rewrite modify_absent by exact Hout. apply incl_refl.
Qed.


(** The nodes of a sequence of siblings and below them, in document
    order. *)
Definition descs (ks : list node) : list node :=
  flat_map (fun k => k :: descendants k) ks.

Lemma descendants_tag v n a ks : descendants (Tag v n a ks) = descs ks.
Proof. reflexivity. Qed.

Lemma descs_app ks ks' : descs (ks ++ ks') = descs ks ++ descs ks'.
Proof. unfold descs. apply flat_map_app. Qed.

Lemma descs_in b ks : In b (descs ks) <-> exists k, In k ks /\ (b = k \/ In b (descendants k)).
Proof.
  unfold descs. rewrite in_flat_map. split; intros (k & Hk & H); exists k; (split; [exact Hk|]).
  - destruct H as [H | H]; [left; symmetry; exact H | right; exact H].
  - destruct H as [H | H]; [left; symmetry; exact H | right; exact H].
Qed.

Lemma label_tag k v n a : label k = Tag v n a [] -> exists ks, k = Tag v n a ks.
Proof. destruct k as [w m b cs | s | s]; simpl; intros H; inversion H; subst; eauto. Qed.

(** The tags of a tree after appending new nodes to the tag [u]: those
    that were there, with their names and attributes, and the new
    ones. *)
Lemma descendants_modify_grow u new t v n a ks :
  In (Tag v n a ks) (descendants (modify u (grow new) t)) ->
  (exists ks0, In (Tag v n a ks0) (descendants t)) \/ In (Tag v n a ks) (descs new).
Proof.
  revert v n a ks.
  induction t as [w m b cs IH | s | s] using node_forest_ind; intros v n a ks H;
    try destruct H.
  simpl modify in H. destruct (Nat.eqb u w).
  - simpl grow in H. rewrite descendants_tag, descs_app in H. apply in_app_or in H.
    destruct H as [H | H]; [left; exists ks; exact H | right; exact H].
  - rewrite descendants_tag in H. apply descs_in in H. destruct H as (k' & Hk' & H).
    apply in_map_iff in Hk'. destruct Hk' as (k & <- & Hk).
    rewrite Forall_forall in IH. destruct H as [H | H].
    + left. assert (L : label k = Tag v n a []).
      { rewrite <- (label_modify u (grow new) k) by (intros y; apply label_grow).
        rewrite <- H. reflexivity. }
      apply label_tag in L. destruct L as (ks0 & ->).
      exists ks0. rewrite descendants_tag. apply descs_in. exists (Tag v n a ks0). tauto.
    + destruct (IH k Hk v n a ks H) as [(ks0 & K) | K]; [left | right; exact K].
      exists ks0. rewrite descendants_tag. apply descs_in. exists k. tauto.
Qed.


(** *** Ancestors *)

Lemma locate_absent v t : ~ In v (uids t) -> locate v t = None.
Proof.
  induction t as [w n a ks IH | s | s] using node_forest_ind; intros H; try reflexivity.
  simpl. destruct (Nat.eqb v w) eqn:E.
  - apply Nat.eqb_eq in E. subst. exfalso. apply H. left. reflexivity.
  - rewrite first_some_none; [reflexivity|]. intros k Hk. rewrite Forall_forall in IH.
    apply (IH k Hk). intros K. apply H. right. apply uids_f_in. exists k. tauto.
Qed.

Lemma locate_found v t r : locate v t = Some r -> In v (uids t).
Proof.
  intros H. destruct (in_dec Nat.eq_dec v (uids t)) as [K | K]; [exact K|].
  rewrite (locate_absent _ _ K) in H. discriminate.
Qed.

Lemma locate_present v t : In v (uids t) -> exists r, locate v t = Some r.
Proof.
  induction t as [w n a ks IH | s | s] using node_forest_ind; intros H;
    [| destruct H | destruct H].
  simpl. destruct (Nat.eqb v w) eqn:E; [eauto|].
  apply Nat.eqb_neq in E. destruct H as [H | H]; [congruence|].
  fold (uids_f ks) in H. apply uids_f_in in H. destruct H as (k & Hk & Hv).
  rewrite Forall_forall in IH. destruct (IH k Hk Hv) as (r & Hr).
  destruct (first_some (locate v) ks) as [[nm up]|] eqn:F; [eauto|].
  exfalso. clear IH. induction ks as [|k' ks' IHk]; [destruct Hk|].
  simpl in F. destruct (locate v k') eqn:Ek'; [discriminate|].
  destruct Hk as [-> | Hk]; [congruence | exact (IHk Hk F)].
Qed.

Lemma locate_root v n a ks : locate v (Tag v n a ks) = Some (n, []).
Proof. simpl. rewrite Nat.eqb_refl. reflexivity. Qed.

(** With unique identities, a tag below the root is found in the one
    child that holds it. *)
Lemma locate_in_child w n a pre k post v :
  NoDup (uids (Tag w n a (pre ++ k :: post))) -> In v (uids k) ->
  locate v (Tag w n a (pre ++ k :: post))
  = match locate v k with
    | Some (nm, up) => Some (nm, up ++ [(w, n)])
    | None => None
    end.
Proof.
  intros Hnd Hv. destruct (NoDup_tag _ _ _ _ Hnd) as [Hw Hf].
  destruct (NoDup_forest_at _ _ _ Hf) as (_ & Hpre & _).
  simpl. destruct (Nat.eqb v w) eqn:E.
  - apply Nat.eqb_eq in E. subst w. exfalso. apply Hw.
    apply uids_f_in. exists k. split; [apply in_or_app; right; left; reflexivity | exact Hv].
  - destruct (locate_present v k Hv) as (r & Hr). rewrite Hr.
    rewrite (first_some_at (locate v) pre k post r); [reflexivity | | exact Hr].
    intros z Hz. apply locate_absent. exact (Hpre z v Hz Hv).
Qed.

Lemma subtree_in_child w n a pre k post v :
  NoDup (uids (Tag w n a (pre ++ k :: post))) -> In v (uids k) ->
  subtree v (Tag w n a (pre ++ k :: post)) = subtree v k.
Proof.
  intros Hnd Hv. destruct (NoDup_tag _ _ _ _ Hnd) as [Hw Hf].
  destruct (NoDup_forest_at _ _ _ Hf) as (_ & Hpre & _).
  simpl. destruct (Nat.eqb v w) eqn:E.
  - apply Nat.eqb_eq in E. subst w. exfalso. apply Hw.
    apply uids_f_in. exists k. split; [apply in_or_app; right; left; reflexivity | exact Hv].
  - destruct (subtree_present v k Hv) as (r & Hr). rewrite Hr.
    apply first_some_at; [|exact Hr].
    intros z Hz. apply subtree_absent. exact (Hpre z v Hz Hv).
Qed.

(** The case analysis that goes with the two lemmas: a tag of the tree
    is the root or lies in one of the children. *)
Lemma uids_cases v w n a ks :
  In v (uids (Tag w n a ks)) ->
  v = w \/ exists pre k post, ks = pre ++ k :: post /\ In v (uids k).
Proof.
  intros [H | H]; [left; symmetry; exact H | right].
  fold (uids_f ks) in H. apply uids_f_in in H. destruct H as (k & Hk & Hv).
  apply in_split in Hk. destruct Hk as (pre & post & ->). eauto.
Qed.

Lemma NoDup_child_at w n a pre k post :
  NoDup (uids (Tag w n a (pre ++ k :: post))) -> NoDup (uids k).
Proof.
  intros H. apply (NoDup_child _ _ _ _ k H). apply in_or_app. right. left. reflexivity.
Qed.

Lemma root_not_below w n a ks v k :
  NoDup (uids (Tag w n a ks)) -> In k ks -> In v (uids k) -> v <> w.
Proof.
  intros Hnd Hk Hv ->. destruct (NoDup_tag _ _ _ _ Hnd) as [Hw _]. apply Hw.
  apply uids_f_in. exists k. tauto.
Qed.

(** The tag that [locate] finds is the one that [subtree] returns. *)
Lemma locate_subtree v t :
  NoDup (uids t) ->
  forall nm up, locate v t = Some (nm, up) ->
  exists a ks, subtree v t = Some (Tag v nm a ks).
Proof.
  induction t as [w n a ks IH | s | s] using node_forest_ind; intros Hnd nm up H;
    try discriminate.
  destruct (uids_cases v w n a ks (locate_found _ _ _ H)) as [-> | (pre & k & post & -> & Hv)].
  - rewrite locate_root in H. injection H as <- _. rewrite subtree_root. eauto.
  - rewrite (locate_in_child _ _ _ _ _ _ _ Hnd Hv) in H.
    rewrite (subtree_in_child _ _ _ _ _ _ _ Hnd Hv).
    destruct (locate v k) as [[nm' up']|] eqn:E; [|discriminate]. injection H as <- _.
    rewrite Forall_forall in IH.
    apply (IH k (in_or_app _ _ _ (or_intror (in_eq _ _))) (NoDup_child_at _ _ _ _ _ _ Hnd) nm' up' E).
Qed.

Lemma subtree_locate v t nm a ks :
  NoDup (uids t) -> subtree v t = Some (Tag v nm a ks) ->
  exists up, locate v t = Some (nm, up).
Proof.
  intros Hnd H. pose proof (subtree_found _ _ _ H) as [_ Hin].
  destruct (locate_present v t Hin) as ([nm' up] & Hl).
  destruct (locate_subtree v t Hnd nm' up Hl) as (a' & ks' & Hs).
  rewrite Hs in H. injection H as -> _ _. eauto.
Qed.

(** The ancestors of a parent are the ancestors of the child without
    the parent. *)
Lemma locate_parent h t :
  NoDup (uids t) ->
  forall nm p pn up, locate h t = Some (nm, (p, pn) :: up) -> locate p t = Some (pn, up).
Proof.
  induction t as [w n a ks IH | s | s] using node_forest_ind; intros Hnd nm p pn up H;
    try discriminate.
  destruct (uids_cases h w n a ks (locate_found _ _ _ H)) as [-> | (pre & k & post & -> & Hv)].
  - rewrite locate_root in H. discriminate.
  - rewrite (locate_in_child _ _ _ _ _ _ _ Hnd Hv) in H.
    destruct (locate h k) as [[nm' up0]|] eqn:E; [|discriminate]. injection H as <- H.
    destruct up0 as [|[p0 pn0] up0'].
    + simpl in H. injection H as <- <- <-. apply locate_root.
    + simpl in H. injection H as <- <- <-.
      rewrite Forall_forall in IH.
      pose proof (IH k (in_or_app _ _ _ (or_intror (in_eq _ _)))
                    (NoDup_child_at _ _ _ _ _ _ Hnd) nm' p0 pn0 up0' E) as Hp.
      rewrite (locate_in_child _ _ _ _ _ _ _ Hnd (locate_found _ _ _ Hp)), Hp. reflexivity.
Qed.

(** The ancestors of a tag inside a subtree: those inside the subtree,
    then those of the subtree. *)
Lemma locate_compose h t :
  NoDup (uids t) ->
  forall x nh uph v nv inner,
    subtree h t = Some x -> locate h t = Some (nh, uph) ->
    locate v x = Some (nv, inner) ->
    locate v t = Some (nv, inner ++ uph).
Proof.
  induction t as [w n a ks IH | s | s] using node_forest_ind;
    intros Hnd x nh uph v nv inner Hs Hl Hv; try discriminate.
  destruct (uids_cases h w n a ks (locate_found _ _ _ Hl)) as [-> | (pre & k & post & -> & Hh)].
  - rewrite subtree_root in Hs. injection Hs as <-.
    rewrite locate_root in Hl. injection Hl as _ <-. rewrite app_nil_r. exact Hv.
  - rewrite (subtree_in_child _ _ _ _ _ _ _ Hnd Hh) in Hs.
    rewrite (locate_in_child _ _ _ _ _ _ _ Hnd Hh) in Hl.
    destruct (locate h k) as [[nh' up0]|] eqn:E; [|discriminate]. injection Hl as <- <-.
    rewrite Forall_forall in IH.
    pose proof (IH k (in_or_app _ _ _ (or_intror (in_eq _ _)))
                  (NoDup_child_at _ _ _ _ _ _ Hnd) x nh' up0 v nv inner Hs E Hv) as Hk.
    rewrite (locate_in_child _ _ _ _ _ _ _ Hnd (locate_found _ _ _ Hk)), Hk.
    rewrite app_assoc. reflexivity.
Qed.

Lemma locate_nil v k nm : locate v k = Some (nm, []) -> exists a ks, k = Tag v nm a ks.
Proof.
  destruct k as [w n a ks | s | s]; simpl; try discriminate.
  destruct (Nat.eqb v w) eqn:E.
  - intros H. injection H as <-. apply Nat.eqb_eq in E. subst. eauto.
  - destruct (first_some (locate v) ks) as [[nm0 up0]|]; [|discriminate].
    intros H. injection H as _ H. destruct up0; discriminate.
Qed.

(** A located tag with an ancestor is a descendant of the root, and
    conversely. *)
Lemma locate_descendant v t :
  NoDup (uids t) ->
  forall nm up, locate v t = Some (nm, up) -> up <> [] ->
  exists a ks, In (Tag v nm a ks) (descendants t).
Proof.
  induction t as [w n a ks IH | s | s] using node_forest_ind; intros Hnd nm up H Hup;
    try discriminate.
  destruct (uids_cases v w n a ks (locate_found _ _ _ H)) as [-> | (pre & k & post & -> & Hv)].
  - rewrite locate_root in H. injection H as _ <-. congruence.
  - rewrite (locate_in_child _ _ _ _ _ _ _ Hnd Hv) in H.
    destruct (locate v k) as [[nm' up0]|] eqn:E; [|discriminate]. injection H as <- _.
    assert (Hk : In k (pre ++ k :: post)) by (apply in_or_app; right; left; reflexivity).
    destruct up0 as [|q up0'].
    + destruct (locate_nil _ _ _ E) as (b & cs & ->).
      exists b, cs. rewrite descendants_tag. apply descs_in.
      exists (Tag v nm' b cs). tauto.
    + rewrite Forall_forall in IH.
      destruct (IH k Hk (NoDup_child_at _ _ _ _ _ _ Hnd) nm' (q :: up0') E) as (b & cs & Hd);
        [discriminate|].
      exists b, cs. rewrite descendants_tag. apply descs_in. exists k. tauto.
Qed.

Lemma descendant_locate v nm a ks t :
  NoDup (uids t) -> In (Tag v nm a ks) (descendants t) ->
  exists q up, locate v t = Some (nm, q :: up).
Proof.
  intros Hnd H.
  assert (Hs : subtree v t = Some (Tag v nm a ks)).
  { apply (subtree_of_descendant t Hnd _ v H). simpl. apply Nat.eqb_refl. }
  destruct (subtree_locate _ _ _ _ _ Hnd Hs) as (up & Hl).
  destruct up as [|q up]; [|eauto].
  exfalso. destruct t as [w n b cs | s | s]; try discriminate.
  assert (Hin : In v (uids_f cs)).
  { apply (descendants_uids _ _ v H). left. reflexivity. }
  destruct (NoDup_tag _ _ _ _ Hnd) as [Hw _].
  simpl in Hl. destruct (Nat.eqb v w) eqn:E.
  - apply Nat.eqb_eq in E. subst. contradiction.
  - destruct (first_some (locate v) cs) as [[nm0 up0]|]; [|discriminate].
    injection Hl as _ Hl. destruct up0; discriminate.
Qed.


(** *** Taking a tag out and putting it in *)

Definition drop_child (h : nat) (k : node) : list node :=
  if has_uid h k then [] else [remove h k].

Definition put_after (target : nat) (x k : node) : list node :=
  if has_uid target k then [k; x] else [insert_after target x k].

Lemma remove_tag h w n a ks :
  remove h (Tag w n a ks) = Tag w n a (flat_map (drop_child h) ks).
Proof. reflexivity. Qed.

Lemma insert_tag target x w n a ks :
  insert_after target x (Tag w n a ks) = Tag w n a (flat_map (put_after target x) ks).
Proof. reflexivity. Qed.

Lemma has_uid_in h k : has_uid h k = true -> In h (uids k).
Proof. intros H. apply has_uid_true in H. destruct H as (n & a & ks & ->). left. reflexivity. Qed.

Lemma has_uid_out h k : ~ In h (uids k) -> has_uid h k = false.
Proof.
  intros H. destruct (has_uid h k) eqn:E; [|reflexivity].
  exfalso. apply H. apply has_uid_in. exact E.
Qed.

Lemma flat_map_single {A} (F : A -> list A) l :
  (forall k, In k l -> F k = [k]) -> flat_map F l = l.
Proof.
  induction l as [|k r IH]; intros H; [reflexivity|].
  simpl. rewrite (H k) by (left; reflexivity). simpl. f_equal.
  apply IH. intros z Hz. apply H. right. exact Hz.
Qed.

Lemma remove_absent h t : ~ In h (uids t) -> remove h t = t.
Proof.
  induction t as [w n a ks IH | s | s] using node_forest_ind; intros H; try reflexivity.
  rewrite remove_tag. f_equal. apply flat_map_single. intros k Hk.
  assert (Hk' : ~ In h (uids k)).
  { intros K. apply H. right. apply uids_f_in. exists k. tauto. }
  unfold drop_child. rewrite (has_uid_out _ _ Hk').
  rewrite Forall_forall in IH. rewrite (IH k Hk Hk'). reflexivity.
Qed.

Lemma insert_absent target x t : ~ In target (uids t) -> insert_after target x t = t.
Proof.
  induction t as [w n a ks IH | s | s] using node_forest_ind; intros H; try reflexivity.
  rewrite insert_tag. f_equal. apply flat_map_single. intros k Hk.
  assert (Hk' : ~ In target (uids k)).
  { intros K. apply H. right. apply uids_f_in. exists k. tauto. }
  unfold put_after. rewrite (has_uid_out _ _ Hk').
  rewrite Forall_forall in IH. rewrite (IH k Hk Hk'). reflexivity.
Qed.

Lemma drop_child_absent h k : ~ In h (uids k) -> drop_child h k = [k].
Proof.
  intros H. unfold drop_child. rewrite (has_uid_out _ _ H), (remove_absent _ _ H). reflexivity.
Qed.

Lemma put_after_absent target x k : ~ In target (uids k) -> put_after target x k = [k].
Proof.
  intros H. unfold put_after. rewrite (has_uid_out _ _ H), (insert_absent _ _ _ H). reflexivity.
Qed.

Lemma flat_map_at {A} (F : A -> list A) pre k post :
  (forall z, In z pre -> F z = [z]) -> (forall z, In z post -> F z = [z]) ->
  flat_map F (pre ++ k :: post) = pre ++ F k ++ post.
Proof.
  intros Hpre Hpost. rewrite flat_map_app. simpl.
  rewrite (flat_map_single F pre Hpre), (flat_map_single F post Hpost). reflexivity.
Qed.

(** The children of a tag when the tag [h] lies in the child [k]. *)
Lemma children_at w n a pre k post h (F : node -> list node) :
  NoDup (uids (Tag w n a (pre ++ k :: post))) -> In h (uids k) ->
  (forall z, ~ In h (uids z) -> F z = [z]) ->
  flat_map F (pre ++ k :: post) = pre ++ F k ++ post.
Proof.
  intros Hnd Hh HF. destruct (NoDup_tag _ _ _ _ Hnd) as [_ Hf].
  destruct (NoDup_forest_at _ _ _ Hf) as (_ & Hpre & Hpost).
  apply flat_map_at; intros z Hz; apply HF.
  - exact (Hpre z h Hz Hh).
  - exact (Hpost z h Hz Hh).
Qed.

Lemma first_some_app_gen {A B} (f : A -> option B) l l' :
  first_some f (l ++ l')
  = match first_some f l with Some y => Some y | None => first_some f l' end.
Proof.
  induction l as [|k r IH]; [reflexivity|].
  simpl. destruct (f k); [reflexivity | exact IH].
Qed.

Lemma first_some_one {A B} (f : A -> option B) k : first_some f [k] = f k.
Proof. simpl. destruct (f k); reflexivity. Qed.

Lemma first_some_two {A B} (f : A -> option B) k k' :
  first_some f [k; k'] = match f k with Some y => Some y | None => f k' end.
Proof. simpl. destruct (f k); [reflexivity|]. destruct (f k'); reflexivity. Qed.

Lemma first_some_mid {A B} (f : A -> option B) pre mid mid' post :
  first_some f mid = first_some f mid' ->
  first_some f (pre ++ mid ++ post) = first_some f (pre ++ mid' ++ post).
Proof. intros H. rewrite !first_some_app_gen, H. reflexivity. Qed.

(** Taking the tag [h] out changes nothing for the tags outside it. *)
Lemma locate_remove_out h t :
  NoDup (uids t) -> forall x v, subtree h t = Some x -> ~ In v (uids x) ->
  locate v (remove h t) = locate v t.
Proof.
  induction t as [w n a ks IH | s | s] using node_forest_ind; intros Hnd x v Hs Hv;
    try reflexivity.
  pose proof (subtree_found _ _ _ Hs) as [_ Hin].
  destruct (uids_cases h w n a ks Hin) as [-> | (pre & k & post & -> & Hh)].
  - rewrite remove_tag. rewrite flat_map_single; [reflexivity|].
    intros k Hk. apply drop_child_absent. intros K.
    exact (root_not_below _ _ _ _ _ _ Hnd Hk K eq_refl).
  - rewrite (subtree_in_child _ _ _ _ _ _ _ Hnd Hh) in Hs.
    rewrite remove_tag.
    rewrite (children_at _ _ _ _ _ _ h (drop_child h) Hnd Hh (drop_child_absent h)).
    simpl locate. destruct (Nat.eqb v w); [reflexivity|].
    assert (F : first_some (locate v) (pre ++ drop_child h k ++ post)
                = first_some (locate v) (pre ++ [k] ++ post)).
    { apply first_some_mid. unfold drop_child. destruct (has_uid h k) eqn:Eh.
      - apply has_uid_true in Eh. destruct Eh as (n' & a' & ks' & ->).
        rewrite subtree_root in Hs. injection Hs as <-.
        rewrite first_some_one, (locate_absent _ _ Hv). reflexivity.
      - rewrite Forall_forall in IH.
        rewrite !first_some_one.
        apply (IH k (in_or_app _ _ _ (or_intror (in_eq _ _)))
                 (NoDup_child_at _ _ _ _ _ _ Hnd) x v Hs Hv). }
    rewrite F. reflexivity.
Qed.

(** Putting [x] in changes nothing for the tags that are not in [x]. *)
Lemma locate_insert_out target x v t :
  locate v x = None -> locate v (insert_after target x t) = locate v t.
Proof.
  intros Hx. induction t as [w n a ks IH | s | s] using node_forest_ind; try reflexivity.
  rewrite insert_tag. simpl locate. destruct (Nat.eqb v w); [reflexivity|].
  assert (F : first_some (locate v) (flat_map (put_after target x) ks)
              = first_some (locate v) ks).
  { induction ks as [|k r IHr]; [reflexivity|].
    inversion IH as [|k' r' Hk Hr]; subst.
    simpl flat_map. rewrite first_some_app_gen. unfold put_after at 1.
    destruct (has_uid target k).
    - simpl. destruct (locate v k); [reflexivity|]. rewrite Hx. apply IHr. exact Hr.
    - simpl. rewrite Hk. destruct (locate v k); [reflexivity|]. apply IHr. exact Hr. }
  rewrite F. reflexivity.
Qed.

(** A tag of [x], put after [target], has its ancestors inside [x] and
    then those of [target]. *)
Lemma locate_insert_in target x v nm inner t :
  NoDup (uids t) -> ~ In v (uids t) -> locate v x = Some (nm, inner) ->
  forall tn q up, locate target t = Some (tn, q :: up) ->
  locate v (insert_after target x t) = Some (nm, inner ++ q :: up).
Proof.
  intros Hnd Hv Hx. revert Hnd Hv.
  induction t as [w n a ks IH | s | s] using node_forest_ind; intros Hnd Hv tn q up Ht;
    try discriminate.
  destruct (uids_cases target w n a ks (locate_found _ _ _ Ht))
    as [-> | (pre & k & post & -> & Hin)].
  - rewrite locate_root in Ht. discriminate.
  - rewrite (locate_in_child _ _ _ _ _ _ _ Hnd Hin) in Ht.
    destruct (locate target k) as [[tn' up0]|] eqn:E; [|discriminate]. injection Ht as <- Ht.
    rewrite insert_tag.
    rewrite (children_at _ _ _ _ _ _ target (put_after target x) Hnd Hin
               (put_after_absent target x)).
    assert (Hvw : Nat.eqb v w = false).
    { apply Nat.eqb_neq. intros ->. apply Hv. left. reflexivity. }
    assert (Hout : forall z, In z (pre ++ k :: post) -> locate v z = None).
    { intros z Hz. apply locate_absent. intros K. apply Hv. right.
      apply uids_f_in. exists z. tauto. }
    simpl locate. rewrite Hvw. rewrite first_some_app_gen.
    rewrite first_some_none by (intros z Hz; apply Hout; apply in_or_app; left; exact Hz).
    rewrite first_some_app_gen. unfold put_after. destruct (has_uid target k) eqn:Eh.
    + apply has_uid_true in Eh. destruct Eh as (n' & a' & ks' & ->).
      rewrite locate_root in E. injection E as _ <-. simpl in Ht. rewrite <- Ht.
      rewrite first_some_two.
      rewrite (Hout (Tag target n' a' ks')) by (apply in_or_app; right; left; reflexivity).
      rewrite Hx. reflexivity.
    + destruct up0 as [|q0 up0'].
      { destruct (locate_nil _ _ _ E) as (a' & ks' & ->). simpl in Eh.
        rewrite Nat.eqb_refl in Eh. discriminate. }
      rewrite Forall_forall in IH.
      assert (Hk : In k (pre ++ k :: post)) by (apply in_or_app; right; left; reflexivity).
      assert (Hvk : ~ In v (uids k)).
      { intros K. apply Hv. right. apply uids_f_in. exists k. tauto. }
      rewrite first_some_one.
      rewrite (IH k Hk (NoDup_child_at _ _ _ _ _ _ Hnd) Hvk tn' q0 up0' E).
      rewrite <- Ht. rewrite <- app_assoc. reflexivity.
Qed.

(** The identities after the two operations. *)
Lemma uids_remove h t :
  NoDup (uids t) ->
  forall x nm q up, subtree h t = Some x -> locate h t = Some (nm, q :: up) ->
  exists l1 l2, uids t = l1 ++ uids x ++ l2 /\ uids (remove h t) = l1 ++ l2.
Proof.
  induction t as [w n a ks IH | s | s] using node_forest_ind; intros Hnd x nm q up Hs Hl;
    try discriminate.
  destruct (uids_cases h w n a ks (locate_found _ _ _ Hl)) as [-> | (pre & k & post & -> & Hh)].
  - rewrite locate_root in Hl. discriminate.
  - rewrite (subtree_in_child _ _ _ _ _ _ _ Hnd Hh) in Hs.
    rewrite (locate_in_child _ _ _ _ _ _ _ Hnd Hh) in Hl.
    destruct (locate h k) as [[nm' up0]|] eqn:E; [|discriminate].
    rewrite remove_tag.
    rewrite (children_at _ _ _ _ _ _ h (drop_child h) Hnd Hh (drop_child_absent h)).
    rewrite !uids_tag, !uids_f_app, uids_f_cons.
    unfold drop_child. destruct (has_uid h k) eqn:Eh.
    + apply has_uid_true in Eh. destruct Eh as (n' & a' & ks' & ->).
      rewrite subtree_root in Hs. injection Hs as <-.
      exists (w :: uids_f pre), (uids_f post). split; reflexivity.
    + destruct up0 as [|q0 up0'].
      { destruct (locate_nil _ _ _ E) as (a' & ks' & ->). simpl in Eh.
        rewrite Nat.eqb_refl in Eh. discriminate. }
      rewrite Forall_forall in IH.
      destruct (IH k (in_or_app _ _ _ (or_intror (in_eq _ _)))
                  (NoDup_child_at _ _ _ _ _ _ Hnd) x nm' q0 up0' Hs E)
        as (l1 & l2 & E1 & E2).
      exists (w :: uids_f pre ++ l1), (l2 ++ uids_f post). split.
      * rewrite E1. simpl. rewrite <- !app_assoc. reflexivity.
      * simpl. rewrite app_nil_r, E2. rewrite <- !app_assoc. reflexivity.
Qed.

Lemma uids_insert target x t :
  NoDup (uids t) ->
  forall tn q up, locate target t = Some (tn, q :: up) ->
  exists l1 l2, uids t = l1 ++ l2 /\ uids (insert_after target x t) = l1 ++ uids x ++ l2.
Proof.
  induction t as [w n a ks IH | s | s] using node_forest_ind; intros Hnd tn q up Hl;
    try discriminate.
  destruct (uids_cases target w n a ks (locate_found _ _ _ Hl))
    as [-> | (pre & k & post & -> & Hh)].
  - rewrite locate_root in Hl. discriminate.
  - rewrite (locate_in_child _ _ _ _ _ _ _ Hnd Hh) in Hl.
    destruct (locate target k) as [[tn' up0]|] eqn:E; [|discriminate].
    rewrite insert_tag.
    rewrite (children_at _ _ _ _ _ _ target (put_after target x) Hnd Hh
               (put_after_absent target x)).
    rewrite !uids_tag, !uids_f_app, uids_f_cons.
    unfold put_after. destruct (has_uid target k) eqn:Eh.
    + exists (w :: uids_f pre ++ uids k), (uids_f post). split.
      * simpl. rewrite <- !app_assoc. reflexivity.
      * simpl. rewrite app_nil_r. rewrite <- !app_assoc. reflexivity.
    + destruct up0 as [|q0 up0'].
      { destruct (locate_nil _ _ _ E) as (a' & ks' & ->). simpl in Eh.
        rewrite Nat.eqb_refl in Eh. discriminate. }
      rewrite Forall_forall in IH.
      destruct (IH k (in_or_app _ _ _ (or_intror (in_eq _ _)))
                  (NoDup_child_at _ _ _ _ _ _ Hnd) tn' q0 up0' E)
        as (l1 & l2 & E1 & E2).
      exists (w :: uids_f pre ++ l1), (l2 ++ uids_f post). split.
      * rewrite E1. simpl. rewrite <- !app_assoc. reflexivity.
      * simpl. rewrite app_nil_r, E2. rewrite <- !app_assoc. reflexivity.
Qed.

Lemma NoDup_remove_middle {A} (l1 m l2 : list A) :
  NoDup (l1 ++ m ++ l2) ->
  NoDup (l1 ++ l2) /\ NoDup m /\ (forall x, In x m -> ~ In x (l1 ++ l2)).
Proof.
  intros H.
  assert (P : NoDup (m ++ l1 ++ l2)).
  { apply (Permutation_NoDup (l := l1 ++ m ++ l2)); [|exact H].
    apply Permutation_app_swap_app. }
  destruct (NoDup_app_inv _ _ P) as (H1 & H2 & H3). tauto.
Qed.


(** *** Searching a changed tree *)

Lemma hd_error_filter_in {A} (p : A -> bool) (l : list A) x :
  hd_error (filter p l) = Some x -> In x l /\ p x = true.
Proof. intros H. apply hd_error_in in H. apply filter_In in H. exact H. Qed.

Lemma descs_uids b ks u : In b (descs ks) -> In u (uids b) -> In u (uids_f ks).
Proof.
  intros Hb Hu. apply descs_in in Hb. destruct Hb as (k & Hk & H).
  apply uids_f_in. exists k. split; [exact Hk|].
  destruct H as [-> | H]; [exact Hu|].
  pose proof (descendants_uids _ _ _ H Hu) as K.
  destruct k as [w m c ks' | s | s]; try destruct K. right. exact K.
Qed.

(** A search whose test looks at names and attributes only finds,
    after a change at the tag it found, that tag again. *)
Lemma find_modify_same p u f t n a ks :
  (forall k, p (label k) = p k) -> (forall y, label (f y) = label y) ->
  NoDup (uids t) ->
  find p t = Some (Tag u n a ks) -> find p (modify u f t) = Some (f (Tag u n a ks)).
Proof.
  intros Hp Hf.
  assert (Hpm : forall k, p (modify u f k) = p k).
  { intros k. rewrite <- (Hp (modify u f k)), (label_modify u f k Hf). apply Hp. }
  induction t as [w m b cs IH | s | s] using node_forest_ind; intros Hnd H;
    try discriminate.
  unfold find, find_all in H. rewrite descendants_tag in H.
  assert (Hu : In u (uids_f cs)).
  { apply hd_error_filter_in in H. destruct H as [H _].
    apply (descs_uids _ _ u H). left. reflexivity. }
  destruct (NoDup_tag _ _ _ _ Hnd) as [Hw Hcs].
  simpl modify. destruct (Nat.eqb u w) eqn:E.
  { apply Nat.eqb_eq in E. subst w. contradiction. }
  unfold find, find_all. rewrite descendants_tag.
  clear Hnd Hw E Hu. revert Hcs H.
  induction cs as [|k r IHr]; intros Hcs H; [discriminate|].
  inversion IH as [|k' r' Pk Pr]; subst.
  rewrite uids_f_cons in Hcs. destruct (NoDup_app_inv _ _ Hcs) as (Nk & Nr & Dk).
  simpl map. unfold descs in H |- *. simpl flat_map in H |- *.
  fold (descs r) in H. fold (descs (map (modify u f) r)).
  simpl filter in H |- *. rewrite Hpm. destruct (p k) eqn:Epk.
  - simpl in H. injection H as ->. simpl modify. rewrite Nat.eqb_refl. reflexivity.
  - rewrite filter_app in H |- *.
    destruct (filter p (descendants k)) as [|x0 rest] eqn:Ek.
    + simpl in H.
      assert (Hur : In u (uids_f r)).
      { apply hd_error_filter_in in H. destruct H as [H _].
        apply (descs_uids _ _ u H). left. reflexivity. }
      assert (Huk : ~ In u (uids k)).
      { intros K. exact (Dk u K Hur). }
      rewrite (modify_absent u f k Huk), Ek. simpl. apply (IHr Pr Nr H).
    + simpl in H. injection H as ->.
      assert (Hk : find p k = Some (Tag u n a ks)).
      { unfold find, find_all. rewrite Ek. reflexivity. }
      specialize (Pk Nk Hk). unfold find, find_all in Pk.
      destruct (filter p (descendants (modify u f k))) as [|y0 rest']; [discriminate|].
      simpl in Pk. injection Pk as ->. reflexivity.
Qed.

Lemma find_map_attrs p g t :
  (forall k, p (map_attrs g k) = p k) ->
  find p (map_attrs g t) = option_map (map_attrs g) (find p t).
Proof.
  intros Hp. unfold find, find_all. rewrite descendants_map_attrs.
  induction (descendants t) as [|k r IH]; [reflexivity|].
  simpl. rewrite Hp. destruct (p k); [reflexivity | exact IH].
Qed.

Lemma find_all_map_attrs p g t :
  (forall k, p (map_attrs g k) = p k) ->
  find_all p (map_attrs g t) = map (map_attrs g) (find_all p t).
Proof.
  intros Hp. unfold find_all. rewrite descendants_map_attrs.
  induction (descendants t) as [|k r IH]; [reflexivity|].
  simpl. rewrite Hp. destruct (p k); simpl; rewrite IH; reflexivity.
Qed.

End DomFacts.

(** *** Properties of the quiz content normalizer *)

Module QuizFacts.
Import Text Dom Fixer DomFacts.
Local Open Scope string_scope.
Local Open Scope list_scope.





Definition answer_key : node :=
  Tag 0 "[document]" []
    [Tag 1 "html" []
       [Tag 2 "body" []
          [Tag 3 "h1" [] [NavigableString "Answers"];
           Tag 4 "p" [] [NavigableString "  1. "; Tag 5 "b" [] [NavigableString " B "];
                         Comment "checked"];
           Tag 6 "div" [] [NavigableString "2. A"]]]].

Lemma answer_key_unique : NoDup (uids answer_key).
Proof. repeat constructor; simpl; intuition discriminate. Qed.



(** *** The padding of the quiz lists *)

Lemma is_li_label k : is_tag "li" (label k) = is_tag "li" k.
Proof. destruct k; reflexivity. Qed.

Lemma count_options_label ks : count_options (map label ks) = count_options ks.
Proof.
  unfold count_options. induction ks as [|k r IH]; [reflexivity|].
  simpl. rewrite is_li_label. destruct (is_tag "li" k); simpl; rewrite IH; reflexivity.
Qed.

Lemma count_options_same ks ks' :
  map label ks = map label ks' -> count_options ks = count_options ks'.
Proof.
  intros E. rewrite <- (count_options_label ks), <- (count_options_label ks'), E. reflexivity.
Qed.

Lemma count_options_app ks ks' :
  count_options (ks ++ ks') = count_options ks + count_options ks'.
Proof. unfold count_options. rewrite filter_app, length_app. reflexivity. Qed.

Lemma placeholder_items_count u i k : count_options (placeholder_items u i k) = k.
Proof.
  revert u i. induction k as [|k IH]; intros u i; [reflexivity|].
  unfold count_options in *. simpl. rewrite IH. reflexivity.
Qed.

Lemma placeholder_items_uids u i k : uids_f (placeholder_items u i k) = seq u k.
Proof.
  revert u i. induction k as [|k IH]; intros u i; [reflexivity|].
  simpl. f_equal. apply IH.
Qed.

Lemma placeholders_count c u0 : c + count_options (placeholders c u0) = Nat.max 4 c.
Proof. unfold placeholders. rewrite placeholder_items_count. lia. Qed.

Lemma placeholders_full c u0 : 4 <= c -> placeholders c u0 = [].
Proof. intros H. unfold placeholders. replace (4 - c) with 0 by lia. reflexivity. Qed.

Lemma placeholders_above c u0 x : In x (uids_f (placeholders c u0)) -> u0 <= x.
Proof.
  unfold placeholders. rewrite placeholder_items_uids. intros H. apply in_seq in H. lia.
Qed.

Lemma fresh_mono t s : incl (uids t) (uids s) -> fresh t <= fresh s.
Proof.
  intros H. unfold fresh. apply le_n_S. apply list_max_le.
  apply Forall_forall. intros x Hx. apply H in Hx. apply fresh_above in Hx.
  unfold fresh in Hx. lia.
Qed.

(** The quiz lists of a document and their state while the loop runs. *)
Definition quiz (t : node) (u : nat) (n : string) (a : attrs) (ks : list node) : Prop :=
  In (Tag u n a ks) (find_all is_quiz_options t).

Definition padded (t : node) (ks ks_s : list node) : Prop :=
  exists ks' u0,
    ks_s = ks' ++ placeholders (count_options ks) u0 /\
    map label ks' = map label ks /\ fresh t <= u0.

Record inv (t : node) (done : list nat) (st : node * bool) : Prop := {
  inv_nodup : NoDup (uids (fst st));
  inv_incl : incl (uids t) (uids (fst st));
  inv_quiz : forall u n a ks, quiz t u n a ks ->
      exists ks_s,
        subtree u (fst st) = Some (Tag u n a ks_s) /\
        (In u done -> padded t ks ks_s) /\
        (~ In u done -> map label ks_s = map label ks);
  inv_flag : snd st = true <->
             exists u n a ks, In u done /\ quiz t u n a ks /\ count_options ks < 4
}.

Lemma quiz_subtree t u n a ks :
  NoDup (uids t) -> quiz t u n a ks -> subtree u t = Some (Tag u n a ks).
Proof.
  intros Hnd H. unfold quiz, find_all in H. apply filter_In in H. destruct H as [H _].
  apply (subtree_of_descendant t Hnd _ u H). simpl. apply Nat.eqb_refl.
Qed.

Lemma quiz_uid t u n a ks : NoDup (uids t) -> quiz t u n a ks -> In u (uids t).
Proof.
  intros Hnd H. apply (quiz_subtree _ _ _ _ _ Hnd) in H.
  apply subtree_found in H. tauto.
Qed.

Lemma tag_uids_in u l : In u (tag_uids l) <-> exists n a ks, In (Tag u n a ks) l.
Proof.
  unfold tag_uids. rewrite in_flat_map. split.
  - intros (k & Hk & H). destruct k as [v n a ks | s | s]; simpl in H; [| destruct H | destruct H].
    destruct H as [<- | []]. eauto.
  - intros (n & a & ks & H). exists (Tag u n a ks). split; [exact H | left; reflexivity].
Qed.

Lemma inv_init t : NoDup (uids t) -> inv t [] (t, false).
Proof.
  intros Hnd. constructor; simpl.
  - exact Hnd.
  - apply incl_refl.
  - intros u n a ks H. exists ks. split; [apply (quiz_subtree _ _ _ _ _ Hnd H)|].
    split; [intros [] | reflexivity].
  - split; [discriminate | intros (u & n & a & ks & [] & _)].
Qed.

Lemma padded_count t ks ks_s : padded t ks ks_s -> count_options ks_s = Nat.max 4 (count_options ks).
Proof.
  intros (ks' & u0 & -> & E & _). rewrite count_options_app.
  rewrite (count_options_same _ _ E). apply placeholders_count.
Qed.

Lemma inv_step t done st u :
  NoDup (uids t) ->
  inv t done st -> (exists n a ks, quiz t u n a ks) -> inv t (u :: done) (pad st u).
Proof.
  intros Hnd [I1 I2 I3 I4] (n & a & ks & Hq). destruct st as [s m]. simpl in *.
  destruct (I3 u n a ks Hq) as (ks_s & Hs & Hdone & Hnew).
  unfold pad. rewrite Hs. simpl children.
  assert (Hsame : forall n' a' ks0 ks1,
             quiz t u n' a' ks0 -> subtree u s = Some (Tag u n' a' ks1) -> ks1 = ks_s).
  { intros n' a' ks0 ks1 _ H. rewrite Hs in H. injection H as _ _ <-. reflexivity. }
  destruct (in_dec Nat.eq_dec u done) as [Hin | Hout].
  - (* a list that was padded before *)
    pose proof (padded_count _ _ _ (Hdone Hin)) as Hc.
    assert (E : (count_options ks_s <? 4)%nat = false) by (apply Nat.ltb_ge; lia).
    rewrite E. constructor; simpl.
    + exact I1.
    + exact I2.
    + intros v n' a' ks0 Hv. destruct (I3 v n' a' ks0 Hv) as (ks1 & H1 & H2 & H3).
      exists ks1. split; [exact H1|]. split.
      * intros [<- | K]; [apply H2; exact Hin | apply H2; exact K].
      * intros K. apply H3. intros K'. apply K. right. exact K'.
    + rewrite I4. split; intros (v & n' & a' & ks0 & Hv & R).
      * exists v, n', a', ks0. split; [right; exact Hv | exact R].
      * exists v, n', a', ks0. split; [|exact R].
        destruct Hv as [<- | Hv]; [exact Hin | exact Hv].
  - pose proof (count_options_same _ _ (Hnew Hout)) as Hc.
    destruct ((count_options ks_s <? 4)%nat) eqn:E.
    + (* a short list: the placeholders are appended *)
      apply Nat.ltb_lt in E.
      set (new := placeholders (count_options ks_s) (fresh s)).
      assert (Hfresh : forall x, In x (uids_f new) -> ~ In x (uids s)).
      { intros x Hx K. apply placeholders_above in Hx. apply fresh_above in K. lia. }
      assert (Hold : forall v, In v (uids t) -> ~ In v (uids_f new)).
      { intros v Hv K. apply (Hfresh v K). apply I2. exact Hv. }
      constructor; simpl.
      * apply NoDup_modify_grow; [exact I1 | | exact Hfresh].
        unfold new, placeholders. rewrite placeholder_items_uids. apply seq_NoDup.
      * intros x Hx. apply uids_modify_grow_incl; [exact I1 | apply I2; exact Hx].
      * intros v n' a' ks0 Hv. destruct (I3 v n' a' ks0 Hv) as (ks1 & H1 & H2 & H3).
        destruct (Nat.eq_dec v u) as [-> | Hvu].
        -- exists (ks1 ++ new). split.
           ++ apply (subtree_modify_same u (extend new) s (Tag u n' a' ks1));
                [apply has_uid_grow | exact H1].
           ++ split; [|intros K; exfalso; apply K; left; reflexivity].
              intros _. exists ks1, (fresh s).
              pose proof (Hsame n' a' ks0 ks1 Hv H1) as ->.
              split; [|split].
              ** unfold new. rewrite (count_options_same _ _ (H3 Hout)). reflexivity.
              ** apply H3. exact Hout.
              ** apply fresh_mono. exact I2.
        -- exists (map (modify u (extend new)) ks1). split.
           ++ change (extend new) with (grow new).
              rewrite subtree_modify_other;
                [| exact I1 | exact Hvu | apply Hold; apply (quiz_uid _ _ _ _ _ Hnd Hv)].
              rewrite H1. simpl. apply Nat.eqb_neq in Hvu.
              rewrite Nat.eqb_sym, Hvu. reflexivity.
           ++ assert (L : forall l, map label (map (modify u (extend new)) l) = map label l).
              { intros l. rewrite map_map. apply map_ext. intros k.
                apply label_modify. intros y. apply label_grow. }
              split.
              ** intros [K | K]; [congruence|].
                 destruct (H2 K) as (ks' & u0 & -> & E1 & E2).
                 exists (map (modify u (extend new)) ks'), u0.
                 split; [|split; [rewrite L; exact E1 | exact E2]].
                 rewrite map_app. f_equal.
                 rewrite <- (map_id (placeholders (count_options ks0) u0)) at 2.
                 apply map_ext_in. intros k Hk. apply modify_absent. intros K'.
                 assert (Hx : In u (uids_f (placeholders (count_options ks0) u0))).
                 { apply uids_f_in. exists k. tauto. }
                 apply placeholders_above in Hx.
                 pose proof (fresh_above _ _ (quiz_uid _ _ _ _ _ Hnd Hq)). lia.
              ** intros K. rewrite L. apply H3. intros K'. apply K. right. exact K'.
      * split; [|reflexivity]. intros _. exists u, n, a, ks.
        split; [left; reflexivity|]. split; [exact Hq | lia].
    + (* a list with four options or more *)
      apply Nat.ltb_ge in E. constructor; simpl.
      * exact I1.
      * exact I2.
      * intros v n' a' ks0 Hv. destruct (I3 v n' a' ks0 Hv) as (ks1 & H1 & H2 & H3).
        exists ks1. split; [exact H1|]. split.
        -- intros [<- | K]; [|apply H2; exact K].
           pose proof (Hsame n' a' ks0 ks1 Hv H1) as ->.
           exists ks_s, (fresh t). split; [|split; [apply H3; exact Hout | apply Nat.le_refl]].
           rewrite placeholders_full; [symmetry; apply app_nil_r|].
           rewrite <- (count_options_same _ _ (H3 Hout)). exact E.
        -- intros K. apply H3. intros K'. apply K. right. exact K'.
      * rewrite I4. split; intros (v & n' & a' & ks0 & Hv & R).
        -- exists v, n', a', ks0. split; [right; exact Hv | exact R].
        -- exists v, n', a', ks0. split; [|exact R].
           destruct Hv as [<- | Hv]; [|exact Hv].
           exfalso. destruct R as [R1 R2].
           destruct (I3 u n' a' ks0 R1) as (ks1 & H1 & _ & H3).
           pose proof (Hsame n' a' ks0 ks1 R1 H1) as ->.
           rewrite (count_options_same _ _ (H3 Hout)) in E. lia.
Qed.

Lemma inv_fold t :
  NoDup (uids t) ->
  forall l done st,
    inv t done st -> (forall u, In u l -> exists n a ks, quiz t u n a ks) ->
    inv t (rev l ++ done) (fold_left pad l st).
Proof.
  intros Hnd. induction l as [|u r IH]; intros done st I H; [exact I|].
  simpl. rewrite <- app_assoc. simpl. apply IH.
  - apply (inv_step _ _ _ _ Hnd I). apply H. left. reflexivity.
  - intros v Hv. apply H. right. exact Hv.
Qed.

Lemma inv_pad_all t :
  NoDup (uids t) -> inv t (rev (tag_uids (find_all is_quiz_options t))) (pad_all t).
Proof.
  intros Hnd. unfold pad_all.
  rewrite <- (app_nil_r (rev (tag_uids (find_all is_quiz_options t)))).
  apply (inv_fold t Hnd); [apply inv_init; exact Hnd|].
  intros u Hu. apply tag_uids_in in Hu. exact Hu.
Qed.

(** [populate_quiz_options] rewrites the file exactly when some quiz
    list of the document has fewer than four [li] children. *)
Theorem populate_writes_iff (t : node) :
  NoDup (uids t) ->
  (populate_quiz_options t = None <->
   forall u n a ks, In (Tag u n a ks) (find_all is_quiz_options t) ->
                    4 <= count_options ks).
Proof.
  intros Hnd. pose proof (inv_pad_all t Hnd) as [_ _ _ I4].
  unfold populate_quiz_options. destruct (pad_all t) as [t' m]. simpl in I4.
  split.
  - intros H u n a ks Hq. destruct m; [discriminate|].
    destruct (le_lt_dec 4 (count_options ks)) as [L | L]; [exact L|].
    assert (K : false = true); [|discriminate].
    apply I4. exists u, n, a, ks. split; [|split; [exact Hq | exact L]].
    apply in_rev. rewrite rev_involutive. apply tag_uids_in. eauto.
  - intros H. destruct m; [|reflexivity].
    destruct I4 as [I4 _]. destruct (I4 eq_refl) as (u & n & a & ks & _ & Hq & L).
    specialize (H u n a ks Hq). lia.
Qed.

(** What [populate_quiz_options] writes: every quiz list keeps its
    children in their order and gets, after them, the placeholder
    items that bring the number of its [li] children to four; a list
    with four options or more gets none. *)
Theorem quiz_lists_padded (t t' : node) :
  NoDup (uids t) ->
  populate_quiz_options t = Some t' ->
  forall u n a ks,
    In (Tag u n a ks) (find_all is_quiz_options t) ->
    exists ks' u0,
      subtree u t' = Some (Tag u n a (ks' ++ placeholders (count_options ks) u0)) /\
      map label ks' = map label ks /\
      count_options (ks' ++ placeholders (count_options ks) u0)
      = Nat.max 4 (count_options ks).
Proof.
  intros Hnd. pose proof (inv_pad_all t Hnd) as [_ _ I3 _].
  unfold populate_quiz_options. destruct (pad_all t) as [s m]. simpl in I3.
  destruct m; [|discriminate]. intros H. injection H as <-.
  intros u n a ks Hq. destruct (I3 u n a ks Hq) as (ks_s & Hs & Hdone & _).
  assert (Hin : In u (rev (tag_uids (find_all is_quiz_options t)))).
  { apply in_rev. rewrite rev_involutive. apply tag_uids_in. eauto. }
  pose proof (Hdone Hin) as P. pose proof (padded_count _ _ _ P) as C.
  destruct P as (ks' & u0 & -> & E & _).
  exists ks', u0. split; [exact Hs|]. split; [exact E | exact C].
Qed.

Definition quiz_page : node :=
  Tag 0 "[document]" []
    [Tag 1 "html" []
       [Tag 2 "body" []
          [Tag 3 "ul" [("class", AttrList ["quiz-options"])]
             [NavigableString " ";
              Tag 4 "li" [] [NavigableString "Yes"];
              Tag 5 "li" []
                [Tag 6 "ul" [("class", AttrList ["quiz-options"; "inner"])] []]];
           Tag 7 "ul" [("class", AttrList ["plain"])] []]]].

Lemma quiz_page_unique : NoDup (uids quiz_page).
Proof. repeat constructor; simpl; intuition discriminate. Qed.

Lemma populate_writes_iff_witness :
  populate_quiz_options quiz_page = None <->
  forall u n a ks, In (Tag u n a ks) (find_all is_quiz_options quiz_page) ->
                   4 <= count_options ks.
Proof. apply (populate_writes_iff quiz_page quiz_page_unique). Defined.

Definition padded_page : node :=
  Eval vm_compute in
    match populate_quiz_options quiz_page with Some t' => t' | None => quiz_page end.

Lemma quiz_lists_padded_witness :
  exists ks' u0,
    subtree 3 padded_page
    = Some (Tag 3 "ul" [("class", AttrList ["quiz-options"])]
              (ks' ++ placeholders 2 u0)) /\
    map label ks' = [NavigableString " "; Tag 4 "li" [] []; Tag 5 "li" [] []] /\
    count_options (ks' ++ placeholders 2 u0) = Nat.max 4 2.
Proof.
  assert (E : populate_quiz_options quiz_page = Some padded_page) by reflexivity.
  apply (quiz_lists_padded quiz_page padded_page quiz_page_unique E 3 "ul"
           [("class", AttrList ["quiz-options"])]
           [NavigableString " ";
            Tag 4 "li" [] [NavigableString "Yes"];
            Tag 5 "li" []
              [Tag 6 "ul" [("class", AttrList ["quiz-options"; "inner"])] []]]).
  vm_compute. left. reflexivity.
Defined.


(** The quiz lists of the tree in work are quiz lists of the document:
    the loop adds list items only. *)
Definition only_known (t s : node) : Prop :=
  forall v n a ks,
    In (Tag v n a ks) (descendants s) -> is_quiz_options (Tag v n a ks) = true ->
    exists ks0, quiz t v n a ks0.

Lemma placeholder_not_quiz u i k b :
  In b (descs (placeholder_items u i k)) -> is_quiz_options b = false.
Proof.
  revert u i. induction k as [|k IH]; intros u i H; [destruct H|].
  simpl in H. destruct H as [<- | [<- | H]]; try reflexivity.
  apply (IH (S u) (S i)). exact H.
Qed.

Lemma known_step t st u : only_known t (fst st) -> only_known t (fst (pad st u)).
Proof.
  intros K. destruct st as [s m]. unfold pad.
  destruct (subtree u s) as [x|]; [|exact K].
  destruct ((count_options (children x) <? 4)%nat); [|exact K].
  simpl. intros v n a ks H Hp.
  apply descendants_modify_grow in H. destruct H as [(ks0 & H) | H].
  - apply (K v n a ks0 H). exact Hp.
  - unfold placeholders in H. apply placeholder_not_quiz in H. congruence.
Qed.

Lemma known_fold t l : forall st, only_known t (fst st) -> only_known t (fst (fold_left pad l st)).
Proof.
  induction l as [|u r IH]; intros st K; [exact K|].
  simpl. apply IH. apply known_step. exact K.
Qed.

Lemma known_pad_all t : only_known t (fst (pad_all t)).
Proof.
  unfold pad_all. apply known_fold. simpl. intros v n a ks H Hp.
  exists ks. unfold quiz, find_all. apply filter_In. tauto.
Qed.

Lemma no_short_list_no_write t :
  NoDup (uids t) ->
  (forall u n a ks, quiz t u n a ks -> 4 <= count_options ks) ->
  populate_quiz_options t = None.
Proof.
  intros Hnd H. pose proof (inv_pad_all t Hnd) as [_ _ _ I4].
  unfold populate_quiz_options. destruct (pad_all t) as [t' m]. simpl in I4.
  destruct m; [|reflexivity].
  destruct I4 as [I4 _]. destruct (I4 eq_refl) as (u & n & a & ks & _ & Hq & L).
  specialize (H u n a ks Hq). lia.
Qed.

(** Run on its own result, [populate_quiz_options] finds every quiz
    list with four options or more and does not write. *)
Theorem populate_second_run (t t' : node) :
  NoDup (uids t) ->
  populate_quiz_options t = Some t' ->
  populate_quiz_options t' = None.
Proof.
  intros Hnd. pose proof (inv_pad_all t Hnd) as [I1 _ I3 _].
  pose proof (known_pad_all t) as K.
  unfold populate_quiz_options at 1. destruct (pad_all t) as [s m]. simpl in I1, I3, K.
  destruct m; [|discriminate]. intros H. injection H as <-.
  apply (no_short_list_no_write s I1).
  intros u n a ks Hq. unfold quiz, find_all in Hq. apply filter_In in Hq.
  destruct Hq as [Hd Hp].
  destruct (K u n a ks Hd Hp) as (ks0 & Hq0).
  destruct (I3 u n a ks0 Hq0) as (ks_s & Hs & Hdone & _).
  assert (E : subtree u s = Some (Tag u n a ks)).
  { apply (subtree_of_descendant s I1 _ u Hd). simpl. apply Nat.eqb_refl. }
  rewrite Hs in E. injection E as ->.
  assert (Hin : In u (rev (tag_uids (find_all is_quiz_options t)))).
  { apply in_rev. rewrite rev_involutive. apply tag_uids_in. eauto. }
  rewrite (padded_count _ _ _ (Hdone Hin)). lia.
Qed.

Lemma populate_second_run_witness : populate_quiz_options padded_page = None.
Proof.
  apply (populate_second_run quiz_page padded_page quiz_page_unique). reflexivity.
Defined.


Lemma is_body_label k : is_tag "body" (label k) = is_tag "body" k.
Proof. destruct k; reflexivity. Qed.

Lemma label_replace_blocks ol y : label (replace_blocks ol y) = label y.
Proof. destruct y; reflexivity. Qed.

Lemma filter_none {A} (p : A -> bool) (l : list A) :
  filter p (filter (fun k => negb (p k)) l) = [].
Proof.
  induction l as [|k r IH]; [reflexivity|].
  simpl. destruct (p k) eqn:E; simpl; [exact IH|]. rewrite E. exact IH.
Qed.

(** Run on its own result, [restructure_quiz_key] finds no [p] or
    [div] child of the body and returns without writing: the answers
    are not wrapped a second time. *)
Theorem restructure_second_run (t t' : node) :
  NoDup (uids t) ->
  restructure_quiz_key t = Some t' ->
  restructure_quiz_key t' = None.
Proof.
  intros Hnd. unfold restructure_quiz_key at 1.
  destruct (find (is_tag "body") t) as [[u n a ks | s | s]|] eqn:Hf; try discriminate.
  destruct (filter is_block ks) as [|p r] eqn:Hb; [discriminate|].
  intros H. cbv zeta in H. injection H as <-.
  match goal with
  | |- restructure_quiz_key (modify u (replace_blocks ?o) t) = None =>
      pose proof (find_modify_same (is_tag "body") u (replace_blocks o) t n a ks
                    is_body_label (label_replace_blocks o) Hnd Hf) as Hf'
  end.
  unfold restructure_quiz_key. rewrite Hf'. unfold replace_blocks. cbv beta iota.
  rewrite filter_app, filter_none. reflexivity.
Qed.

Lemma restructure_second_run_witness :
  exists t', restructure_quiz_key answer_key = Some t' /\ restructure_quiz_key t' = None.
Proof.
  eexists. split; [reflexivity|].
  apply (restructure_second_run answer_key _ answer_key_unique). reflexivity.
Defined.

End QuizFacts.

(** *** Properties of the structure fixer *)

Module FixerFacts.
Import Text Dom Fixer DomFacts.
Local Open Scope string_scope.
Local Open Scope list_scope.

Definition unstyled (n : string) (a : attrs) : bool := negb (has_attr "style" a).

Lemma every_tag_append p x y :
  every_tag p x = true -> every_tag p y = true -> every_tag p (append_child x y) = true.
Proof.
  intros Hx. destruct y as [v n a ks | s | s]; try (intros; reflexivity).
  simpl. intros K. apply andb_true_iff in K. destruct K as [K1 K2].
  rewrite K1. simpl. rewrite forallb_app, K2. simpl. rewrite Hx. reflexivity.
Qed.

(** The stylesheet step adds [link] tags and nothing else. *)
Lemma ensure_links_every p t :
  (forall u h, every_tag p (new_link u h) = true) ->
  every_tag p t = true -> every_tag p (ensure_links t) = true.
Proof.
  intros Hl. unfold ensure_links.
  destruct (find (is_tag "head") t) as [[u n a ks | s | s]|]; try tauto.
  generalize (existing_hrefs (Tag u n a ks)). intros existing.
  generalize styles_to_ensure. intros hrefs. revert t.
  induction hrefs as [|h r IH]; intros t K; simpl; [exact K|].
  apply IH. destruct (existsb (attr_value_eqb (AttrStr h)) existing); [exact K|].
  apply every_tag_modify; [|exact K].
  intros x Hx. apply every_tag_append; [apply Hl | exact Hx].
Qed.

Lemma has_attr_set_other k k' v a : k <> k' -> has_attr k (set_attr k' v a) = has_attr k a.
Proof. intros N. unfold has_attr. rewrite (get_set_other _ _ _ _ N). reflexivity. Qed.

Lemma image_attrs_unstyled a : has_attr "style" (image_attrs a) = has_attr "style" a.
Proof.
  unfold image_attrs. destruct (get_attr "src" a) as [[src | l]|]; try reflexivity.
  set (a1 := if String.eqb (Filename.normalize_filename src) src then a
             else set_attr "src" (AttrStr (Filename.normalize_filename src)) a).
  assert (E : has_attr "style" a1 = has_attr "style" a).
  { unfold a1. destruct (String.eqb (Filename.normalize_filename src) src); [reflexivity|].
    apply has_attr_set_other. discriminate. }
  destruct (match get_attr "alt" a1 with
            | Some v => attr_value_eqb v (AttrStr "")
            | None => true
            end); [|exact E].
  rewrite has_attr_set_other by discriminate. exact E.
Qed.

(** After [fix_xhtml_file] no element of the document carries an inline
    [style] attribute. *)
Theorem no_inline_style_left (t t' : node) :
  fix_xhtml_tree t = Some t' ->
  forall u n a ks, In (Tag u n a ks) (descendants t') -> has_attr "style" a = false.
Proof.
  unfold fix_xhtml_tree. destruct (relocate_all (ensure_namespaces t)) as [s|]; [|discriminate].
  intros H. injection H as <-. intros u n a ks Hin.
  assert (K : every_tag unstyled (fix_images (ensure_links (strip_styles s))) = true).
  { unfold fix_images. apply every_tag_map_attrs_keep.
    - intros m b Hb. unfold unstyled in *.
      destruct (String.eqb m "img"); [|exact Hb]. rewrite image_attrs_unstyled. exact Hb.
    - apply ensure_links_every; [reflexivity|].
      unfold strip_styles. apply every_tag_map_attrs. intros m b. unfold unstyled.
      destruct (has_attr "style" b) eqn:E; [|rewrite E; reflexivity].
      unfold has_attr. rewrite get_del_same. reflexivity. }
  pose proof (every_tag_descendants _ _ K u n a ks Hin) as R.
  unfold unstyled in R. apply negb_true_iff in R. exact R.
Qed.

Definition styled_page : node :=
  Tag 0 "[document]" []
    [Tag 1 "html" []
       [Tag 2 "head" [] [Tag 3 "title" [] [NavigableString "One"]];
        Tag 4 "body" [("style", AttrStr "margin:0")]
          [Tag 5 "p" [("class", AttrList ["lead"]); ("style", AttrStr "color:red")]
             [NavigableString "Text"];
           Tag 6 "img" [("src", AttrStr "../images/My Pic_Final.PNG"); ("style", AttrStr "x")] [];
           Tag 7 "img" [("src", AttrStr "cover.png"); ("alt", AttrStr "Cover")] []]]].

Lemma no_inline_style_left_witness :
  exists t',
    fix_xhtml_tree styled_page = Some t' /\
    forall u n a ks, In (Tag u n a ks) (descendants t') -> has_attr "style" a = false.
Proof.
  eexists. split; [reflexivity|].
  apply (no_inline_style_left styled_page). reflexivity.
Defined.

Lemma image_attrs_result a src :
  get_attr "src" (image_attrs a) = Some (AttrStr src) ->
  (exists before, get_attr "src" a = Some (AttrStr before) /\
                  src = Filename.normalize_filename before) /\
  (exists alt, get_attr "alt" (image_attrs a) = Some alt /\ alt <> AttrStr "").
Proof.
  unfold image_attrs. destruct (get_attr "src" a) as [[s0 | l]|] eqn:Es;
    try (intros H; rewrite Es in H; discriminate).
  set (ns := Filename.normalize_filename s0).
  set (a1 := if String.eqb ns s0 then a else set_attr "src" (AttrStr ns) a).
  assert (E1 : get_attr "src" a1 = Some (AttrStr ns)).
  { unfold a1. destruct (String.eqb ns s0) eqn:E.
    - apply String.eqb_eq in E. rewrite E. exact Es.
    - apply get_set_same. }
  destruct (get_attr "alt" a1) as [v|] eqn:Ea.
  - destruct (attr_value_eqb v (AttrStr "")) eqn:Ev.
    + rewrite get_set_other by discriminate. rewrite E1. intros H. injection H as <-.
      split; [exists s0; split; reflexivity|].
      eexists. split; [apply get_set_same | discriminate].
    + rewrite E1. intros H. injection H as <-.
      split; [exists s0; split; reflexivity|].
      exists v. split; [exact Ea|]. intros ->. simpl in Ev. discriminate.
  - rewrite get_set_other by discriminate. rewrite E1. intros H. injection H as <-.
    split; [exists s0; split; reflexivity|].
    eexists. split; [apply get_set_same | discriminate].
Qed.

(** After [fix_xhtml_file] every [img] element that has a [src] has an
    [alt] attribute that is not the empty string, and its [src] is a
    normalized name. *)
Theorem images_described (t t' : node) :
  fix_xhtml_tree t = Some t' ->
  forall u a ks src,
    In (Tag u "img" a ks) (descendants t') ->
    get_attr "src" a = Some (AttrStr src) ->
    (exists alt, get_attr "alt" a = Some alt /\ alt <> AttrStr "") /\
    (exists before, src = Filename.normalize_filename before).
Proof.
  unfold fix_xhtml_tree. destruct (relocate_all (ensure_namespaces t)) as [s|]; [|discriminate].
  intros H. injection H as <-. intros u a ks src Hin Hsrc.
  unfold fix_images in Hin. rewrite descendants_map_attrs in Hin.
  apply in_map_iff in Hin. destruct Hin as (k & E & _).
  destruct k as [v n b cs | s0 | s0]; try discriminate.
  simpl in E. injection E as -> -> <- _. simpl in Hsrc.
  destruct (image_attrs_result b src Hsrc) as [(before & _ & Eb) Halt].
  split; [exact Halt | exists before; exact Eb].
Qed.

Definition fixed_page : node :=
  Eval vm_compute in
    match fix_xhtml_tree styled_page with Some t' => t' | None => styled_page end.

Lemma images_described_witness :
  (exists alt, get_attr "alt" [("src", AttrStr "../images/my-pic.png");
                               ("alt", AttrStr "Illustration: My pic")] = Some alt /\
               alt <> AttrStr "") /\
  (exists before, "../images/my-pic.png" = Filename.normalize_filename before).
Proof.
  assert (E : fix_xhtml_tree styled_page = Some fixed_page) by reflexivity.
  apply (images_described styled_page fixed_page E 6 _ [] "../images/my-pic.png").
  - vm_compute. repeat (first [left; reflexivity | right]).
  - reflexivity.
Defined.


(** *** Rules and lists *)

(** The ancestors of a tag, from its parent up to the root, each with
    its identity and name. *)
Definition chain := list (nat * string).

(** No list element in a chain. *)
Definition clear (c : chain) : bool :=
  forallb (fun q => negb (is_list_name (snd q))) c.

(** A chain without the list elements it starts with. *)
Fixpoint drop_lists (c : chain) : chain :=
  match c with
  | (q, qn) :: r => if is_list_name qn then drop_lists r else c
  | [] => []
  end.

(** Where a rule can stand for step 4 to leave it outside every list:
    above the list elements that its chain starts with there is no
    further list element, and when its parent is a list element, the
    first element above them is not the root. *)
Definition ok (c : chain) : bool :=
  clear (drop_lists c) &&
  match c with
  | (_, pn) :: _ => if is_list_name pn then (2 <=? length (drop_lists c))%nat else true
  | [] => true
  end.

(** The parent is not a list element. *)
Definition parent_free (c : chain) : bool :=
  match c with
  | (_, pn) :: _ => negb (is_list_name pn)
  | [] => true
  end.

(** Every [hr] of a tree passes a test on its chain; [ctx] is the chain
    of the root. *)
Fixpoint every_hr (P : chain -> bool) (ctx : chain) (t : node) : bool :=
  match t with
  | Tag w n _ ks =>
      (if String.eqb n "hr" then P ctx else true)
      && forallb (every_hr P ((w, n) :: ctx)) ks
  | _ => true
  end.

Lemma forallb_eq_Forall {A} (f g : A -> bool) l :
  Forall (fun k => f k = g k) l -> forallb f l = forallb g l.
Proof. induction 1 as [|k r Hk _ IH]; simpl; [reflexivity|]. rewrite Hk, IH. reflexivity. Qed.

Lemma every_hr_locate P t :
  forall ctx h up,
    every_hr P ctx t = true -> locate h t = Some ("hr", up) -> P (up ++ ctx) = true.
Proof.
  induction t as [w n a ks IH | s | s] using node_forest_ind; intros ctx h up K H;
    try discriminate.
  simpl in K. apply andb_true_iff in K. destruct K as [K1 K2].
  simpl in H. destruct (Nat.eqb h w) eqn:E.
  - injection H as -> <-. simpl. exact K1.
  - destruct (first_some (locate h) ks) as [[nm up0]|] eqn:F; [|discriminate].
    injection H as -> <-. apply first_some_some in F.
    destruct F as (pre & k & post & -> & Hk & _).
    assert (Hin : In k (pre ++ k :: post)) by (apply in_or_app; right; left; reflexivity).
    rewrite forallb_forall in K2. rewrite Forall_forall in IH.
    rewrite <- app_assoc. simpl. apply (IH k Hin ((w, n) :: ctx) h up0 (K2 k Hin) Hk).
Qed.

Lemma locate_every_hr P t :
  NoDup (uids t) -> forall ctx,
  (forall h up, locate h t = Some ("hr", up) -> P (up ++ ctx) = true) ->
  every_hr P ctx t = true.
Proof.
  induction t as [w n a ks IH | s | s] using node_forest_ind; intros Hnd ctx H;
    try reflexivity.
  simpl. apply andb_true_iff. split.
  - destruct (String.eqb n "hr") eqn:E; [|reflexivity].
    apply String.eqb_eq in E. subst n. apply (H w []). apply locate_root.
  - apply forallb_forall. intros k Hk. rewrite Forall_forall in IH.
    apply (IH k Hk (NoDup_child _ _ _ _ _ Hnd Hk)).
    intros h up Hl. apply in_split in Hk. destruct Hk as (pre & post & ->).
    specialize (H h (up ++ [(w, n)])). rewrite <- app_assoc in H. apply H.
    rewrite (locate_in_child _ _ _ _ _ _ _ Hnd (locate_found _ _ _ Hl)), Hl. reflexivity.
Qed.

Lemma every_hr_map_attrs P g t : forall ctx, every_hr P ctx (map_attrs g t) = every_hr P ctx t.
Proof.
  induction t as [w n a ks IH | s | s] using node_forest_ind; intros ctx; try reflexivity.
  simpl. f_equal. rewrite forallb_map. apply forallb_eq_Forall.
  eapply Forall_impl; [|exact IH]. intros k Hk. apply Hk.
Qed.

Lemma every_hr_modify_eq P u f t :
  (forall y ctx, every_hr P ctx (f y) = every_hr P ctx y) ->
  forall ctx, every_hr P ctx (modify u f t) = every_hr P ctx t.
Proof.
  intros Hf. induction t as [w n a ks IH | s | s] using node_forest_ind; intros ctx;
    try reflexivity.
  simpl modify. destruct (Nat.eqb u w); [apply Hf|].
  simpl. f_equal. rewrite forallb_map. apply forallb_eq_Forall.
  eapply Forall_impl; [|exact IH]. intros k Hk. apply Hk.
Qed.

Lemma every_hr_modify_keep P u f t :
  (forall y ctx, every_hr P ctx y = true -> every_hr P ctx (f y) = true) ->
  forall ctx, every_hr P ctx t = true -> every_hr P ctx (modify u f t) = true.
Proof.
  intros Hf. induction t as [w n a ks IH | s | s] using node_forest_ind; intros ctx K;
    try reflexivity.
  simpl modify. destruct (Nat.eqb u w); [apply Hf; exact K|].
  simpl in K |- *. apply andb_true_iff in K. destruct K as [K1 K2].
  rewrite K1. simpl. rewrite forallb_map. apply forallb_forall.
  intros k Hk. rewrite Forall_forall in IH. apply (IH k Hk).
  rewrite forallb_forall in K2. apply (K2 k Hk).
Qed.

Lemma uids_modify_same u f t :
  (forall y, uids (f y) = uids y) -> uids (modify u f t) = uids t.
Proof.
  intros Hf. induction t as [w n a ks IH | s | s] using node_forest_ind; try reflexivity.
  simpl modify. destruct (Nat.eqb u w); [apply Hf|].
  simpl. f_equal. induction ks as [|k r IHr]; [reflexivity|].
  inversion IH as [|k' r' Hk Hr]; subst. simpl. rewrite Hk. f_equal. apply IHr. exact Hr.
Qed.

(** The namespace step changes attributes only. *)
Lemma ensure_namespaces_uids t : uids (ensure_namespaces t) = uids t.
Proof.
  unfold ensure_namespaces. destruct (find (is_tag "html") t) as [[u n a ks | s | s]|];
    try reflexivity.
  apply uids_modify_same. intros [v m b cs | s | s]; reflexivity.
Qed.

Lemma ensure_namespaces_hr P t ctx :
  every_hr P ctx (ensure_namespaces t) = every_hr P ctx t.
Proof.
  unfold ensure_namespaces. destruct (find (is_tag "html") t) as [[u n a ks | s | s]|];
    try reflexivity.
  apply every_hr_modify_eq. intros [v m b cs | s | s] c; reflexivity.
Qed.

(** The stylesheet step adds [link] tags, which are no rules. *)
Lemma ensure_links_hr P t ctx :
  every_hr P ctx t = true -> every_hr P ctx (ensure_links t) = true.
Proof.
  unfold ensure_links.
  destruct (find (is_tag "head") t) as [[u n a ks | s | s]|]; try tauto.
  generalize (existing_hrefs (Tag u n a ks)). intros existing.
  generalize styles_to_ensure. intros hrefs. revert t.
  induction hrefs as [|h r IH]; intros t K; simpl; [exact K|].
  apply IH. destruct (existsb (attr_value_eqb (AttrStr h)) existing); [exact K|].
  apply every_hr_modify_keep; [|exact K].
  intros [v m b cs | s | s] c Hy; try exact Hy.
  simpl in Hy |- *. apply andb_true_iff in Hy. destruct Hy as [H1 H2].
  rewrite H1, forallb_app, H2. reflexivity.
Qed.

(** Chains. *)
Lemma drop_lists_suffix c : exists pre, c = pre ++ drop_lists c.
Proof.
  induction c as [|[q qn] r IH]; [exists []; reflexivity|].
  simpl. destruct (is_list_name qn).
  - destruct IH as (pre & E). exists ((q, qn) :: pre). simpl. rewrite <- E. reflexivity.
  - exists []. reflexivity.
Qed.

Lemma clear_ok c : clear c = true -> ok c = true.
Proof.
  intros H. unfold ok. destruct c as [|[p pn] r]; [reflexivity|].
  simpl in H. apply andb_true_iff in H. destruct H as [H1 H2].
  apply negb_true_iff in H1. simpl. rewrite H1. simpl. rewrite H1, H2. reflexivity.
Qed.

Lemma ok_free p pn c : is_list_name pn = false -> ok ((p, pn) :: c) = true ->
  clear ((p, pn) :: c) = true.
Proof.
  intros H K. unfold ok in K. simpl in K. rewrite H in K.
  apply andb_true_iff in K. tauto.
Qed.

Lemma ok_movable p pn c :
  is_list_name pn = true -> ok ((p, pn) :: c) = true ->
  exists T tn q R, drop_lists c = (T, tn) :: q :: R /\ clear (q :: R) = true.
Proof.
  intros H K. unfold ok in K. simpl in K. rewrite H in K.
  apply andb_true_iff in K. destruct K as [K1 K2].
  destruct (drop_lists c) as [|[T tn] [|q R]]; try discriminate.
  exists T, tn, q, R. split; [reflexivity|].
  simpl in K1. apply andb_true_iff in K1. tauto.
Qed.

Lemma drop_lists_stops inner h hn rest :
  is_list_name hn = false ->
  exists pre, drop_lists (inner ++ (h, hn) :: rest) = pre ++ (h, hn) :: rest.
Proof.
  intros H. induction inner as [|[q qn] r IH]; simpl.
  - rewrite H. exists []. reflexivity.
  - destruct (is_list_name qn); [exact IH|].
    exists ((q, qn) :: r). reflexivity.
Qed.

Lemma ok_blocked inner h hn p pn rest :
  is_list_name hn = false -> is_list_name pn = true ->
  ok (inner ++ (h, hn) :: (p, pn) :: rest) = false.
Proof.
  intros Hh Hp. unfold ok.
  destruct (drop_lists_stops inner h hn ((p, pn) :: rest) Hh) as (pre & ->).
  assert (E : clear (pre ++ (h, hn) :: (p, pn) :: rest) = false).
  { unfold clear. rewrite forallb_app. simpl. rewrite Hp. simpl.
    rewrite !andb_false_r. reflexivity. }
  rewrite E. reflexivity.
Qed.

Lemma climb_spec up : forall p pn T tn R,
  drop_lists ((p, pn) :: up) = (T, tn) :: R -> R <> [] -> climb p pn up = (T, R).
Proof.
  induction up as [|[q qn] up' IH]; intros p pn T tn R H HR.
  - simpl in H. destruct (is_list_name pn); [discriminate|].
    injection H as _ _ <-. congruence.
  - simpl climb. simpl drop_lists in H. destruct (is_list_name pn).
    + apply (IH q qn T tn R); [exact H | exact HR].
    + injection H as <- _ <-. reflexivity.
Qed.

Lemma locate_ancestor t :
  NoDup (uids t) -> forall pre v nm T tn R,
  locate v t = Some (nm, pre ++ (T, tn) :: R) -> locate T t = Some (tn, R).
Proof.
  intros Hnd. induction pre as [|[p pn] pre IH]; intros v nm T tn R H.
  - apply (locate_parent v t Hnd nm T tn R H).
  - simpl in H. apply (locate_parent v t Hnd) in H. apply (IH p pn T tn R H).
Qed.

Lemma locate_last v w n a ks nv inner :
  locate v (Tag w n a ks) = Some (nv, inner) ->
  (inner = [] /\ v = w /\ nv = n) \/ exists inner', inner = inner' ++ [(w, n)].
Proof.
  simpl. destruct (Nat.eqb v w) eqn:E.
  - intros H. injection H as <- <-. apply Nat.eqb_eq in E. left. tauto.
  - destruct (first_some (locate v) ks) as [[nm up]|]; [|discriminate].
    intros H. injection H as <- <-. right. eauto.
Qed.

(** One relocation: where every tag is afterwards. *)
Lemma relocate_moves h s nm p pn up' :
  NoDup (uids s) ->
  locate h s = Some (nm, (p, pn) :: up') -> is_list_name pn = true ->
  forall T tn q R, drop_lists up' = (T, tn) :: q :: R ->
  exists a ks s',
    subtree h s = Some (Tag h nm a ks) /\ relocate h s = Some s' /\ NoDup (uids s') /\
    (forall v, ~ In v (uids (Tag h nm a ks)) -> locate v s' = locate v s) /\
    (forall v nv inner, locate v (Tag h nm a ks) = Some (nv, inner) ->
        locate v s = Some (nv, inner ++ (p, pn) :: up') /\
        locate v s' = Some (nv, inner ++ q :: R)).
Proof.
  intros Hnd Hl Hp T tn q R Hd.
  destruct (locate_subtree h s Hnd _ _ Hl) as (a & ks & Hs).
  set (x := Tag h nm a ks) in *.
  pose proof (locate_parent h s Hnd _ _ _ _ Hl) as Hpar.
  destruct (uids_remove h s Hnd x nm (p, pn) up' Hs Hl) as (l1 & l2 & E1 & E2).
  assert (Hmid : NoDup (l1 ++ uids x ++ l2)) by (rewrite <- E1; exact Hnd).
  destruct (NoDup_remove_middle _ _ _ Hmid) as (N1 & Nx & D).
  assert (Hnd1 : NoDup (uids (remove h s))) by (rewrite E2; exact N1).
  assert (Hpx : ~ In p (uids x)).
  { intros K. destruct (locate_present p x K) as ([pn' inner] & Hi).
    pose proof (locate_compose h s Hnd x nm _ p pn' inner Hs Hl Hi) as Hc.
    rewrite Hpar in Hc. injection Hc as _ Hc.
    apply (f_equal (@length (nat * string))) in Hc.
    rewrite length_app in Hc. simpl in Hc. lia. }
  assert (Hp1 : locate p (remove h s) = Some (pn, up')).
  { rewrite (locate_remove_out h s Hnd x p Hs Hpx). exact Hpar. }
  destruct (drop_lists_suffix up') as (pre & Epre). rewrite Hd in Epre.
  assert (HT1 : locate T (remove h s) = Some (tn, q :: R)).
  { apply (locate_ancestor _ Hnd1 pre p pn T tn (q :: R)). rewrite <- Epre. exact Hp1. }
  assert (Hclimb : climb p pn up' = (T, q :: R)).
  { apply (climb_spec up' p pn T tn (q :: R)); [|discriminate].
    simpl. rewrite Hp. exact Hd. }
  exists a, ks, (insert_after T x (remove h s)). fold x.
  split; [exact Hs|]. split; [|split; [|split]].
  - unfold relocate. rewrite Hl, Hp, Hs, Hp1, Hclimb. reflexivity.
  - destruct (uids_insert T x (remove h s) Hnd1 tn q R HT1) as (l1' & l2' & F1 & F2).
    rewrite F2. apply NoDup_insert_middle.
    + rewrite <- F1. exact Hnd1.
    + exact Nx.
    + intros y Hy. rewrite <- F1, E2. apply D. exact Hy.
  - intros v Hv. rewrite locate_insert_out by (apply locate_absent; exact Hv).
    apply (locate_remove_out h s Hnd x v Hs Hv).
  - intros v nv inner Hi. split.
    + apply (locate_compose h s Hnd x nm _ v nv inner Hs Hl Hi).
    + assert (Hnot : ~ In v (uids (remove h s))).
      { rewrite E2. apply D. apply (locate_found _ _ _ Hi). }
      apply (locate_insert_in T x v nv inner (remove h s) Hnd1 Hnot Hi tn q R HT1).
Qed.

(** The state of the loop over the rules. *)
Record rinv (t0 : node) (done : list nat) (s : node) : Prop := {
  r_nodup : NoDup (uids s);
  r_ok : forall h up, locate h s = Some ("hr", up) -> ok up = true;
  r_done : forall h up, In h done -> locate h s = Some ("hr", up) -> clear up = true;
  r_names : forall v nm,
      (exists q up, locate v s = Some (nm, q :: up)) <->
      (exists q up, locate v t0 = Some (nm, q :: up))
}.

Lemma relocate_step t0 done s h :
  rinv t0 done s -> (exists q up, locate h t0 = Some ("hr", q :: up)) ->
  exists s', relocate h s = Some s' /\ rinv t0 (h :: done) s'.
Proof.
  intros [I1 I2 I3 I4] H0. apply I4 in H0. destruct H0 as ([p pn] & up' & Hl).
  pose proof (I2 h _ Hl) as Hok.
  destruct (is_list_name pn) eqn:Hp.
  - (* the parent is a list element: the rule is moved *)
    destruct (ok_movable p pn up' Hp Hok) as (T & tn & q & R & Hd & Hc).
    destruct (relocate_moves h s "hr" p pn up' I1 Hl Hp T tn q R Hd)
      as (a & ks & s' & Hs & Hr & Hnd' & Hout & Hin).
    set (x := Tag h "hr" a ks) in *.
    assert (Hx : forall v up, In v (uids x) -> locate v s' = Some ("hr", up) ->
                              v = h /\ up = q :: R).
    { intros v up Hv Hv'. destruct (locate_present v x Hv) as ([nv inner] & Hi).
      destruct (Hin v nv inner Hi) as [Ha Hb]. rewrite Hb in Hv'. injection Hv' as -> <-.
      destruct (locate_last _ _ _ _ _ _ _ Hi) as [(-> & -> & _) | (inner' & ->)].
      - split; reflexivity.
      - exfalso. pose proof (I2 v _ Ha) as K. rewrite <- app_assoc in K. simpl in K.
        rewrite (ok_blocked inner' h "hr" p pn up' eq_refl Hp) in K. discriminate. }
    exists s'. split; [exact Hr|]. constructor.
    + exact Hnd'.
    + intros v up Hv. destruct (in_dec Nat.eq_dec v (uids x)) as [K | K].
      * destruct (Hx v up K Hv) as [_ ->]. apply clear_ok. exact Hc.
      * rewrite (Hout v K) in Hv. apply (I2 v up Hv).
    + intros v up Hd' Hv. destruct (in_dec Nat.eq_dec v (uids x)) as [K | K].
      * destruct (Hx v up K Hv) as [_ ->]. exact Hc.
      * rewrite (Hout v K) in Hv. destruct Hd' as [<- | Hd'].
        -- exfalso. apply K. left. reflexivity.
        -- apply (I3 v up Hd' Hv).
    + intros v nm. rewrite <- I4.
      destruct (in_dec Nat.eq_dec v (uids x)) as [K | K].
      * destruct (locate_present v x K) as ([nv inner] & Hi).
        destruct (Hin v nv inner Hi) as [Ha Hb]. rewrite Ha, Hb.
        split; intros (q0 & up0 & E); injection E as <- _.
        -- destruct inner as [|i0 inner]; simpl; eauto.
        -- destruct inner as [|i0 inner]; simpl; eauto.
      * rewrite (Hout v K). tauto.
  - (* the parent is no list element: nothing happens *)
    exists s. split.
    + unfold relocate. rewrite Hl, Hp. reflexivity.
    + constructor; try assumption.
      intros v up [<- | Hd'] Hv; [|apply (I3 v up Hd' Hv)].
      rewrite Hl in Hv. injection Hv as <-. apply (ok_free p pn up' Hp Hok).
Qed.

Lemma relocate_fold t0 l : forall done s,
  rinv t0 done s ->
  (forall h, In h l -> exists q up, locate h t0 = Some ("hr", q :: up)) ->
  exists s',
    fold_left (fun acc hr => match acc with Some s0 => relocate hr s0 | None => None end)
              l (Some s) = Some s' /\
    rinv t0 (rev l ++ done) s'.
Proof.
  induction l as [|h r IH]; intros done s I H.
  - exists s. split; [reflexivity | exact I].
  - destruct (relocate_step t0 done s h I (H h (or_introl eq_refl))) as (s1 & E1 & I1).
    destruct (IH (h :: done) s1 I1 (fun v Hv => H v (or_intror Hv))) as (s' & E & I').
    exists s'. split.
    + simpl. rewrite E1. exact E.
    + simpl. rewrite <- app_assoc. exact I'.
Qed.

Lemma relocate_all_spec t0 :
  NoDup (uids t0) -> every_hr ok [] t0 = true ->
  exists s, relocate_all t0 = Some s /\ NoDup (uids s) /\ every_hr clear [] s = true.
Proof.
  intros Hnd Hok.
  assert (I0 : rinv t0 [] t0).
  { constructor.
    - exact Hnd.
    - intros h up H. pose proof (every_hr_locate ok t0 [] h up Hok H) as K.
      rewrite app_nil_r in K. exact K.
    - intros h up [].
    - tauto. }
  assert (HL : forall h, In h (tag_uids (find_all (is_tag "hr") t0)) ->
                         exists q up, locate h t0 = Some ("hr", q :: up)).
  { intros h Hh. apply QuizFacts.tag_uids_in in Hh. destruct Hh as (n & a & ks & Hh).
    unfold find_all in Hh. apply filter_In in Hh. destruct Hh as [Hd Hn].
    simpl in Hn. apply String.eqb_eq in Hn. subst n.
    apply (descendant_locate h "hr" a ks t0 Hnd Hd). }
  destruct (relocate_fold t0 _ [] t0 I0 HL) as (s & E & [I1 I2 I3 I4]).
  exists s. split; [exact E|]. split; [exact I1|].
  apply (locate_every_hr clear s I1 []). intros h up H. rewrite app_nil_r.
  destruct up as [|q up]; [reflexivity|].
  apply (I3 h (q :: up)); [|exact H].
  rewrite app_nil_r. apply in_rev. rewrite rev_involutive.
  assert (K : exists q0 up0, locate h t0 = Some ("hr", q0 :: up0)) by (apply I4; eauto).
  destruct K as (q0 & up0 & K).
  destruct (locate_descendant h t0 Hnd _ _ K) as (a & ks & Hd); [discriminate|].
  apply QuizFacts.tag_uids_in. exists "hr", a, ks.
  unfold find_all. apply filter_In. split; [exact Hd | reflexivity].
Qed.

(** Step 4 does what it is there for when every rule stands in a place
    from which one move takes it out of all lists: for a document with
    unique identities in which every [hr] is outside all lists, or is
    the child of a list element such that the first element above the
    unbroken run of list elements over it is not the root and has no
    list element among its ancestors, [fix_xhtml_file] succeeds and in
    its result no [hr] is a descendant of [ul], [ol] or [li]. *)
Theorem rules_leave_lists (t : node) :
  NoDup (uids t) -> every_hr ok [] t = true ->
  exists t', fix_xhtml_tree t = Some t' /\ every_hr clear [] t' = true.
Proof.
  intros Hnd Hok.
  destruct (relocate_all_spec (ensure_namespaces t)) as (s & E & _ & Hs).
  - rewrite ensure_namespaces_uids. exact Hnd.
  - rewrite ensure_namespaces_hr. exact Hok.
  - exists (fix_images (ensure_links (strip_styles s))). split.
    + unfold fix_xhtml_tree. rewrite E. reflexivity.
    + unfold fix_images. rewrite every_hr_map_attrs. apply ensure_links_hr.
      unfold strip_styles. rewrite every_hr_map_attrs. exact Hs.
Qed.

Definition ruled_page : node :=
  Tag 0 "[document]" []
    [Tag 1 "html" []
       [Tag 2 "head" [] [];
        Tag 3 "body" []
          [Tag 4 "div" []
             [Tag 5 "ul" []
                [Tag 6 "li" [] [NavigableString "a"; Tag 7 "hr" [] []];
                 Tag 8 "hr" [] []];
              Tag 9 "hr" [] []]]]].

Lemma ruled_page_unique : NoDup (uids ruled_page).
Proof. repeat constructor; simpl; intuition discriminate. Qed.

Lemma rules_leave_lists_witness :
  exists t', fix_xhtml_tree ruled_page = Some t' /\ every_hr clear [] t' = true.
Proof. apply (rules_leave_lists ruled_page ruled_page_unique). reflexivity. Defined.

(** A rule that is not the child of a list element is never moved,
    however deep inside a list it stands: when no [hr] has a [ul], [ol]
    or [li] parent, step 4 leaves the document as it is. *)
Theorem rules_elsewhere_stay (t : node) :
  NoDup (uids t) -> every_hr parent_free [] t = true -> relocate_all t = Some t.
Proof.
  intros Hnd H. unfold relocate_all.
  assert (HL : forall h, In h (tag_uids (find_all (is_tag "hr") t)) -> relocate h t = Some t).
  { intros h Hh. apply QuizFacts.tag_uids_in in Hh. destruct Hh as (n & a & ks & Hh).
    unfold find_all in Hh. apply filter_In in Hh. destruct Hh as [Hd Hn].
    simpl in Hn. apply String.eqb_eq in Hn. subst n.
    destruct (descendant_locate h "hr" a ks t Hnd Hd) as ([p pn] & up & Hl).
    pose proof (every_hr_locate parent_free t [] h _ H Hl) as K.
    simpl in K. apply negb_true_iff in K.
    unfold relocate. rewrite Hl, K. reflexivity. }
  induction (tag_uids (find_all (is_tag "hr") t)) as [|h r IH]; [reflexivity|].
  simpl. rewrite (HL h (or_introl eq_refl)). apply IH.
  intros v Hv. apply HL. right. exact Hv.
Qed.

Definition nested_rule : node :=
  Tag 0 "[document]" []
    [Tag 1 "html" []
       [Tag 2 "body" []
          [Tag 3 "ul" []
             [Tag 4 "li" [] [Tag 5 "div" [] [Tag 6 "hr" [] []]]]]]].

Lemma nested_rule_unique : NoDup (uids nested_rule).
Proof. repeat constructor; simpl; intuition discriminate. Qed.

Lemma rules_elsewhere_stay_witness : relocate_all nested_rule = Some nested_rule.
Proof. apply (rules_elsewhere_stay nested_rule nested_rule_unique). reflexivity. Defined.


(** *** Unique identities are kept *)

Lemma climb_chain up : forall p pn T R,
  climb p pn up = (T, R) -> exists pre tn, (p, pn) :: up = pre ++ (T, tn) :: R.
Proof.
  induction up as [|[q qn] up' IH]; intros p pn T R H.
  - simpl in H. injection H as <- <-. exists [], pn. reflexivity.
  - simpl in H. destruct (is_list_name pn).
    + destruct (IH q qn T R H) as (pre & tn & E).
      exists ((p, pn) :: pre), tn. simpl. rewrite E. reflexivity.
    + injection H as <- <-. exists [], pn. reflexivity.
Qed.

Lemma relocate_nodup h s s' :
  NoDup (uids s) -> relocate h s = Some s' -> NoDup (uids s').
Proof.
  intros Hnd. unfold relocate.
  destruct (locate h s) as [[nm [|[p pn] up']]|] eqn:Hl;
    try (intros H; injection H as <-; exact Hnd).
  destruct (is_list_name pn); [|intros H; injection H as <-; exact Hnd].
  destruct (subtree h s) as [x|] eqn:Hs; [|intros H; injection H as <-; exact Hnd].
  destruct (locate p (remove h s)) as [[pn1 up1]|] eqn:Hp1; [|discriminate].
  destruct (climb p pn up1) as [T [|q R]] eqn:Hc; [discriminate|].
  intros H. injection H as <-.
  destruct (uids_remove h s Hnd x nm (p, pn) up' Hs Hl) as (l1 & l2 & E1 & E2).
  assert (Hmid : NoDup (l1 ++ uids x ++ l2)) by (rewrite <- E1; exact Hnd).
  destruct (NoDup_remove_middle _ _ _ Hmid) as (N1 & Nx & D).
  assert (Hnd1 : NoDup (uids (remove h s))) by (rewrite E2; exact N1).
  assert (HT : exists tn, locate T (remove h s) = Some (tn, q :: R)).
  { destruct (climb_chain up1 p pn T (q :: R) Hc) as (pre & tn & E).
    destruct pre as [|p0 pre'].
    - simpl in E. injection E as <- _ <-. exists pn1. exact Hp1.
    - simpl in E. injection E as _ E. exists tn.
      apply (locate_ancestor _ Hnd1 pre' p pn1 T tn (q :: R)). rewrite <- E. exact Hp1. }
  destruct HT as (tn & HT).
  destruct (uids_insert T x (remove h s) Hnd1 tn q R HT) as (l1' & l2' & F1 & F2).
  rewrite F2. apply NoDup_insert_middle.
  - rewrite <- F1. exact Hnd1.
  - exact Nx.
  - intros y Hy. rewrite <- F1, E2. apply D. exact Hy.
Qed.

Lemma relocate_all_nodup t s :
  NoDup (uids t) -> relocate_all t = Some s -> NoDup (uids s).
Proof.
  unfold relocate_all. generalize (tag_uids (find_all (is_tag "hr") t)). intros l.
  revert t. induction l as [|h r IH]; intros t Hnd H.
  - simpl in H. injection H as <-. exact Hnd.
  - simpl in H. destruct (relocate h t) as [t1|] eqn:E.
    + apply (IH t1 (relocate_nodup h t t1 Hnd E) H).
    + exfalso. clear -H. induction r as [|h' r' IHr]; [discriminate | exact (IHr H)].
Qed.

(** *** The stylesheet links *)

Definition href_of (k : node) : list attr_value :=
  match k with
  | Tag _ _ a _ => match get_attr "href" a with Some v => [v] | None => [] end
  | _ => []
  end.


Lemma existing_hrefs_tag u n a ks :
  existing_hrefs (Tag u n a ks) = flat_map href_of (filter is_link_with_href (descs ks)).
Proof. reflexivity. Qed.

Lemma descs_links new hrefs :
  Forall2 (fun k h => exists f, k = new_link f h) new hrefs ->
  flat_map href_of (filter is_link_with_href (descs new)) = map AttrStr hrefs.
Proof.
  induction 1 as [|k h new' hrefs' (f & ->) _ IH]; [reflexivity|].
  simpl. f_equal. exact IH.
Qed.

Lemma existing_hrefs_grown u n a ks new hrefs :
  Forall2 (fun k h => exists f, k = new_link f h) new hrefs ->
  existing_hrefs (Tag u n a (ks ++ new))
  = existing_hrefs (Tag u n a ks) ++ map AttrStr hrefs.
Proof.
  intros H. rewrite !existing_hrefs_tag, descs_app, filter_app, flat_map_app.
  rewrite (descs_links _ _ H). reflexivity.
Qed.

Lemma is_head_label k : is_tag "head" (label k) = is_tag "head" k.
Proof. destruct k; reflexivity. Qed.

Lemma label_append x y : label (append_child x y) = label y.
Proof. destruct y; reflexivity. Qed.

Lemma links_fold u n a existing hrefs : forall s ks0,
  NoDup (uids s) -> find (is_tag "head") s = Some (Tag u n a ks0) ->
  exists new,
    find (is_tag "head")
         (fold_left (fun s0 href =>
                       if existsb (attr_value_eqb (AttrStr href)) existing then s0
                       else modify u (append_child (new_link (fresh s0) href)) s0)
                    hrefs s)
    = Some (Tag u n a (ks0 ++ new)) /\
    NoDup (uids (fold_left (fun s0 href =>
                       if existsb (attr_value_eqb (AttrStr href)) existing then s0
                       else modify u (append_child (new_link (fresh s0) href)) s0)
                    hrefs s)) /\
    Forall2 (fun k h => exists f, k = new_link f h) new
            (filter (fun h => negb (existsb (attr_value_eqb (AttrStr h)) existing)) hrefs).
Proof.
  induction hrefs as [|h r IH]; intros s ks0 Hnd Hf.
  - exists []. rewrite app_nil_r. split; [exact Hf|]. split; [exact Hnd | constructor].
  - simpl. destruct (existsb (attr_value_eqb (AttrStr h)) existing) eqn:E; simpl.
    + apply (IH s ks0 Hnd Hf).
    + set (link := new_link (fresh s) h).
      assert (Hnd1 : NoDup (uids (modify u (append_child link) s))).
      { apply (NoDup_modify_grow u [link] s Hnd).
        - simpl. constructor; [intros [] | constructor].
        - intros x [<- | []] K. apply fresh_above in K. lia. }
      assert (Hf1 : find (is_tag "head") (modify u (append_child link) s)
                    = Some (Tag u n a (ks0 ++ [link]))).
      { apply (find_modify_same (is_tag "head") u (append_child link) s n a ks0
                 is_head_label (label_append link) Hnd Hf). }
      destruct (IH _ _ Hnd1 Hf1) as (new & F1 & F2 & F3).
      exists (link :: new). split; [|split].
      * rewrite F1. rewrite <- app_assoc. reflexivity.
      * exact F2.
      * constructor; [exists (fresh s); reflexivity | exact F3].
Qed.


Definition linked_page : node :=
  Tag 0 "[document]" []
    [Tag 1 "html" []
       [Tag 2 "head" []
          [Tag 3 "link" [("rel", AttrList ["icon"]); ("href", AttrStr "../styles/style.css")] [];
           Tag 4 "link" [("rel", AttrList ["stylesheet"]);
                         ("href", AttrStr "../styles/style.css")] []];
        Tag 5 "body" [] []]].

Lemma linked_page_unique : NoDup (uids linked_page).
Proof. repeat constructor; simpl; intuition discriminate. Qed.


Lemma is_link_fixed k :
  is_link_with_href
    (map_attrs (fun n a => if String.eqb n "img" then image_attrs a else a) k)
  = is_link_with_href k.
Proof.
  destruct k as [v n a ks | s | s]; try reflexivity.
  simpl. destruct (String.eqb n "link") eqn:E; [|reflexivity].
  apply String.eqb_eq in E. subst n. reflexivity.
Qed.

Lemma href_of_fixed k :
  is_link_with_href k = true ->
  href_of (map_attrs (fun n a => if String.eqb n "img" then image_attrs a else a) k)
  = href_of k.
Proof.
  destruct k as [v n a ks | s | s]; try reflexivity.
  simpl. destruct (String.eqb n "link") eqn:E; [|discriminate].
  apply String.eqb_eq in E. subst n. reflexivity.
Qed.

Lemma existing_hrefs_fixed head :
  existing_hrefs
    (map_attrs (fun n a => if String.eqb n "img" then image_attrs a else a) head)
  = existing_hrefs head.
Proof.
  unfold existing_hrefs. fold href_of.
  rewrite (find_all_map_attrs _ _ _ is_link_fixed).
  unfold find_all. induction (descendants head) as [|k r IH]; [reflexivity|].
  simpl. destruct (is_link_with_href k) eqn:E; [|exact IH].
  simpl. rewrite (href_of_fixed k E), IH. reflexivity.
Qed.

Lemma is_head_fixed g k : is_tag "head" (map_attrs g k) = is_tag "head" k.
Proof. destruct k; reflexivity. Qed.

(** After [fix_xhtml_file] the head of the document has, for each of
    the two required stylesheets, a [link] element with that [href]. *)
Theorem stylesheets_linked (t t' head' : node) :
  NoDup (uids t) ->
  fix_xhtml_tree t = Some t' ->
  find (is_tag "head") t' = Some head' ->
  forall h, In h styles_to_ensure -> In (AttrStr h) (existing_hrefs head').
Proof.
  intros Hnd. unfold fix_xhtml_tree.
  destruct (relocate_all (ensure_namespaces t)) as [s|] eqn:E; [|discriminate].
  intros H. injection H as <-.
  assert (Hs : NoDup (uids (strip_styles s))).
  { unfold strip_styles. rewrite uids_map_attrs.
    apply (relocate_all_nodup _ _ (eq_ind_r (fun l => NoDup l) Hnd (ensure_namespaces_uids t)) E). }
  unfold fix_images. rewrite (find_map_attrs _ _ _ (is_head_fixed _)).
  destruct (find (is_tag "head") (ensure_links (strip_styles s))) as [hd1|] eqn:F1;
    [|discriminate].
  simpl. intros H. injection H as <-. rewrite existing_hrefs_fixed.
  destruct (find (is_tag "head") (strip_styles s)) as [[u n a ks | s0 | s0]|] eqn:F0.
  - destruct (links_fold u n a (existing_hrefs (Tag u n a ks)) styles_to_ensure
                (strip_styles s) ks Hs F0) as (new & G1 & _ & G3).
    unfold ensure_links in F1. rewrite F0 in F1. rewrite G1 in F1. injection F1 as <-.
    rewrite (existing_hrefs_grown _ _ _ _ _ _ G3).
    intros h Hh. apply in_or_app.
    destruct (existsb (attr_value_eqb (AttrStr h)) (existing_hrefs (Tag u n a ks))) eqn:Ex.
    + left. apply existsb_exists in Ex. destruct Ex as (v & Hv & Ev).
      apply attr_value_eqb_eq in Ev. subst v. exact Hv.
    + right. apply in_map. apply filter_In. split; [exact Hh|]. rewrite Ex. reflexivity.
  - apply find_spec in F0. destruct F0 as [_ F0]. discriminate.
  - apply find_spec in F0. destruct F0 as [_ F0]. discriminate.
  - unfold ensure_links in F1. rewrite F0 in F1. rewrite F0 in F1. discriminate.
Qed.

Lemma stylesheets_linked_witness :
  In (AttrStr "../styles/fonts.css")
     (existing_hrefs
        (Tag 2 "head" []
           [Tag 3 "link" [("rel", AttrList ["icon"]); ("href", AttrStr "../styles/style.css")] [];
            Tag 4 "link" [("rel", AttrList ["stylesheet"]);
                          ("href", AttrStr "../styles/style.css")] [];
            Tag 6 "link" [("rel", AttrStr "stylesheet");
                          ("href", AttrStr "../styles/fonts.css")] []])).
Proof.
  apply (stylesheets_linked linked_page
           (Tag 0 "[document]" []
              [Tag 1 "html" [("xmlns", AttrStr "http://www.w3.org/1999/xhtml");
                             ("xmlns:epub", AttrStr "http://www.idpf.org/2007/ops")]
                 [Tag 2 "head" []
                    [Tag 3 "link" [("rel", AttrList ["icon"]);
                                   ("href", AttrStr "../styles/style.css")] [];
                     Tag 4 "link" [("rel", AttrList ["stylesheet"]);
                                   ("href", AttrStr "../styles/style.css")] [];
                     Tag 6 "link" [("rel", AttrStr "stylesheet");
                                   ("href", AttrStr "../styles/fonts.css")] []];
                  Tag 5 "body" [] []]])
           _ linked_page_unique eq_refl eq_refl "../styles/fonts.css").
  right. left. reflexivity.
Defined.


(** *** The namespace declarations *)

Lemma is_html_label k : is_tag "html" (label k) = is_tag "html" k.
Proof. destruct k; reflexivity. Qed.

Lemma label_declare y : label (declare_namespaces y) = label y \/
  exists v n a a' ks, y = Tag v n a ks /\ declare_namespaces y = Tag v n a' ks.
Proof. destruct y as [v n a ks | s | s]; [right | left; reflexivity | left; reflexivity]. eauto 10. Qed.

(** The first [html] element gets the two namespace declarations it
    lacks and keeps the ones it has, whatever their values are; its
    other attributes and its contents stay as they are. *)
Theorem namespaces_declared (t : node) (u : nat) (n : string) (a : attrs) (ks : list node) :
  NoDup (uids t) ->
  find (is_tag "html") t = Some (Tag u n a ks) ->
  exists a',
    subtree u (ensure_namespaces t) = Some (Tag u n a' ks) /\
    get_attr "xmlns" a'
    = Some (match get_attr "xmlns" a with
            | Some v => v
            | None => AttrStr "http://www.w3.org/1999/xhtml"
            end) /\
    get_attr "xmlns:epub" a'
    = Some (match get_attr "xmlns:epub" a with
            | Some v => v
            | None => AttrStr "http://www.idpf.org/2007/ops"
            end) /\
    forall k, k <> "xmlns" -> k <> "xmlns:epub" -> get_attr k a' = get_attr k a.
Proof.
  intros Hnd Hf. unfold ensure_namespaces. rewrite Hf.
  set (a1 := if has_attr "xmlns" a then a
             else set_attr "xmlns" (AttrStr "http://www.w3.org/1999/xhtml") a).
  set (a2 := if has_attr "xmlns:epub" a1 then a1
             else set_attr "xmlns:epub" (AttrStr "http://www.idpf.org/2007/ops") a1).
  exists a2. split; [|split; [|split]].
  - rewrite (subtree_modify_same u declare_namespaces t (Tag u n a ks)).
    + reflexivity.
    + intros [v m b cs | s | s] H; exact H.
    + apply (find_subtree _ _ _ _ _ _ Hnd Hf).
  - assert (E1 : get_attr "xmlns" a1
                 = Some (match get_attr "xmlns" a with
                         | Some v => v
                         | None => AttrStr "http://www.w3.org/1999/xhtml"
                         end)).
    { unfold a1, has_attr. destruct (get_attr "xmlns" a) eqn:E; [exact E | apply get_set_same]. }
    unfold a2. destruct (has_attr "xmlns:epub" a1); [exact E1|].
    rewrite get_set_other by discriminate. exact E1.
  - assert (E1 : get_attr "xmlns:epub" a1 = get_attr "xmlns:epub" a).
    { unfold a1. destruct (has_attr "xmlns" a); [reflexivity|].
      apply get_set_other. discriminate. }
    unfold a2, has_attr. rewrite E1.
    destruct (get_attr "xmlns:epub" a) eqn:E; [exact E1 | apply get_set_same].
  - intros k K1 K2.
    assert (E1 : get_attr k a1 = get_attr k a).
    { unfold a1. destruct (has_attr "xmlns" a); [reflexivity|].
      apply get_set_other. exact K1. }
    unfold a2. destruct (has_attr "xmlns:epub" a1); [exact E1|].
    rewrite get_set_other by exact K2. exact E1.
Qed.

Definition odd_namespace : node :=
  Tag 0 "[document]" []
    [Tag 1 "html" [("lang", AttrStr "en"); ("xmlns", AttrStr "http://example.org/other")]
       [Tag 2 "body" [] []]].

Lemma namespaces_declared_witness :
  exists a',
    subtree 1 (ensure_namespaces odd_namespace) = Some (Tag 1 "html" a' [Tag 2 "body" [] []]) /\
    get_attr "xmlns" a' = Some (AttrStr "http://example.org/other") /\
    get_attr "xmlns:epub" a' = Some (AttrStr "http://www.idpf.org/2007/ops") /\
    forall k, k <> "xmlns" -> k <> "xmlns:epub" ->
              get_attr k a'
              = get_attr k [("lang", AttrStr "en"); ("xmlns", AttrStr "http://example.org/other")].
Proof.
  apply (namespaces_declared odd_namespace 1 "html"
           [("lang", AttrStr "en"); ("xmlns", AttrStr "http://example.org/other")]
           [Tag 2 "body" [] []]).
  - repeat constructor; simpl; intuition discriminate.
  - reflexivity.
Defined.

End FixerFacts.

(** *** Properties of the file renamer *)

Module RenamerFacts.
Import Text TextFacts Filename FilenameFacts Manifest Archive ArchiveFacts Renamer.
Local Open Scope string_scope.
Local Open Scope list_scope.

(** What a path leads to: nothing, a directory ([Some None]) or a
    regular file with its content. *)
Fixpoint node_at (p : path) (x : node) : option node :=
  match p with
  | [] => Some x
  | n :: q =>
      match x with
      | Dir d => match lookup n d with Some y => node_at q y | None => None end
      | File _ => None
      end
  end.

Definition obs (p : path) (x : node) : option (option string) :=
  match node_at p x with
  | None => None
  | Some (Dir _) => Some None
  | Some (File c) => Some (Some c)
  end.

(** [is_dir()] of a path below the root. *)
Definition dir_at (p : path) (root : dir) : bool :=
  match obs p (Dir root) with
  | Some None => true
  | _ => false
  end.

(** The path a collected file is renamed to, and whether it is
    renamed at all. *)
Definition target (p : path) : path := with_name p (normalize_filename (name p)).

Definition changed (p : path) : bool :=
  negb (String.eqb (normalize_filename (name p)) (name p)).

Lemma file_at_obs p x c : file_at p x = Some c <-> obs p x = Some (Some c).
Proof.
  unfold obs. revert x. induction p as [|n q IH]; intros x; simpl.
  - destruct x; split; intros H; congruence.
  - destruct x as [c0 | d]; [split; discriminate|].
    destruct (lookup n d) as [y|]; [apply IH | split; discriminate].
Qed.

Lemma obs_nil d : obs [] (Dir d) = Some None.
Proof. reflexivity. Qed.

Lemma obs_cons n q d :
  obs (n :: q) (Dir d) = match lookup n d with Some y => obs q y | None => None end.
Proof. unfold obs. simpl. destruct (lookup n d); reflexivity. Qed.

Lemma obs_below_file n q c : obs (n :: q) (File c) = None.
Proof. reflexivity. Qed.

Lemma lookup_remove_eq n d : lookup n (remove_entry n d) = None.
Proof.
  unfold remove_entry. induction d as [|[m x] r IH]; simpl; [reflexivity|].
  destruct (String.eqb m n) eqn:E; simpl; [exact IH|].
  rewrite E. exact IH.
Qed.

Lemma lookup_remove_ne n m d : n <> m -> lookup m (remove_entry n d) = lookup m d.
Proof.
  intros N. unfold remove_entry. induction d as [|[k x] r IH]; simpl; [reflexivity|].
  destruct (String.eqb k n) eqn:E; simpl.
  - apply String.eqb_eq in E. subst k. apply String.eqb_neq in N. rewrite N. exact IH.
  - rewrite IH. reflexivity.
Qed.

(** The entries of a directory after a regular file in it has been
    renamed. *)
Lemma lookup_rename_entry old new d d' c :
  old <> new -> lookup old d = Some (File c) -> rename_entry old new d = Some d' ->
  lookup new d' = Some (File c) /\ lookup old d' = None /\
  (forall k, k <> new -> k <> old -> lookup k d' = lookup k d) /\
  (forall e, lookup new d <> Some (Dir e)).
Proof.
  intros N L. unfold rename_entry. rewrite L.
  assert (S : forall d1, d1 = store new (File c) (remove_entry old d) ->
              lookup new d1 = Some (File c) /\ lookup old d1 = None /\
              (forall k, k <> new -> k <> old -> lookup k d1 = lookup k d)).
  { intros d1 ->. split; [apply lookup_store_eq|]. split.
    - rewrite (lookup_store_ne new old); [apply lookup_remove_eq | congruence].
    - intros k K1 K2. rewrite (lookup_store_ne new k); [|congruence].
      apply lookup_remove_ne. congruence. }
  destruct (lookup new d) as [[c1 | e1]|] eqn:T; intros H; try discriminate;
    injection H as H; destruct (S d' (eq_sym H)) as (S1 & S2 & S3);
    (split; [exact S1|]; split; [exact S2|]; split; [exact S3|]; discriminate).
Qed.

Lemma rename_entry_none old new d c :
  lookup old d = Some (File c) ->
  (rename_entry old new d = None <-> exists e, lookup new d = Some (Dir e)).
Proof.
  intros L. unfold rename_entry. rewrite L.
  destruct (lookup new d) as [[c1 | e1]|]; split; intros H;
    try discriminate; try reflexivity; try (destruct H as (e & H); discriminate).
  exists e1. reflexivity.
Qed.

Lemma name_cons n k q : name (n :: k :: q) = name (k :: q).
Proof. reflexivity. Qed.

Lemma with_name_cons n k q new : with_name (n :: k :: q) new = n :: with_name (k :: q) new.
Proof. reflexivity. Qed.

Lemma with_name_one n new : with_name [n] new = [new].
Proof. reflexivity. Qed.

Lemma with_name_same p : p <> [] -> with_name p (name p) = p.
Proof. intros H. unfold with_name, name. symmetry. apply app_removelast_last. exact H. Qed.

Lemma name_with_name p new : name (with_name p new) = new.
Proof. unfold name, with_name. apply last_last. Qed.

Lemma with_name_differs p new : new <> name p -> with_name p new <> p.
Proof. intros N E. apply N. rewrite <- E at 1. symmetry. apply name_with_name. Qed.

(** What every path leads to after the regular file at [p] has been
    given the name [new]. *)
Lemma obs_rename p : forall new d d' c,
  new <> name p -> file_at p (Dir d) = Some c -> rename p new d = Some d' ->
  obs (with_name p new) (Dir d') = Some (Some c) /\
  obs p (Dir d') = None /\
  forall r, r <> with_name p new -> r <> p -> obs r (Dir d') = obs r (Dir d).
Proof.
  induction p as [|n q IH]; intros new d d' c N F R; [discriminate|].
  destruct q as [|k q].
  - simpl in F, R. change (name [n]) with n in N.
    destruct (lookup n d) as [[c0 | e0]|] eqn:L; try discriminate.
    injection F as ->.
    destruct (lookup_rename_entry n new d d' c (fun E => N (eq_sym E)) L R)
      as (L1 & L2 & L3 & L4).
    rewrite with_name_one. split; [|split].
    + rewrite obs_cons, L1. reflexivity.
    + rewrite obs_cons, L2. reflexivity.
    + intros r R1 R2. destruct r as [|m r']; [reflexivity|].
      rewrite !obs_cons.
      destruct (string_dec m new) as [-> | M1].
      * rewrite L1. destruct r' as [|m' r'']; [congruence|].
        rewrite obs_below_file.
        destruct (lookup new d) as [[c1 | e1]|] eqn:T; try reflexivity.
        exfalso. exact (L4 e1 eq_refl).
      * destruct (string_dec m n) as [-> | M2].
        -- rewrite L2, L. destruct r' as [|m' r'']; [congruence | reflexivity].
        -- rewrite (L3 m M1 M2). reflexivity.
  - rewrite name_cons in N. rewrite with_name_cons.
    change (rename (n :: k :: q) new d) with
      (match lookup n d with
       | Some (Dir e) =>
           match rename (k :: q) new e with
           | Some e' => Some (store n (Dir e') d)
           | None => None
           end
       | _ => None
       end) in R.
    change (file_at (n :: k :: q) (Dir d)) with
      (match lookup n d with Some y => file_at (k :: q) y | None => None end) in F.
    destruct (lookup n d) as [[c0 | e]|] eqn:L; try discriminate.
    destruct (rename (k :: q) new e) as [e'|] eqn:Re; [|discriminate].
    injection R as <-.
    destruct (IH new e e' c N F Re) as (I1 & I2 & I3).
    split; [|split].
    + rewrite obs_cons, lookup_store_eq. exact I1.
    + rewrite obs_cons, lookup_store_eq. exact I2.
    + intros r R1 R2. destruct r as [|m r']; [reflexivity|].
      rewrite !obs_cons.
      destruct (string_dec m n) as [-> | M].
      * rewrite lookup_store_eq, L. apply I3; congruence.
      * rewrite (lookup_store_ne n m); [reflexivity | congruence].
Qed.

(** A rename fails exactly when the new name is that of a directory. *)
Lemma rename_none p : forall new d c,
  file_at p (Dir d) = Some c ->
  (rename p new d = None <-> obs (with_name p new) (Dir d) = Some None).
Proof.
  induction p as [|n q IH]; intros new d c F; [discriminate|].
  destruct q as [|k q].
  - simpl in F. destruct (lookup n d) as [[c0 | e0]|] eqn:L; try discriminate.
    change (rename [n] new d) with (rename_entry n new d).
    rewrite (rename_entry_none n new d c0 L), with_name_one, obs_cons.
    destruct (lookup new d) as [[c1 | e1]|]; split; intros H;
      try discriminate; try reflexivity; try (destruct H as (e & H); discriminate).
    exists e1. reflexivity.
  - rewrite with_name_cons, obs_cons.
    change (rename (n :: k :: q) new d) with
      (match lookup n d with
       | Some (Dir e) =>
           match rename (k :: q) new e with
           | Some e' => Some (store n (Dir e') d)
           | None => None
           end
       | _ => None
       end).
    change (file_at (n :: k :: q) (Dir d)) with
      (match lookup n d with Some y => file_at (k :: q) y | None => None end) in F.
    destruct (lookup n d) as [[c0 | e]|] eqn:L; try discriminate.
    rewrite <- (IH new e c F).
    destruct (rename (k :: q) new e); split; intros H; try discriminate; reflexivity.
Qed.

(** **** The loop of [rename_files] *)

Lemma fold_stuck l : fold_left rename_step l None = None.
Proof. induction l as [|p l IH]; [reflexivity | exact IH]. Qed.

Lemma fold_cons p l st :
  fold_left rename_step (p :: l) st = fold_left rename_step l (rename_step st p).
Proof. reflexivity. Qed.

Lemma changed_iff p : changed p = true <-> normalize_filename (name p) <> name p.
Proof.
  unfold changed. rewrite negb_true_iff. split.
  - intros H. apply String.eqb_neq. exact H.
  - intros H. apply String.eqb_neq. exact H.
Qed.

Lemma rename_step_keep x m p :
  changed p = false -> rename_step (Some (x, m)) p = Some (x, m).
Proof.
  unfold changed, rename_step. intros H. apply negb_false_iff in H. rewrite H. reflexivity.
Qed.

Lemma rename_step_move x m p :
  changed p = true ->
  rename_step (Some (x, m)) p
  = match rename p (normalize_filename (name p)) x with
    | Some x' => Some (x', set_item (as_posix p) (as_posix (target p)) m)
    | None => None
    end.
Proof.
  unfold changed, rename_step. intros H. apply negb_true_iff in H. rewrite H. reflexivity.
Qed.

(** A property of the directory, the mapping and the files still to
    be visited that every turn of the loop keeps holds at the end. *)
Lemma fold_inv (Inv : dir -> mapping -> list path -> Prop) :
  (forall x m p rest, Inv x m (p :: rest) -> changed p = false -> Inv x m rest) ->
  (forall x m p rest x', Inv x m (p :: rest) -> changed p = true ->
      rename p (normalize_filename (name p)) x = Some x' ->
      Inv x' (set_item (as_posix p) (as_posix (target p)) m) rest) ->
  forall l x m x' m',
    Inv x m l -> fold_left rename_step l (Some (x, m)) = Some (x', m') -> Inv x' m' [].
Proof.
  intros Hkeep Hmove. induction l as [|p rest IH]; intros x m x' m' HI H.
  - simpl in H. injection H as <- <-. exact HI.
  - rewrite fold_cons in H. destruct (changed p) eqn:C.
    + rewrite (rename_step_move x m p C) in H.
      destruct (rename p (normalize_filename (name p)) x) as [x1|] eqn:R.
      * apply (IH _ _ _ _ (Hmove _ _ _ _ _ HI C R) H).
      * rewrite fold_stuck in H. discriminate.
    + rewrite (rename_step_keep x m p C) in H.
      apply (IH _ _ _ _ (Hkeep _ _ _ _ HI C) H).
Qed.

Section Loop.

Variable root0 : dir.

(** The files still to be visited are distinct regular files, and the
    directories are those of the start. *)
Record base (x : dir) (pending : list path) : Prop := {
  base_nodup : NoDup pending;
  base_files : forall p, In p pending -> exists c, file_at p (Dir x) = Some c;
  base_dirs : forall r, obs r (Dir x) = Some None <-> obs r (Dir root0) = Some None
}.

Lemma base_keep x p rest : base x (p :: rest) -> base x rest.
Proof.
  intros [B1 B2 B3]. apply NoDup_cons_iff in B1. destruct B1 as [_ B1].
  constructor; [exact B1 | | exact B3].
  intros r Hr. apply B2. right. exact Hr.
Qed.

Lemma base_move x p rest x' :
  base x (p :: rest) -> changed p = true ->
  rename p (normalize_filename (name p)) x = Some x' -> base x' rest.
Proof.
  intros [B1 B2 B3] C R. apply NoDup_cons_iff in B1. destruct B1 as [Hp B1].
  destruct (B2 p (or_introl eq_refl)) as (c & F).
  apply changed_iff in C.
  destruct (obs_rename p _ x x' c C F R) as (O1 & O2 & O3).
  fold (target p) in O1, O3.
  constructor; [exact B1 | |].
  - intros r Hr. destruct (list_eq_dec string_dec r (target p)) as [-> | N].
    + exists c. apply file_at_obs. exact O1.
    + assert (N2 : r <> p) by (intros ->; contradiction).
      destruct (B2 r (or_intror Hr)) as (c' & F'). exists c'.
      apply file_at_obs. rewrite (O3 r N N2). apply file_at_obs. exact F'.
  - intros r. rewrite <- B3.
    destruct (list_eq_dec string_dec r (target p)) as [-> | N].
    + rewrite O1. split; [discriminate|]. intros H.
      apply (rename_none p _ x c F) in H. fold (target p) in H. congruence.
    + destruct (list_eq_dec string_dec r p) as [-> | N2].
      * rewrite O2. apply file_at_obs in F. rewrite F. split; discriminate.
      * rewrite (O3 r N N2). reflexivity.
Qed.

Lemma dir_at_iff r d : dir_at r d = true <-> obs r (Dir d) = Some None.
Proof.
  unfold dir_at. destruct (obs r (Dir d)) as [[c|]|]; split; intros H;
    try discriminate; reflexivity.
Qed.

(** The loop raises exactly when one of the files to be renamed has a
    directory where its new name is to go. *)
Lemma fold_fails l : forall x m,
  base x l ->
  (fold_left rename_step l (Some (x, m)) = None <->
   exists p, In p l /\ changed p = true /\ dir_at (target p) root0 = true).
Proof.
  induction l as [|p rest IH]; intros x m B.
  - simpl. split; [discriminate | intros (p & [] & _)].
  - rewrite fold_cons. destruct (changed p) eqn:C.
    + rewrite (rename_step_move x m p C).
      destruct (base_files _ _ B p (or_introl eq_refl)) as (c & F).
      pose proof (rename_none p (normalize_filename (name p)) x c F) as RN.
      fold (target p) in RN.
      destruct (rename p (normalize_filename (name p)) x) as [x1|] eqn:R.
      * rewrite (IH x1 _ (base_move _ _ _ _ B C R)). split.
        -- intros (q & Hq & K). exists q. split; [right; exact Hq | exact K].
        -- intros (q & [<- | Hq] & C' & K).
           ++ apply dir_at_iff in K. apply (base_dirs _ _ B) in K.
              apply RN in K. discriminate.
           ++ exists q. split; [exact Hq|]. split; [exact C' | exact K].
      * rewrite fold_stuck. split; [|reflexivity]. intros _.
        exists p. split; [left; reflexivity|]. split; [exact C|].
        apply dir_at_iff. apply (base_dirs _ _ B). apply RN. reflexivity.
    + rewrite (rename_step_keep x m p C).
      rewrite (IH x m (base_keep _ _ _ B)). split.
      * intros (q & Hq & K). exists q. split; [right; exact Hq | exact K].
      * intros (q & [<- | Hq] & C' & K); [congruence|].
        exists q. split; [exact Hq|]. split; [exact C' | exact K].
Qed.

End Loop.

Lemma collect_files root p :
  wf (Dir root) = true ->
  (In p (collect_xhtml_files root) <->
   is_xhtml (name p) = true /\ exists c, file_at p (Dir root) = Some c).
Proof.
  intros W. unfold collect_xhtml_files. rewrite filter_In, in_map_iff. split.
  - intros [((q, c) & E & H) Hx]. simpl in E. subst q. split; [exact Hx|].
    exists c. apply (walk_member _ W) in H. apply H.
  - intros [Hx (c & F)]. split; [|exact Hx].
    exists (p, c). split; [reflexivity|]. apply (walk_member _ W). split; [|exact F].
    intros ->. discriminate.
Qed.

Lemma base_start root : wf (Dir root) = true -> base root root (collect_xhtml_files root).
Proof.
  intros W. constructor.
  - apply NoDup_filter. apply (walk_nodup _ W).
  - intros p Hp. apply (collect_files root p W) in Hp. apply Hp.
  - intros r. reflexivity.
Qed.

(** [rename_files] raises exactly when a file that gets a new name has
    a directory of that name beside it; a regular file of the new name
    does not stop it. *)
Theorem rename_files_fails_iff (root : dir) :
  wf (Dir root) = true ->
  (rename_files root = None <->
   exists p, In p (collect_xhtml_files root) /\
             normalize_filename (name p) <> name p /\
             dir_at (with_name p (normalize_filename (name p))) root = true).
Proof.
  intros W. unfold rename_files.
  rewrite (fold_fails root _ root [] (base_start root W)). split.
  - intros (p & Hp & C & K). exists p. split; [exact Hp|]. split; [|exact K].
    apply changed_iff. exact C.
  - intros (p & Hp & C & K). exists p. split; [exact Hp|]. split; [|exact K].
    apply changed_iff. exact C.
Qed.

Definition taken_name : dir :=
  [("Chapter One.xhtml", File "<html/>"); ("chapter-one.xhtml", Dir [])].

Lemma rename_files_fails_iff_witness : rename_files taken_name = None.
Proof.
  apply (proj2 (rename_files_fails_iff taken_name eq_refl)).
  exists ["Chapter One.xhtml"]. split; [left; reflexivity|].
  split; [vm_compute; discriminate | reflexivity].
Defined.

(** **** The names after the renames *)

Lemma normalized_is_lower n : lower (lit (normalize_filename n)) = lit (normalize_filename n).
Proof.
  unfold normalize_filename, lit. rewrite list_ascii_of_string_of_list_ascii.
  rewrite normalize_chars_parts. unfold lower at 1. rewrite map_app.
  fold (lower (normalize_stem (fst (splitext (list_ascii_of_string n))))).
  fold (lower (lower (snd (splitext (list_ascii_of_string n))))).
  rewrite lower_idem. f_equal.
  apply (lower_fix_incl (fst (splitext (list_ascii_of_string n)))).
  apply del_incl. apply normalize_stem_del.
Qed.

Lemma ends_with_iff sfx n : ends_with sfx n = true <-> exists a, lit n = a ++ lit sfx.
Proof.
  unfold ends_with. split.
  - intros H. apply starts_with_app in H.
    exists (rev (skipn (length (rev (lit sfx))) (rev (lit n)))).
    rewrite <- (rev_involutive (lit n)), H at 1.
    rewrite rev_app_distr, rev_involutive. reflexivity.
  - intros (a & E). rewrite E, rev_app_distr. apply EntitiesFacts.starts_with_same.
Qed.

Definition dot_xhtml : str := lit ".xhtml".

Lemma last_dot_unique (c : ascii) a : forall a' b b',
  a ++ c :: b = a' ++ c :: b' -> ~ In c b -> ~ In c b' -> a = a' /\ b = b'.
Proof.
  induction a as [|x a IH]; intros a' b b' E Hb Hb'.
  - destruct a' as [|y a']; simpl in E.
    + injection E as ->. split; reflexivity.
    + injection E as <- ->. exfalso. apply Hb. apply in_or_app. right. left. reflexivity.
  - destruct a' as [|y a']; simpl in E.
    + injection E as -> <-. exfalso. apply Hb'. apply in_or_app. right. left. reflexivity.
    + injection E as <- E. destruct (IH a' b b' E Hb Hb') as [-> ->]. split; reflexivity.
Qed.

Lemma match_final_short s r : match_final s = Some r -> length s <= 6.
Proof.
  unfold match_final. destruct (starts_with (lit "final") s) eqn:E; [|discriminate].
  apply starts_with_app in E. intros H.
  destruct (at_dollar (skipn 5 s)) eqn:D; [|discriminate].
  rewrite E. rewrite length_app. change (length (lit "final")) with 5 in *.
  destruct (skipn 5 s) as [|c [|d t]]; simpl in *; try discriminate; lia.
Qed.

Lemma match_final_xhtml a : match_final (a ++ dot_xhtml) = None.
Proof.
  destruct (match_final (a ++ dot_xhtml)) as [r|] eqn:E; [|reflexivity].
  pose proof (match_final_short _ _ E) as L. rewrite length_app in L.
  change (length dot_xhtml) with 6 in L.
  destruct a as [|c a]; [discriminate E | simpl in L; lia].
Qed.

Lemma has_final_xhtml a : has_final (a ++ dot_xhtml) = false.
Proof.
  induction a as [|c a IH]; [reflexivity|].
  change (has_final ((c :: a) ++ dot_xhtml)) with
    (match match_final ((c :: a) ++ dot_xhtml) with
     | Some _ => true
     | None => has_final (a ++ dot_xhtml)
     end).
  rewrite match_final_xhtml. exact IH.
Qed.

Lemma collapse_hyphens_xhtml a : exists b, collapse_hyphens (a ++ dot_xhtml) = b ++ dot_xhtml.
Proof.
  induction a as [|c a IH]; [exists []; reflexivity|].
  destruct IH as (b & IH).
  destruct (a ++ dot_xhtml) as [|d t] eqn:E.
  - destruct a; discriminate E.
  - change ((c :: a) ++ dot_xhtml) with (c :: (a ++ dot_xhtml)). rewrite E.
    rewrite collapse_hyphens_cons.
    destruct (char_eqb c "-"%char && char_eqb d "-"%char).
    + exists b. exact IH.
    + exists (c :: b). rewrite IH. reflexivity.
Qed.

Lemma rstrip_other_end c x s : x <> c -> rstrip c (s ++ [x]) = s ++ [x].
Proof.
  intros N. induction s as [|y s IH]; simpl.
  - apply char_eqb_neq in N. rewrite N. reflexivity.
  - rewrite IH. destruct (s ++ [x]) eqn:E; [|reflexivity].
    destruct s; discriminate E.
Qed.

Lemma normalize_stem_xhtml a : exists b, normalize_stem (a ++ dot_xhtml) = b ++ dot_xhtml.
Proof.
  unfold normalize_stem. rewrite replace_lower, map_app.
  change (map norm_char dot_xhtml) with dot_xhtml.
  rewrite (strip_final_fix _ (has_final_xhtml _)).
  destruct (collapse_hyphens_xhtml (map norm_char a)) as (b & ->).
  exists b. change dot_xhtml with (lit ".xhtm" ++ ["l"%char]).
  rewrite app_assoc. apply rstrip_other_end. discriminate.
Qed.

(** A name that matches ['*.xhtml'] still matches it after
    [normalize_filename]. *)
Lemma xhtml_kept n : is_xhtml n = true -> is_xhtml (normalize_filename n) = true.
Proof.
  unfold is_xhtml. rewrite !ends_with_iff. fold dot_xhtml. intros (a & E).
  unfold normalize_filename, lit at 1. rewrite list_ascii_of_string_of_list_ascii.
  fold (lit n). rewrite E, normalize_chars_parts.
  destruct (splitext_cases (a ++ dot_xhtml)) as [K | (stem & e & Hp & He & _ & _ & K)];
    rewrite K; simpl fst; simpl snd.
  - destruct (normalize_stem_xhtml a) as (b & ->). exists b. apply app_nil_r.
  - change dot_xhtml with ("."%char :: lit "xhtml") in Hp.
    destruct (last_dot_unique "."%char a stem (lit "xhtml") e Hp) as [<- <-].
    + vm_compute. intuition discriminate.
    + exact He.
    + exists (normalize_stem a). reflexivity.
Qed.

Lemma file_at_same r x y : obs r x = obs r y -> file_at r x = file_at r y.
Proof.
  intros E. destruct (file_at r y) as [c|] eqn:F.
  - apply file_at_obs. rewrite E. apply file_at_obs. exact F.
  - destruct (file_at r x) as [c|] eqn:G; [|reflexivity].
    apply file_at_obs in G. rewrite E in G. apply file_at_obs in G. congruence.
Qed.

(** After the renames every regular file that matches ['*.xhtml'] has
    a name that [normalize_filename] returns. *)
Lemma names_normalized (root root' : dir) (m : mapping) :
  wf (Dir root) = true ->
  rename_files root = Some (root', m) ->
  forall p c, file_at p (Dir root') = Some c -> is_xhtml (name p) = true ->
              exists n, name p = normalize_filename n.
Proof.
  intros W H.
  pose (Inv := fun (x : dir) (_ : mapping) (pending : list path) =>
                 base root x pending /\
                 forall r c, file_at r (Dir x) = Some c -> is_xhtml (name r) = true ->
                             (exists n, name r = normalize_filename n) \/ In r pending).
  assert (K : Inv root' m []).
  { apply (fun Hk Hm => fold_inv Inv Hk Hm (collect_xhtml_files root) root [] root' m);
      [ | | | exact H].
    - intros x m0 p rest [B I] C. split; [exact (base_keep _ _ _ _ B)|].
      intros r c F X. destruct (I r c F X) as [L | [<- | L]];
        [left; exact L | | right; exact L].
      left. exists (name p). unfold changed in C. apply negb_false_iff in C.
      apply String.eqb_eq in C. symmetry. exact C.
    - intros x m0 p rest x' [B I] C R. split; [exact (base_move _ _ _ _ _ B C R)|].
      destruct (base_files _ _ _ B p (or_introl eq_refl)) as (c0 & F0).
      pose proof C as C'. apply changed_iff in C'.
      destruct (obs_rename p _ x x' c0 C' F0 R) as (O1 & O2 & O3).
      intros r c F X. destruct (list_eq_dec string_dec r (with_name p (normalize_filename (name p))))
        as [-> | N1].
      + left. exists (name p). apply name_with_name.
      + destruct (list_eq_dec string_dec r p) as [-> | N2].
        * apply file_at_obs in F. congruence.
        * apply file_at_obs in F. rewrite (O3 r N1 N2) in F. apply file_at_obs in F.
          destruct (I r c F X) as [L | [E | L]];
            [left; exact L | congruence | right; exact L].
    - split; [exact (base_start root W)|].
      intros r c F X. right. apply (collect_files root r W). split; [exact X|].
      exists c. exact F. }
  intros p c F X. destruct K as [_ K]. destruct (K p c F X) as [L | []]. exact L.
Qed.

(** When [rename_files] returns, every regular file of the project
    whose name matches ['*.xhtml'] has a lower-case name. *)
Theorem renamed_names_lower (root root' : dir) (m : mapping) (p : path) (c : string) :
  wf (Dir root) = true ->
  rename_files root = Some (root', m) ->
  file_at p (Dir root') = Some c ->
  is_xhtml (name p) = true ->
  lower (lit (name p)) = lit (name p).
Proof.
  intros W H F X. destruct (names_normalized root root' m W H p c F X) as (n & ->).
  apply normalized_is_lower.
Qed.

(** When [rename_files] returns, the project root has no regular file
    [3-TableOfContents.xhtml], the default of [--toc] and the [href] of
    the [nav] item: a file of that name has been renamed. *)
Theorem default_toc_renamed (root root' : dir) (m : mapping) :
  wf (Dir root) = true ->
  rename_files root = Some (root', m) ->
  file_at ["3-TableOfContents.xhtml"] (Dir root') = None.
Proof.
  intros W H. destruct (file_at ["3-TableOfContents.xhtml"] (Dir root')) as [c|] eqn:F;
    [|reflexivity].
  destruct (names_normalized root root' m W H _ c F eq_refl) as (n & E).
  pose proof (normalized_is_lower n) as L. rewrite <- E in L. discriminate L.
Qed.

(** [rename_files] leaves the directories and the files that do not
    match ['*.xhtml'] where they are: no such file is renamed, and none
    is replaced by a renamed file. *)
Theorem other_files_untouched (root root' : dir) (m : mapping) :
  wf (Dir root) = true ->
  rename_files root = Some (root', m) ->
  (forall p, dir_at p root' = dir_at p root) /\
  (forall p, is_xhtml (name p) = false -> file_at p (Dir root') = file_at p (Dir root)).
Proof.
  intros W H.
  pose (Inv := fun (x : dir) (_ : mapping) (pending : list path) =>
                 base root x pending /\
                 (forall r, In r pending -> is_xhtml (name r) = true) /\
                 forall r, is_xhtml (name r) = false -> obs r (Dir x) = obs r (Dir root)).
  assert (K : Inv root' m []).
  { apply (fun Hk Hm => fold_inv Inv Hk Hm (collect_xhtml_files root) root [] root' m);
      [ | | | exact H].
    - intros x m0 p rest (B & P & I) C. split; [exact (base_keep _ _ _ _ B)|].
      split; [|exact I]. intros r Hr. apply P. right. exact Hr.
    - intros x m0 p rest x' (B & P & I) C R. split; [exact (base_move _ _ _ _ _ B C R)|].
      split; [intros r Hr; apply P; right; exact Hr|].
      destruct (base_files _ _ _ B p (or_introl eq_refl)) as (c0 & F0).
      pose proof C as C'. apply changed_iff in C'.
      destruct (obs_rename p _ x x' c0 C' F0 R) as (_ & _ & O3).
      pose proof (P p (or_introl eq_refl)) as Xp.
      intros r X. rewrite <- (I r X). apply O3.
      + intros ->. rewrite name_with_name, (xhtml_kept _ Xp) in X. discriminate.
      + intros ->. congruence.
    - split; [exact (base_start root W)|]. split; [|reflexivity].
      intros r Hr. apply (collect_files root r W) in Hr. apply Hr. }
  destruct K as (B & _ & I). split.
  - intros p. pose proof (base_dirs _ _ _ B p) as D. unfold dir_at.
    destruct (obs p (Dir root')) as [[c|]|]; destruct (obs p (Dir root)) as [[c'|]|];
      try reflexivity; destruct D as [D1 D2];
      try (specialize (D1 eq_refl); discriminate);
      try (specialize (D2 eq_refl); discriminate).
  - intros p X. apply file_at_same. apply I. exact X.
Qed.

(** **** Renames that lose no file *)

(** Where a file of the project is expected after the renames. *)
Definition place (p : path) : path := if is_xhtml (name p) then target p else p.

Lemma nodup_map_inj {A B : Type} (f : A -> B) (l : list A) a b :
  NoDup (map f l) -> In a l -> In b l -> f a = f b -> a = b.
Proof.
  induction l as [|x l IH]; intros N Ha Hb E; [destruct Ha|].
  simpl in N. apply NoDup_cons_iff in N. destruct N as [Nx N].
  destruct Ha as [-> | Ha]; destruct Hb as [-> | Hb].
  - reflexivity.
  - exfalso. apply Nx. rewrite E. apply in_map. exact Hb.
  - exfalso. apply Nx. rewrite <- E. apply in_map. exact Ha.
  - apply IH; assumption.
Qed.

Lemma obs_free r x : node_at r x = None -> obs r x = None.
Proof. unfold obs. intros ->. reflexivity. Qed.

Lemma place_same p : p <> [] -> changed p = false -> place p = p.
Proof.
  intros Hp C. unfold place, target. destruct (is_xhtml (name p)); [|reflexivity].
  unfold changed in C. apply negb_false_iff in C. apply String.eqb_eq in C.
  rewrite C. apply with_name_same. exact Hp.
Qed.

Lemma file_not_root p d c : file_at p (Dir d) = Some c -> p <> [].
Proof. intros F ->. discriminate F. Qed.

Section Lossless.

Variable root : dir.
Hypothesis W : wf (Dir root) = true.
Hypothesis Hfree : forall p, In p (collect_xhtml_files root) ->
  normalize_filename (name p) <> name p -> node_at (target p) (Dir root) = None.
Hypothesis Hdistinct : NoDup (map target (filter changed (collect_xhtml_files root))).

Lemma target_not_file p q c :
  In p (collect_xhtml_files root) -> changed p = true ->
  file_at q (Dir root) = Some c -> q <> target p.
Proof.
  intros Hp C F ->. apply changed_iff in C.
  apply file_at_obs in F. rewrite (obs_free _ _ (Hfree p Hp C)) in F. discriminate.
Qed.

(** A file that has been dealt with is not in the way of the next
    rename. *)
Lemma place_clear p p0 c :
  file_at p (Dir root) = Some c -> In p0 (collect_xhtml_files root) ->
  changed p0 = true -> p <> p0 ->
  place p <> p0 /\ place p <> target p0.
Proof.
  intros F H0 C0 N.
  destruct (collect_files root p0 W) as [K0 _]. destruct (K0 H0) as (X0 & c0 & F0).
  destruct (changed p) eqn:C.
  - unfold place. destruct (is_xhtml (name p)) eqn:X.
    + assert (Hp : In p (collect_xhtml_files root)).
      { apply (collect_files root p W). split; [exact X | exists c; exact F]. }
      split.
      * intros E. exact (target_not_file p p0 c0 Hp C F0 (eq_sym E)).
      * intros E. apply N.
        apply (nodup_map_inj target (filter changed (collect_xhtml_files root)) p p0
                 Hdistinct); [apply filter_In; split; assumption | | exact E].
        apply filter_In. split; assumption.
    + split; [exact N|]. exact (target_not_file p0 p c H0 C0 F).
  - rewrite (place_same p (file_not_root _ _ _ F) C).
    split; [exact N|]. exact (target_not_file p0 p c H0 C0 F).
Qed.

Definition kept (x : dir) (pending : list path) : Prop :=
  forall p c, file_at p (Dir root) = Some c ->
    (In p pending -> file_at p (Dir x) = Some c) /\
    (~ In p pending -> file_at (place p) (Dir x) = Some c).

Lemma kept_keep x p0 rest :
  base root x (p0 :: rest) -> kept x (p0 :: rest) -> changed p0 = false -> kept x rest.
Proof.
  intros B K C p c F. destruct (K p c F) as [K1 K2]. split.
  - intros H. apply K1. right. exact H.
  - intros H. destruct (list_eq_dec string_dec p p0) as [-> | N].
    + rewrite (place_same p0 (file_not_root _ _ _ F) C). apply K1. left. reflexivity.
    + apply K2. intros [E | E]; [congruence | contradiction].
Qed.

Lemma kept_move x p0 rest x' :
  base root x (p0 :: rest) -> In p0 (collect_xhtml_files root) ->
  kept x (p0 :: rest) -> changed p0 = true ->
  rename p0 (normalize_filename (name p0)) x = Some x' -> kept x' rest.
Proof.
  intros B H0 K C R.
  destruct (base_files _ _ _ B p0 (or_introl eq_refl)) as (c0 & F0).
  pose proof (base_nodup _ _ _ B) as ND. apply NoDup_cons_iff in ND. destruct ND as [N0 _].
  pose proof C as C'. apply changed_iff in C'.
  destruct (obs_rename p0 _ x x' c0 C' F0 R) as (O1 & _ & O3).
  fold (target p0) in O1, O3.
  destruct (collect_files root p0 W) as [K0 _]. destruct (K0 H0) as (X0 & _).
  intros p c F. destruct (K p c F) as [K1 K2]. split.
  - intros H. assert (N : p <> p0) by (intros ->; contradiction).
    apply file_at_obs. rewrite (O3 p (target_not_file p0 p c H0 C F) N).
    apply file_at_obs. apply K1. right. exact H.
  - intros H. destruct (list_eq_dec string_dec p p0) as [-> | N].
    + unfold place. rewrite X0. apply file_at_obs.
      specialize (K1 (or_introl eq_refl)). rewrite F0 in K1. injection K1 as ->. exact O1.
    + destruct (place_clear p p0 c F H0 C N) as [P1 P2].
      apply file_at_obs. rewrite (O3 (place p) P2 P1). apply file_at_obs.
      apply K2. intros [E | E]; [congruence | contradiction].
Qed.

Definition from (x : dir) (pending : list path) : Prop :=
  forall q c, file_at q (Dir x) = Some c ->
    exists p, file_at p (Dir root) = Some c /\
              ((In p pending /\ q = p) \/ (~ In p pending /\ q = place p)).

Lemma from_keep x p0 rest :
  base root x (p0 :: rest) -> from x (p0 :: rest) -> changed p0 = false -> from x rest.
Proof.
  intros B I C.
  pose proof (base_nodup _ _ _ B) as ND. apply NoDup_cons_iff in ND. destruct ND as [N0 _].
  intros q c F. destruct (I q c F) as (p & Fp & [[[<- | Hp] ->] | [Hp ->]]).
  - exists p0. split; [exact Fp|]. right. split; [exact N0|].
    symmetry. apply (place_same p0 (file_not_root _ _ _ Fp) C).
  - exists p. split; [exact Fp|]. left. split; [exact Hp | reflexivity].
  - exists p. split; [exact Fp|]. right. split; [|reflexivity].
    intros E. apply Hp. right. exact E.
Qed.

Lemma from_move x p0 rest x' :
  base root x (p0 :: rest) -> In p0 (collect_xhtml_files root) ->
  from x (p0 :: rest) -> changed p0 = true ->
  rename p0 (normalize_filename (name p0)) x = Some x' -> from x' rest.
Proof.
  intros B H0 I C R.
  destruct (base_files _ _ _ B p0 (or_introl eq_refl)) as (c0 & F0).
  pose proof (base_nodup _ _ _ B) as ND. apply NoDup_cons_iff in ND. destruct ND as [N0 _].
  pose proof C as C'. apply changed_iff in C'.
  destruct (obs_rename p0 _ x x' c0 C' F0 R) as (O1 & O2 & O3).
  fold (target p0) in O1, O3.
  destruct (collect_files root p0 W) as [K0 _]. destruct (K0 H0) as (X0 & _).
  intros q c F. destruct (list_eq_dec string_dec q (target p0)) as [-> | N1].
  - apply file_at_obs in F. rewrite O1 in F. injection F as <-.
    destruct (I p0 c0 F0) as (p & Fp & [[Hp <-] | [Hp E]]).
    + exists p0. split; [exact Fp|]. right. split; [exact N0|].
      unfold place. rewrite X0. reflexivity.
    + exfalso. assert (N : p <> p0) by (intros ->; apply Hp; left; reflexivity).
      destruct (place_clear p p0 c0 Fp H0 C N) as [P1 _]. congruence.
  - destruct (list_eq_dec string_dec q p0) as [-> | N2].
    + apply file_at_obs in F. congruence.
    + apply file_at_obs in F. rewrite (O3 q N1 N2) in F. apply file_at_obs in F.
      destruct (I q c F) as (p & Fp & [[[<- | Hp] ->] | [Hp ->]]).
      * congruence.
      * exists p. split; [exact Fp|]. left. split; [exact Hp | reflexivity].
      * exists p. split; [exact Fp|]. right. split; [|reflexivity].
        intros E. apply Hp. right. exact E.
Qed.

Lemma lossless_result root' m :
  rename_files root = Some (root', m) -> kept root' [] /\ from root' [].
Proof.
  intros H.
  pose (Inv := fun (x : dir) (_ : mapping) (pending : list path) =>
                 base root x pending /\ incl pending (collect_xhtml_files root) /\
                 kept x pending /\ from x pending).
  assert (K : Inv root' m []).
  { apply (fun Hk Hm => fold_inv Inv Hk Hm (collect_xhtml_files root) root [] root' m);
      [ | | | exact H].
    - intros x m0 p0 rest (B & S & K & I) C. split; [exact (base_keep _ _ _ _ B)|].
      split; [intros r Hr; apply S; right; exact Hr|].
      split; [exact (kept_keep _ _ _ B K C) | exact (from_keep _ _ _ B I C)].
    - intros x m0 p0 rest x' (B & S & K & I) C R.
      split; [exact (base_move _ _ _ _ _ B C R)|].
      split; [intros r Hr; apply S; right; exact Hr|].
      pose proof (S p0 (or_introl eq_refl)) as H0.
      split; [exact (kept_move _ _ _ _ B H0 K C R) | exact (from_move _ _ _ _ B H0 I C R)].
    - split; [exact (base_start root W)|]. split; [apply incl_refl|]. split.
      + intros p c F. split; [intros _; exact F|].
        intros Hp. unfold place. destruct (is_xhtml (name p)) eqn:X; [|exact F].
        exfalso. apply Hp. apply (collect_files root p W).
        split; [exact X | exists c; exact F].
      + intros q c F. exists q. split; [exact F|].
        destruct (is_xhtml (name q)) eqn:X.
        * left. split; [|reflexivity]. apply (collect_files root q W).
          split; [exact X | exists c; exact F].
        * right. split; [|unfold place; rewrite X; reflexivity].
          intros E. apply (collect_files root q W) in E. destruct E as [E _]. congruence. }
  destruct K as (_ & _ & K & I). split; assumption.
Qed.

Lemma lossless_returns : rename_files root <> None.
Proof.
  unfold rename_files. intros H.
  apply (fold_fails root _ root [] (base_start root W)) in H.
  destruct H as (p & Hp & C & D). apply dir_at_iff in D. apply changed_iff in C.
  rewrite (obs_free _ _ (Hfree p Hp C)) in D. discriminate.
Qed.

End Lossless.

(** When no file that gets a new name has anything at its new path,
    and no two of them get the same new path, [rename_files] returns
    and loses nothing: the files after the renames are the files
    before, each with its content, an XHTML file under its normalized
    name and any other file under its own. *)
Theorem rename_files_lossless (root : dir) :
  wf (Dir root) = true ->
  (forall p, In p (collect_xhtml_files root) ->
             normalize_filename (name p) <> name p ->
             node_at (target p) (Dir root) = None) ->
  NoDup (map target (filter changed (collect_xhtml_files root))) ->
  exists root' m,
    rename_files root = Some (root', m) /\
    (forall p c, file_at p (Dir root) = Some c -> file_at (place p) (Dir root') = Some c) /\
    (forall q c, file_at q (Dir root') = Some c ->
                 exists p, file_at p (Dir root) = Some c /\ q = place p).
Proof.
  intros W Hfree Hdistinct.
  destruct (rename_files root) as [[root' m]|] eqn:H.
  - exists root', m. split; [reflexivity|].
    destruct (lossless_result root W Hfree Hdistinct root' m H) as [K I]. split.
    + intros p c F. apply (K p c F). intros [].
    + intros q c F. destruct (I q c F) as (p & Fp & [[[] _] | [_ E]]).
      exists p. split; [exact Fp | exact E].
  - exfalso. exact (lossless_returns root W Hfree H).
Qed.

Definition book : dir :=
  [("Chapter One.xhtml", File "one");
   ("3-TableOfContents.xhtml", File "toc");
   ("notes.txt", File "notes");
   ("text", Dir [("Part_Final.xhtml", File "two"); ("b.xhtml", File "three")])].

Definition renamed_book : dir * mapping :=
  Eval vm_compute in
    match rename_files book with
    | Some r => r
    | None => ([], [])
    end.

Lemma book_renamed : rename_files book = Some (fst renamed_book, snd renamed_book).
Proof. vm_compute. reflexivity. Qed.

Lemma rename_files_lossless_witness :
  exists root' m,
    rename_files book = Some (root', m) /\
    (forall p c, file_at p (Dir book) = Some c -> file_at (place p) (Dir root') = Some c) /\
    (forall q c, file_at q (Dir root') = Some c ->
                 exists p, file_at p (Dir book) = Some c /\ q = place p).
Proof.
  apply (rename_files_lossless book).
  - reflexivity.
  - intros p [<- | [<- | [<- | [<- | []]]]] C; vm_compute; try reflexivity.
    exfalso. apply C. vm_compute. reflexivity.
  - vm_compute. repeat constructor; simpl; intuition discriminate.
Defined.

Lemma renamed_names_lower_witness :
  lower (lit "part.xhtml") = lit "part.xhtml".
Proof.
  apply (renamed_names_lower book (fst renamed_book) (snd renamed_book)
           ["text"; "part.xhtml"] "two"); vm_compute; reflexivity.
Defined.

Lemma default_toc_renamed_witness :
  file_at ["3-TableOfContents.xhtml"] (Dir (fst renamed_book)) = None.
Proof.
  apply (default_toc_renamed book (fst renamed_book) (snd renamed_book));
    vm_compute; reflexivity.
Defined.

Lemma other_files_untouched_witness :
  (forall p, dir_at p (fst renamed_book) = dir_at p book) /\
  (forall p, is_xhtml (name p) = false ->
             file_at p (Dir (fst renamed_book)) = file_at p (Dir book)).
Proof.
  apply (other_files_untouched book (fst renamed_book) (snd renamed_book));
    vm_compute; reflexivity.
Defined.

(** **** The mapping that is returned *)

Lemma set_item_in k v m kv : In kv (set_item k v m) -> kv = (k, v) \/ In kv m.
Proof.
  induction m as [|[k' v'] rest IH]; simpl.
  - intros [<- | []]. left. reflexivity.
  - destruct (String.eqb k' k) eqn:E.
    + apply String.eqb_eq in E. subst k'. intros [<- | H].
      * left. reflexivity.
      * right. right. exact H.
    + intros [<- | H]; [right; left; reflexivity|].
      destruct (IH H) as [-> | K]; [left; reflexivity | right; right; exact K].
Qed.

Lemma set_item_keys k v m k0 :
  In k0 (map fst (set_item k v m)) <-> k0 = k \/ In k0 (map fst m).
Proof.
  induction m as [|[k' v'] rest IH]; simpl.
  - split; [intros [<- | []]; left; reflexivity | intros [-> | []]; left; reflexivity].
  - destruct (String.eqb k' k) eqn:E; simpl.
    + apply String.eqb_eq in E. subst k'. split.
      * intros [<- | H]; [left; reflexivity | right; right; exact H].
      * intros [-> | [<- | H]]; [left; reflexivity | left; reflexivity | right; exact H].
    + rewrite IH. split.
      * intros [<- | [-> | H]];
          [right; left; reflexivity | left; reflexivity | right; right; exact H].
      * intros [-> | [<- | H]];
          [right; left; reflexivity | left; reflexivity | right; right; exact H].
Qed.

(** The mapping has an entry for every file that was given a new
    name, under its path relative to the project root, and nothing
    else: each entry pairs the old relative path of such a file with
    the path of the normalized name in the same directory. *)
Theorem mapping_pairs (root root' : dir) (m : mapping) :
  rename_files root = Some (root', m) ->
  (forall k v, In (k, v) m ->
     exists p, In p (collect_xhtml_files root) /\
               normalize_filename (name p) <> name p /\
               k = as_posix p /\
               v = as_posix (with_name p (normalize_filename (name p)))) /\
  (forall p, In p (collect_xhtml_files root) ->
             normalize_filename (name p) <> name p ->
             In (as_posix p) (map fst m)).
Proof.
  intros H.
  pose (Inv := fun (_ : dir) (m0 : mapping) (pending : list path) =>
                 incl pending (collect_xhtml_files root) /\
                 (forall k v, In (k, v) m0 ->
                    exists p, In p (collect_xhtml_files root) /\ changed p = true /\
                              k = as_posix p /\ v = as_posix (target p)) /\
                 (forall p, In p (collect_xhtml_files root) -> changed p = true ->
                            ~ In p pending -> In (as_posix p) (map fst m0))).
  assert (K : Inv root' m []).
  { apply (fun Hk Hm => fold_inv Inv Hk Hm (collect_xhtml_files root) root [] root' m);
      [ | | | exact H].
    - intros x m0 p0 rest (S & P & Q) C.
      split; [intros r Hr; apply S; right; exact Hr|]. split; [exact P|].
      intros p Hp Cp Np. apply (Q p Hp Cp). intros [<- | E]; [congruence | contradiction].
    - intros x m0 p0 rest x' (S & P & Q) C _.
      split; [intros r Hr; apply S; right; exact Hr|]. split.
      + intros k v Hkv. apply set_item_in in Hkv. destruct Hkv as [E | Hkv].
        * injection E as -> ->. exists p0. split; [apply S; left; reflexivity|].
          split; [exact C|]. split; reflexivity.
        * apply (P k v Hkv).
      + intros p Hp Cp Np. apply set_item_keys.
        destruct (list_eq_dec string_dec p p0) as [-> | N]; [left; reflexivity|].
        right. apply (Q p Hp Cp). intros [E | E]; [congruence | contradiction].
    - split; [apply incl_refl|]. split; [intros k v []|].
      intros p Hp _ Np. contradiction. }
  destruct K as (_ & P & Q). split.
  - intros k v Hkv. destruct (P k v Hkv) as (p & Hp & C & -> & ->).
    exists p. split; [exact Hp|]. split; [apply changed_iff; exact C|].
    split; reflexivity.
  - intros p Hp C. apply (Q p Hp); [apply changed_iff; exact C | intros []].
Qed.

Lemma mapping_pairs_witness :
  (forall k v, In (k, v) (snd renamed_book) ->
     exists p, In p (collect_xhtml_files book) /\
               normalize_filename (name p) <> name p /\
               k = as_posix p /\
               v = as_posix (with_name p (normalize_filename (name p)))) /\
  (forall p, In p (collect_xhtml_files book) ->
             normalize_filename (name p) <> name p ->
             In (as_posix p) (map fst (snd renamed_book))).
Proof.
  apply (mapping_pairs book (fst renamed_book) (snd renamed_book)).
  vm_compute. reflexivity.
Defined.

End RenamerFacts.

(** *** Properties of the TOC updater *)

Module TocFacts.
Import Dom DomFacts Fixer Renamer Toc.
Local Open Scope string_scope.
Local Open Scope list_scope.

(** What the loop does to the attributes of one anchor:
    [mapping.get(href, href)] for its [href]. *)
Definition link_attrs (m : mapping) (a : attrs) : attrs :=
  match get_attr "href" a with
  | Some (AttrStr h) =>
      match mapping_get h m with
      | Some v => set_attr "href" (AttrStr v) a
      | None => a
      end
  | _ => a
  end.

Definition relink (m : mapping) (n : string) (a : attrs) : attrs :=
  if String.eqb n "a" then link_attrs m a else a.

(** [href in mapping] for the [href] of a tag. *)
Definition keyed (m : mapping) (k : node) : bool :=
  match k with
  | Tag _ _ a _ =>
      match get_attr "href" a with
      | Some (AttrStr h) => match mapping_get h m with Some _ => true | None => false end
      | _ => false
      end
  | _ => false
  end.

(** No anchor has a list as its [href]: the parser splits [class],
    [rel] and the like, never [href]. *)
Definition plain_href (n : string) (a : attrs) : bool :=
  match get_attr "href" a with
  | Some (AttrList _) => negb (String.eqb n "a")
  | _ => true
  end.

(** The tree with the attributes of the tags in [S] rewritten. *)
Fixpoint touch (S : nat -> bool) (F : string -> attrs -> attrs) (t : node) : node :=
  match t with
  | Tag v n a ks => Tag v n (if S v then F n a else a) (map (touch S F) ks)
  | _ => t
  end.

Definition at_tag (F : string -> attrs -> attrs) (t : node) : node :=
  match t with
  | Tag v n a ks => Tag v n (F n a) ks
  | _ => t
  end.

Lemma touch_ext S S' F t :
  (forall w, In w (uids t) -> S w = S' w) -> touch S F t = touch S' F t.
Proof.
  induction t as [v n a ks IH | s | s] using node_forest_ind; intros H; try reflexivity.
  simpl. rewrite (H v (or_introl eq_refl)). f_equal.
  apply map_ext_in. intros k Hk. rewrite Forall_forall in IH. apply (IH k Hk).
  intros w Hw. apply H. right. apply uids_f_in. exists k. split; assumption.
Qed.

Lemma uids_touch S F t : uids (touch S F t) = uids t.
Proof.
  induction t as [v n a ks IH | s | s] using node_forest_ind; try reflexivity.
  simpl. f_equal. induction ks as [|k r IHr]; [reflexivity|].
  inversion IH as [|k' r' Pk Pr]; subst. simpl. rewrite Pk, (IHr Pr). reflexivity.
Qed.

Lemma subtree_touch u S F t :
  subtree u (touch S F t) = option_map (touch S F) (subtree u t).
Proof.
  induction t as [v n a ks IH | s | s] using node_forest_ind; try reflexivity.
  simpl. destruct (Nat.eqb u v); [reflexivity|].
  apply first_some_map. intros k Hk. rewrite Forall_forall in IH. apply (IH k Hk).
Qed.

Lemma modify_touch u S F t :
  NoDup (uids t) -> S u = false ->
  modify u (at_tag F) (touch S F t) = touch (fun w => Nat.eqb w u || S w) F t.
Proof.
  intros Hnd Hu.
  induction t as [v n a ks IH | s | s] using node_forest_ind; try reflexivity.
  destruct (NoDup_tag _ _ _ _ Hnd) as [Hv Hks].
  simpl. destruct (Nat.eqb u v) eqn:E.
  - apply Nat.eqb_eq in E. subst v. rewrite Hu, Nat.eqb_refl. simpl. f_equal.
    apply map_ext_in. intros k Hk. apply touch_ext. intros w Hw.
    destruct (Nat.eqb w u) eqn:E; [|reflexivity].
    apply Nat.eqb_eq in E. subst w. exfalso. apply Hv. apply uids_f_in.
    exists k. split; assumption.
  - rewrite Nat.eqb_sym, E. simpl. f_equal. rewrite map_map.
    apply map_ext_in. intros k Hk. rewrite Forall_forall in IH. apply (IH k Hk).
    apply (NoDup_child _ _ _ _ _ Hnd Hk).
Qed.

Lemma subtree_none_absent u t : subtree u t = None -> ~ In u (uids t).
Proof.
  intros H K. destruct (subtree_present u t K) as (x & E). congruence.
Qed.

Lemma modify_agree u (f g : node -> node) t x :
  NoDup (uids t) -> subtree u t = Some x -> f x = g x -> modify u f t = modify u g t.
Proof.
  intros Hnd Hs E. revert Hnd Hs.
  induction t as [v n a ks IH | s | s] using node_forest_ind; intros Hnd Hs;
    try reflexivity.
  destruct (NoDup_tag _ _ _ _ Hnd) as [_ Hks].
  simpl in Hs |- *. destruct (Nat.eqb u v).
  - injection Hs as <-. exact E.
  - f_equal. clear Hnd. revert Hks Hs.
    induction ks as [|k r IHr]; intros Hks Hs; [reflexivity|].
    inversion IH as [|k' r' Pk Pr]; subst.
    rewrite uids_f_cons in Hks. destruct (NoDup_app_inv _ _ Hks) as (Nk & Nr & Dk).
    simpl in Hs |- *. destruct (subtree u k) as [y|] eqn:Sk.
    + injection Hs as ->. rewrite (Pk Nk eq_refl). f_equal.
      destruct (subtree_found _ _ _ Sk) as [_ Hin].
      transitivity r; [|symmetry].
      * rewrite <- (map_id r) at 2. apply map_ext_in. intros j Hj.
        apply modify_absent. intros K. apply (Dk u Hin). apply uids_f_in.
        exists j. split; assumption.
      * rewrite <- (map_id r) at 2. apply map_ext_in. intros j Hj.
        apply modify_absent. intros K. apply (Dk u Hin). apply uids_f_in.
        exists j. split; assumption.
    + pose proof (subtree_none_absent _ _ Sk) as Hk.
      rewrite !(modify_absent u _ k Hk). f_equal. apply (IHr Pr Nr Hs).
Qed.

Lemma modify_id u t : modify u (fun y => y) t = t.
Proof.
  induction t as [v n a ks IH | s | s] using node_forest_ind; try reflexivity.
  simpl. destruct (Nat.eqb u v); [reflexivity|]. f_equal.
  rewrite <- (map_id ks) at 2. apply map_ext_in. intros k Hk.
  rewrite Forall_forall in IH. apply (IH k Hk).
Qed.

(** One turn of the loop at an anchor with a string as its [href]. *)
Lemma retarget_spec m cur b u v n a ks h :
  NoDup (uids cur) -> subtree u cur = Some (Tag v n a ks) ->
  String.eqb n "a" = true -> get_attr "href" a = Some (AttrStr h) ->
  retarget m (Some (cur, b)) u
  = Some (modify u (at_tag (relink m)) cur, b || keyed m (Tag v n a ks)).
Proof.
  intros Hnd Hs Hn Hh. unfold retarget. rewrite Hs, Hh. simpl keyed. rewrite Hh.
  assert (R : at_tag (relink m) (Tag v n a ks) = Tag v n (link_attrs m a) ks).
  { simpl. unfold relink. rewrite Hn. reflexivity. }
  destruct (mapping_get h m) as [new|] eqn:G.
  - rewrite orb_true_r. f_equal. f_equal.
    apply (modify_agree u _ _ cur _ Hnd Hs). rewrite R. simpl.
    unfold link_attrs. rewrite Hh, G. reflexivity.
  - rewrite orb_false_r. f_equal. f_equal.
    rewrite (modify_agree u (at_tag (relink m)) (fun y => y) cur _ Hnd Hs).
    + symmetry. apply modify_id.
    + rewrite R. unfold link_attrs. rewrite Hh, G. reflexivity.
Qed.

(** **** The loop of [update_toc] *)

Definition mem (l : list nat) (w : nat) : bool := existsb (Nat.eqb w) l.

Lemma mem_iff l w : mem l w = true <-> In w l.
Proof.
  unfold mem. rewrite existsb_exists. split.
  - intros (x & Hx & E). apply Nat.eqb_eq in E. subst. exact Hx.
  - intros H. exists w. split; [exact H | apply Nat.eqb_refl].
Qed.

Lemma mem_out l w : ~ In w l -> mem l w = false.
Proof.
  intros H. destruct (mem l w) eqn:E; [|reflexivity]. apply mem_iff in E. contradiction.
Qed.

Lemma retarget_cons m v l st :
  fold_left (retarget m) (v :: l) st = fold_left (retarget m) l (retarget m st v).
Proof. reflexivity. Qed.

Lemma anchor_tag k :
  is_anchor k = true ->
  exists v n a ks, k = Tag v n a ks /\ String.eqb n "a" = true /\ has_attr "href" a = true.
Proof.
  destruct k as [v n a ks | s | s]; try discriminate. simpl. intros H.
  apply andb_true_iff in H. destruct H as [H1 H2]. exists v, n, a, ks. tauto.
Qed.

(** After the anchors of [rest] the tree is the one of the start
    with those anchors rewritten, and the flag tells whether one of
    them had a key of the mapping as its [href]. *)
Lemma retarget_fold m t0 :
  NoDup (uids t0) -> every_tag plain_href t0 = true ->
  forall rest S b,
    Forall (fun k => is_anchor k = true /\ In k (descendants t0)) rest ->
    NoDup (tag_uids rest) ->
    (forall w, In w (tag_uids rest) -> S w = false) ->
    fold_left (retarget m) (tag_uids rest) (Some (touch S (relink m) t0, b))
    = Some (touch (fun w => mem (tag_uids rest) w || S w) (relink m) t0,
            b || existsb (keyed m) rest).
Proof.
  intros Hnd HP. induction rest as [|k rest IH]; intros S b HF ND HS.
  - simpl. rewrite orb_false_r. reflexivity.
  - inversion HF as [|k' r' Hk0 HF']; subst. destruct Hk0 as [Hk Hin].
    destruct (anchor_tag k Hk) as (v & n & a & ks & -> & Hn & Hh).
    change (tag_uids (Tag v n a ks :: rest)) with (v :: tag_uids rest) in *.
    apply NoDup_cons_iff in ND. destruct ND as [Nv ND].
    rewrite retarget_cons.
    assert (Sv : S v = false) by (apply HS; left; reflexivity).
    assert (Hs : subtree v (touch S (relink m) t0)
                 = Some (Tag v n a (map (touch S (relink m)) ks))).
    { rewrite subtree_touch.
      rewrite (subtree_of_descendant t0 Hnd (Tag v n a ks) v Hin (Nat.eqb_refl v)).
      simpl. rewrite Sv. reflexivity. }
    pose proof (every_tag_descendants plain_href t0 HP v n a ks Hin) as Pl.
    unfold plain_href in Pl. unfold has_attr in Hh.
    destruct (get_attr "href" a) as [[h | l]|] eqn:G; try discriminate.
    + assert (Hc : NoDup (uids (touch S (relink m) t0))) by (rewrite uids_touch; exact Hnd).
      rewrite (retarget_spec m _ b v v n a _ h Hc Hs Hn G).
      rewrite (modify_touch v S (relink m) t0 Hnd Sv).
      rewrite (IH _ _ HF' ND).
      * f_equal. f_equal.
        -- apply touch_ext. intros w _. unfold mem. simpl.
           destruct (Nat.eqb w v); destruct (existsb (Nat.eqb w) (tag_uids rest));
             destruct (S w); reflexivity.
        -- simpl. rewrite orb_assoc. reflexivity.
      * intros w Hw. rewrite (HS w (or_intror Hw)), orb_false_r.
        apply Nat.eqb_neq. intros ->. contradiction.
    + rewrite Hn in Pl. discriminate.
Qed.

Lemma tag_uids_app l l' : tag_uids (l ++ l') = tag_uids l ++ tag_uids l'.
Proof. unfold tag_uids. apply flat_map_app. Qed.

Lemma tag_uids_cons k r : tag_uids (k :: r) = tag_uids [k] ++ tag_uids r.
Proof. apply (tag_uids_app [k] r). Qed.

Lemma tag_uids_self k : tag_uids (k :: descendants k) = uids k.
Proof.
  induction k as [v n a ks IH | s | s] using node_forest_ind; try reflexivity.
  change (tag_uids (Tag v n a ks :: descendants (Tag v n a ks)))
    with (v :: tag_uids (descendants (Tag v n a ks))).
  rewrite descendants_tag. simpl. f_equal.
  induction ks as [|k r IHr]; [reflexivity|].
  inversion IH as [|k' r' Pk Pr]; subst.
  unfold descs. simpl flat_map. fold (descs r).
  change (k :: descendants k ++ descs r) with ((k :: descendants k) ++ descs r).
  rewrite tag_uids_app, Pk, (IHr Pr). reflexivity.
Qed.

Lemma tag_uids_filter_nodup p l : NoDup (tag_uids l) -> NoDup (tag_uids (filter p l)).
Proof.
  induction l as [|k r IH]; intros H; [constructor|].
  rewrite tag_uids_cons in H.
  destruct (NoDup_app_inv _ _ H) as (Nk & Nr & D).
  simpl filter. destruct (p k); [|apply IH; exact Nr].
  rewrite tag_uids_cons.
  destruct k as [v n a ks | s | s]; simpl; try (apply IH; exact Nr).
  constructor; [|apply IH; exact Nr].
  intros K. apply QuizFacts.tag_uids_in in K. destruct K as (n' & a' & ks' & K).
  apply filter_In in K. destruct K as [K _].
  apply (D v); [left; reflexivity|]. apply QuizFacts.tag_uids_in. exists n', a', ks'. exact K.
Qed.

Lemma anchors_nodup p t : NoDup (uids t) -> NoDup (tag_uids (find_all p t)).
Proof.
  intros H. unfold find_all. apply tag_uids_filter_nodup.
  rewrite <- tag_uids_self in H.
  rewrite tag_uids_cons in H.
  destruct (NoDup_app_inv _ _ H) as (_ & N & _). exact N.
Qed.

Lemma touch_false F t : touch (fun _ => false) F t = t.
Proof.
  induction t as [v n a ks IH | s | s] using node_forest_ind; try reflexivity.
  simpl. f_equal. rewrite <- (map_id ks) at 2. apply map_ext_in. intros k Hk.
  rewrite Forall_forall in IH. apply (IH k Hk).
Qed.

Lemma touch_all S (p : string -> attrs -> bool) F t :
  (forall v n a ks, In (Tag v n a ks) (t :: descendants t) -> S v = p n a) ->
  touch S F t = map_attrs (fun n a => if p n a then F n a else a) t.
Proof.
  induction t as [v n a ks IH | s | s] using node_forest_ind; intros H; try reflexivity.
  simpl. rewrite (H v n a ks (or_introl eq_refl)). f_equal.
  apply map_ext_in. intros k Hk. rewrite Forall_forall in IH. apply (IH k Hk).
  intros w n' a' ks' Hin. apply (H w n' a' ks'). right.
  apply descendants_in. exists k. split; [exact Hk|].
  destruct Hin as [E | Hin]; [left; symmetry; exact E | right; exact Hin].
Qed.

Lemma map_attrs_ext f g t :
  (forall n a, f n a = g n a) -> map_attrs f t = map_attrs g t.
Proof.
  intros E. induction t as [v n a ks IH | s | s] using node_forest_ind; try reflexivity.
  simpl. rewrite E. f_equal. apply map_ext_in. intros k Hk.
  rewrite Forall_forall in IH. apply (IH k Hk).
Qed.

(** [update_toc] raises nothing on a parsed document, writes exactly
    when some [a] element has a key of the mapping as its [href], and
    then writes the document in which every such [href] is replaced by
    the value of the mapping and nothing else is changed. *)
Theorem update_toc_result (m : mapping) (t : node) :
  NoDup (uids t) -> is_anchor t = false -> every_tag plain_href t = true ->
  update_toc m t
  = Some (if existsb (keyed m) (find_all is_anchor t)
          then Some (map_attrs (relink m) t) else None).
Proof.
  intros Hnd Hroot HP. unfold update_toc.
  pose proof (retarget_fold m t Hnd HP (find_all is_anchor t) (fun _ => false) false) as H.
  rewrite touch_false in H. rewrite H; clear H.
  - simpl orb. f_equal.
    destruct (existsb (keyed m) (find_all is_anchor t)); [|reflexivity]. f_equal.
    rewrite (touch_all _ (fun n a => String.eqb n "a" && has_attr "href" a)).
    + apply map_attrs_ext. intros n a. unfold relink.
      destruct (String.eqb n "a"); simpl; [|reflexivity].
      unfold has_attr, link_attrs. destruct (get_attr "href" a); reflexivity.
    + intros v n a ks Hin. rewrite orb_false_r.
      destruct (String.eqb n "a" && has_attr "href" a) eqn:P.
      * apply mem_iff. apply QuizFacts.tag_uids_in. exists n, a, ks.
        apply filter_In. split; [|exact P].
        destruct Hin as [E | Hin]; [|exact Hin]. subst t. simpl in Hroot. congruence.
      * apply mem_out. intros K. apply QuizFacts.tag_uids_in in K.
        destruct K as (n' & a' & ks' & K). apply filter_In in K. destruct K as [K1 K2].
        destruct Hin as [E | Hin]; [subst t|].
        -- destruct (NoDup_tag _ _ _ _ Hnd) as [Hv _]. apply Hv.
           apply (descendants_uids _ _ v K1). left. reflexivity.
        -- pose proof (subtree_of_descendant t Hnd _ v K1 (Nat.eqb_refl v)) as E1.
           pose proof (subtree_of_descendant t Hnd _ v Hin (Nat.eqb_refl v)) as E2.
           rewrite E1 in E2. injection E2 as -> -> _. simpl in K2. congruence.
  - apply Forall_forall. intros k Hk. apply filter_In in Hk. tauto.
  - apply anchors_nodup. exact Hnd.
  - intros w _. reflexivity.
Qed.

Definition toc_map : mapping :=
  [("Chapter One.xhtml", "chapter-one.xhtml");
   ("text/Part_Final.xhtml", "text/part.xhtml")].

Definition toc_page : node :=
  Tag 0 "[document]" []
    [Tag 1 "html" []
       [Tag 2 "body" []
          [Tag 3 "a" [("href", AttrStr "Chapter One.xhtml"); ("class", AttrList ["part"])]
             [NavigableString "One";
              Tag 4 "a" [("href", AttrStr "text/Part_Final.xhtml")] []];
           Tag 5 "a" [("name", AttrStr "top")] [];
           Tag 6 "link" [("href", AttrStr "Chapter One.xhtml")] [];
           Tag 7 "a" [("href", AttrStr "Chapter One.xhtml#s2")] []]]].

Lemma toc_page_unique : NoDup (uids toc_page).
Proof. repeat constructor; simpl; intuition discriminate. Qed.

Definition relinked_page : node := Eval vm_compute in map_attrs (relink toc_map) toc_page.

Lemma update_toc_result_witness : update_toc toc_map toc_page = Some (Some relinked_page).
Proof.
  exact (update_toc_result toc_map toc_page toc_page_unique eq_refl eq_refl).
Defined.

End TocFacts.
